(** * Euler schemes for the Heston model: the simulation notebook, embedded

    A shallow embedding of the classes and functions of
    [SimulationOfStochasticVolatilityModels_with_answers.ipynb]:
    [BlackScholes], [price_call_option], [Heston], [Heston_Absorption],
    [Heston_Full_Truncation] and
    [Heston_Full_Truncation_With_Correlation_Measurement].

    Conventions of the embedding.
    - A Python [float] is a real number (type [R]); rounding, infinities and
      NaN are outside the model.  A Python [int] is a [Z].  Where the outcome
      of a method turns on rounding, the module [Binary64] gives the
      diagnostics class a second time, over IEEE 754 binary64.
    - A method is a computation in the monad [M O]: it reads and writes the
      object [self : O], takes draws from the stream behind [sc.randn()],
      and either returns a value or raises an exception.  The object keeps the
      writes made before an exception is raised, as in Python.
    - [math.sqrt] raises [ValueError] on a negative argument, [math.log] on a
      non-positive one, and [/] raises [ZeroDivisionError] on a zero divisor.
    - A method found by inheritance is written once, over any object type
      that carries the fields of the base class. *)

From Stdlib Require Import Reals Lra Lia ZArith List Psatz.
From Stdlib Require Floats.
Import ListNotations.

Open Scope R_scope.

(** ** Exceptions, results and the method monad *)

Inductive exn : Type :=
| ValueError          (* math domain error *)
| ZeroDivisionError   (* float division by zero *)
| UnboundLocalError.  (* local variable referenced before assignment *)

Inductive result (A : Type) : Type :=
| Ok (a : A)
| Raise (e : exn).

Arguments Ok {A} a.
Arguments Raise {A} e.

(** The world a method runs in: the receiver object, the stream of
    standard-normal draws that successive calls of [sc.randn()] return, and
    the number of draws taken so far. *)
Record world (O : Type) : Type := mkWorld {
  self : O;
  randn_stream : nat -> R;
  drawn : nat
}.

Arguments mkWorld {O} _ _ _.
Arguments self {O} _.
Arguments randn_stream {O} _ _.
Arguments drawn {O} _.

Definition M (O A : Type) : Type := world O -> result A * world O.

Definition ret {O A : Type} (a : A) : M O A := fun w => (Ok a, w).

Definition raise {O A : Type} (e : exn) : M O A := fun w => (Raise e, w).

Definition bind {O A B : Type} (m : M O A) (k : A -> M O B) : M O B :=
  fun w =>
    match m w with
    | (Ok a, w') => k a w'
    | (Raise e, w') => (Raise e, w')
    end.

Declare Scope py_scope.
Delimit Scope py_scope with py.
Notation "x <- m ;; k" := (bind m (fun x => k))
  (at level 61, m at next level, right associativity) : py_scope.
Notation "m ;;; k" := (bind m (fun _ => k))
  (at level 61, right associativity) : py_scope.
Open Scope py_scope.

(** [self.f] *)
Definition getattr {O A : Type} (f : O -> A) : M O A :=
  fun w => (Ok (f (self w)), w).

(** [self.f = ...], as an update of the whole object *)
Definition setattr {O : Type} (upd : O -> O) : M O unit :=
  fun w => (Ok tt, mkWorld (upd (self w)) (randn_stream w) (drawn w)).

(** [sc.randn()]: the next draw of the stream *)
Definition sc_randn {O : Type} : M O R :=
  fun w => (Ok (randn_stream w (drawn w)),
            mkWorld (self w) (randn_stream w) (S (drawn w))).

(** [for i in range(n): locals = body(locals)] *)
Fixpoint for_range {O S : Type} (n : nat) (body : S -> M O S) (s : S) : M O S :=
  match n with
  | O => ret s
  | Datatypes.S n' => s' <- body s ;; for_range n' body s'
  end.

(** ** The [math] module and the built-ins the notebook uses *)

Definition math_sqrt {O : Type} (x : R) : M O R :=
  if Rlt_dec x 0 then raise ValueError else ret (sqrt x).

Definition math_log {O : Type} (x : R) : M O R :=
  if Rle_dec x 0 then raise ValueError else ret (ln x).

Definition math_exp {O : Type} (x : R) : M O R := ret (exp x).

(** [a / b] on floats *)
Definition truediv {O : Type} (a b : R) : M O R :=
  if Req_EM_T b 0 then raise ZeroDivisionError else ret (a / b).

(** [max(a, b)]: the first argument unless the second is larger *)
Definition py_max (a b : R) : R := if Rlt_dec a b then b else a.

(** ** class Heston *)

Module Heston.

Record t : Type := mk {
  mu : R;
  kappa : R;
  theta : R;
  omega : R;
  rho : R;
  initial_variance : R
}.

(** [Heston.__init__] *)
Definition __init__ (mu kappa theta omega rho initial_variance : R) : result t :=
  Ok (mk mu kappa theta omega rho initial_variance).

(** Objects of [Heston] and of its subclasses: they carry the fields that
    [Heston.__init__] sets, and answer the two step methods that
    [simulate_stock] calls through [self]. *)
Class Fields (O : Type) : Type := fields : O -> t.

Class Scheme (O : Type) `{Fields O} : Type := {
  variance_next_step : R -> R -> R -> M O R;
  log_asset_next_step : R -> R -> R -> R -> M O R
}.

Section Methods.
Context {O : Type} `{Fields O}.

Definition _simulate_variance_next_step (var_prev dt randn : R) : M O R :=
  this <- getattr fields ;;
  let tmp := kappa this * dt in
  root <- math_sqrt (var_prev * dt) ;;
  let variance := (1 - tmp) * var_prev + tmp * theta this + omega this * root * randn in
  ret variance.

Definition _simulate_log_asset_next_step (log_asset_prev var_prev dt randn : R) : M O R :=
  this <- getattr fields ;;
  root <- math_sqrt (var_prev * dt) ;;
  let increment := (mu this - 0.5 * var_prev) * dt + root * randn in
  ret (log_asset_prev + increment).

(** The local variables of [simulate_stock] that the loop carries;
    [log_asset_next] is unbound until the first pass. *)
Record locals : Type := mkLocals {
  var_prev : R;
  log_asset_prev : R;
  log_asset_next : option R
}.

Context `{!Scheme O}.

Definition loop_body (dt : R) (l : locals) : M O locals :=
  randn_vol <- sc_randn ;;
  this <- getattr fields ;;
  root <- math_sqrt (1 - rho this * rho this) ;;
  z <- sc_randn ;;
  let randn_spot := rho this * randn_vol + root * z in
  var_next <- variance_next_step (var_prev l) dt randn_vol ;;
  log_asset_next <- log_asset_next_step (log_asset_prev l) (var_prev l) dt randn_spot ;;
  ret (mkLocals var_next log_asset_next (Some log_asset_next)).

Definition simulate_stock (spot maturity : R) (num_steps : Z) : M O R :=
  dt <- truediv maturity (IZR num_steps) ;;
  this <- getattr fields ;;
  log_asset_0 <- math_log spot ;;
  l <- for_range (Z.to_nat num_steps) (loop_body dt)
         (mkLocals (initial_variance this) log_asset_0 None) ;;
  match log_asset_next l with
  | Some log_asset => math_exp log_asset
  | None => raise UnboundLocalError
  end.

End Methods.

#[global] Instance fields_t : Fields t := fun o => o.

(** The base class answers the step methods with its own definitions. *)
Definition scheme : Scheme t := {|
  variance_next_step := _simulate_variance_next_step;
  log_asset_next_step := _simulate_log_asset_next_step
|}.

End Heston.

(** ** class Heston_Absorption(Heston) *)

Module Heston_Absorption.

Record t : Type := mk {
  base : Heston.t;
  number_of_negative_variances : Z
}.

(** [Heston_Absorption.__init__]: the base constructor, then the counter. *)
Definition __init__ (mu kappa theta omega rho initial_variance : R) : result t :=
  match Heston.__init__ mu kappa theta omega rho initial_variance with
  | Ok b => Ok (mk b 0)
  | Raise e => Raise e
  end.

#[global] Instance fields_t : Heston.Fields t := base.

Definition _simulate_variance_next_step (var_prev dt randn : R) : M t R :=
  (if Rgt_dec var_prev 0
   then n <- getattr number_of_negative_variances ;;
        setattr (fun o => mk (base o) (n + 1))
   else ret tt) ;;;
  let var_prev_adjusted := py_max var_prev 0 in
  this <- getattr Heston.fields ;;
  let tmp := Heston.kappa this * dt in
  root <- math_sqrt (var_prev_adjusted * dt) ;;
  let variance := (1 - tmp) * var_prev_adjusted + tmp * Heston.theta this
                  + Heston.omega this * root * randn in
  ret (py_max variance 0).

(** The log-asset step and [simulate_stock] are inherited from [Heston]. *)
Definition scheme : Heston.Scheme t := {|
  Heston.variance_next_step := _simulate_variance_next_step;
  Heston.log_asset_next_step := Heston._simulate_log_asset_next_step
|}.

Definition simulate_stock : R -> R -> Z -> M t R :=
  Heston.simulate_stock (Scheme0 := scheme).

End Heston_Absorption.

(** ** class Heston_Full_Truncation(Heston) *)

Module Heston_Full_Truncation.

Section Methods.
Context {O : Type} `{Heston.Fields O}.

Definition _simulate_variance_next_step (var_prev dt randn : R) : M O R :=
  let var_prev_adjusted := py_max var_prev 0 in
  this <- getattr Heston.fields ;;
  let tmp := Heston.kappa this * dt in
  root <- math_sqrt (var_prev_adjusted * dt) ;;
  let variance := var_prev - tmp * (var_prev_adjusted - Heston.theta this)
                  + Heston.omega this * root * randn in
  ret variance.

Definition _simulate_log_asset_next_step (log_asset_prev var_prev dt randn : R) : M O R :=
  let var_prev_adjusted := py_max var_prev 0 in
  this <- getattr Heston.fields ;;
  root <- math_sqrt (var_prev_adjusted * dt) ;;
  let increment := (Heston.mu this - 0.5 * var_prev_adjusted) * dt + root * randn in
  ret (log_asset_prev + increment).

(** Both step methods are overridden; subclasses inherit them. *)
Definition scheme : Heston.Scheme O := {|
  Heston.variance_next_step := _simulate_variance_next_step;
  Heston.log_asset_next_step := _simulate_log_asset_next_step
|}.

End Methods.

(** The class adds no field and no constructor: its objects are [Heston.t],
    built by [Heston.__init__]; [simulate_stock] is inherited. *)
Definition simulate_stock : R -> R -> Z -> M Heston.t R :=
  Heston.simulate_stock (Scheme0 := scheme).

End Heston_Full_Truncation.

(** ** class Heston_Full_Truncation_With_Correlation_Measurement(Heston_Full_Truncation) *)

Module Heston_Full_Truncation_With_Correlation_Measurement.

Record t : Type := mk {
  base : Heston.t;
  num_paths : Z;
  avg_correlation : R;
  log_asset_incr_first_mom : R;
  log_asset_incr_second_mom : R;
  var_incr_first_mom : R;
  var_incr_second_mom : R;
  cross_first_mom : R
}.

#[global] Instance fields_t : Heston.Fields t := base.

#[global] Instance scheme : Heston.Scheme t := Heston_Full_Truncation.scheme.

(** Attribute assignments *)
Definition set_num_paths (v : Z) (o : t) : t :=
  mk (base o) v (avg_correlation o) (log_asset_incr_first_mom o)
     (log_asset_incr_second_mom o) (var_incr_first_mom o) (var_incr_second_mom o)
     (cross_first_mom o).

Definition set_avg_correlation (v : R) (o : t) : t :=
  mk (base o) (num_paths o) v (log_asset_incr_first_mom o)
     (log_asset_incr_second_mom o) (var_incr_first_mom o) (var_incr_second_mom o)
     (cross_first_mom o).

Definition set_log_asset_incr_first_mom (v : R) (o : t) : t :=
  mk (base o) (num_paths o) (avg_correlation o) v
     (log_asset_incr_second_mom o) (var_incr_first_mom o) (var_incr_second_mom o)
     (cross_first_mom o).

Definition set_log_asset_incr_second_mom (v : R) (o : t) : t :=
  mk (base o) (num_paths o) (avg_correlation o) (log_asset_incr_first_mom o)
     v (var_incr_first_mom o) (var_incr_second_mom o) (cross_first_mom o).

Definition set_var_incr_first_mom (v : R) (o : t) : t :=
  mk (base o) (num_paths o) (avg_correlation o) (log_asset_incr_first_mom o)
     (log_asset_incr_second_mom o) v (var_incr_second_mom o) (cross_first_mom o).

Definition set_var_incr_second_mom (v : R) (o : t) : t :=
  mk (base o) (num_paths o) (avg_correlation o) (log_asset_incr_first_mom o)
     (log_asset_incr_second_mom o) (var_incr_first_mom o) v (cross_first_mom o).

Definition set_cross_first_mom (v : R) (o : t) : t :=
  mk (base o) (num_paths o) (avg_correlation o) (log_asset_incr_first_mom o)
     (log_asset_incr_second_mom o) (var_incr_first_mom o) (var_incr_second_mom o) v.

Definition _clear_statistics : M t unit :=
  setattr (set_log_asset_incr_first_mom 0) ;;;
  setattr (set_log_asset_incr_second_mom 0) ;;;
  setattr (set_var_incr_first_mom 0) ;;;
  setattr (set_var_incr_second_mom 0) ;;;
  setattr (set_cross_first_mom 0).

(** [Heston_Full_Truncation_With_Correlation_Measurement.__init__] *)
Definition __init__ (mu kappa theta omega rho initial_variance : R) : result t :=
  match Heston.__init__ mu kappa theta omega rho initial_variance with
  | Ok b => Ok (mk b 0 0 0 0 0 0 0)
  | Raise e => Raise e
  end.

Definition _update_statistics (asset_incr var_incr : R) (num_steps : Z) : M t unit :=
  m <- getattr log_asset_incr_first_mom ;;
  q <- truediv 1 (IZR num_steps) ;;
  setattr (set_log_asset_incr_first_mom (m + q * asset_incr)) ;;;
  m <- getattr log_asset_incr_second_mom ;;
  q <- truediv 1 (IZR num_steps) ;;
  setattr (set_log_asset_incr_second_mom (m + q * asset_incr * asset_incr)) ;;;
  m <- getattr var_incr_first_mom ;;
  q <- truediv 1 (IZR num_steps) ;;
  setattr (set_var_incr_first_mom (m + q * var_incr)) ;;;
  m <- getattr var_incr_second_mom ;;
  q <- truediv 1 (IZR num_steps) ;;
  setattr (set_var_incr_second_mom (m + q * var_incr * var_incr)) ;;;
  m <- getattr cross_first_mom ;;
  q <- truediv 1 (IZR num_steps) ;;
  setattr (set_cross_first_mom (m + q * asset_incr * var_incr)).

Definition _calculate_correlation : M t R :=
  n <- getattr num_paths ;;
  setattr (set_num_paths (n + 1)) ;;;
  o <- getattr (fun o => o) ;;
  asset_incr_stdev <- math_sqrt (log_asset_incr_second_mom o
                                 - log_asset_incr_first_mom o * log_asset_incr_first_mom o) ;;
  var_incr_stdev <- math_sqrt (var_incr_second_mom o
                               - var_incr_first_mom o * var_incr_first_mom o) ;;
  let cov := cross_first_mom o - log_asset_incr_first_mom o * var_incr_first_mom o in
  truediv cov (asset_incr_stdev * var_incr_stdev).

Definition loop_body (dt : R) (num_steps : Z) (l : Heston.locals) : M t Heston.locals :=
  randn_vol <- sc_randn ;;
  this <- getattr Heston.fields ;;
  root <- math_sqrt (1 - Heston.rho this * Heston.rho this) ;;
  z <- sc_randn ;;
  let randn_spot := Heston.rho this * randn_vol + root * z in
  var_next <- Heston.variance_next_step (Heston.var_prev l) dt randn_vol ;;
  log_asset_next <- Heston.log_asset_next_step (Heston.log_asset_prev l)
                      (Heston.var_prev l) dt randn_spot ;;
  _update_statistics (log_asset_next - Heston.log_asset_prev l)
                     (var_next - Heston.var_prev l) num_steps ;;;
  ret (Heston.mkLocals var_next log_asset_next (Some log_asset_next)).

Definition simulate_stock (spot maturity : R) (num_steps : Z) : M t R :=
  _clear_statistics ;;;
  dt <- truediv maturity (IZR num_steps) ;;
  this <- getattr Heston.fields ;;
  log_asset_0 <- math_log spot ;;
  l <- for_range (Z.to_nat num_steps) (loop_body dt num_steps)
         (Heston.mkLocals (Heston.initial_variance this) log_asset_0 None) ;;
  corr <- _calculate_correlation ;;
  avg <- getattr avg_correlation ;;
  n <- getattr num_paths ;;
  avg' <- truediv (avg * IZR (n - 1) + corr) (IZR n) ;;
  setattr (set_avg_correlation avg') ;;;
  match Heston.log_asset_next l with
  | Some log_asset => math_exp log_asset
  | None => raise UnboundLocalError
  end.

End Heston_Full_Truncation_With_Correlation_Measurement.

(** ** class BlackScholes *)

Module BlackScholes.

Record t : Type := mk {
  mu : R;
  vol : R
}.

(** [BlackScholes.__init__] *)
Definition __init__ (mu vol : R) : result t := Ok (mk mu vol).

Definition _simulate_increment (dt randn : R) : M t R :=
  this <- getattr (fun o => o) ;;
  root <- math_sqrt dt ;;
  ret ((mu this - 0.5 * vol this * vol this) * dt + vol this * root * randn).

(** [sum(map(lambda x: self._simulate_increment(dt, sc.randn()), range(num_steps)))] *)
Definition sum_increments (dt : R) (num_steps : Z) : M t R :=
  for_range (Z.to_nat num_steps)
    (fun acc => z <- sc_randn ;; incr <- _simulate_increment dt z ;; ret (acc + incr)) 0.

Definition simulate_stock (spot maturity : R) (num_steps : Z) : M t R :=
  dt <- truediv maturity (IZR num_steps) ;;
  increment <- sum_increments dt num_steps ;;
  e <- math_exp increment ;;
  ret (spot * e).

(** [forward_opt]; scipy's [norm.cdf] is the parameter [norm_cdf]. *)
Definition forward_opt (norm_cdf : R -> R) (forward strike maturity : R) : M t R :=
  this <- getattr (fun o => o) ;;
  ratio <- truediv forward strike ;;
  log_moneyness <- math_log ratio ;;
  root <- math_sqrt maturity ;;
  d1 <- truediv (log_moneyness + 0.5 * vol this * vol this * maturity) (vol this * root) ;;
  root' <- math_sqrt maturity ;;
  let d2 := d1 - vol this * root' in
  let nd1 := norm_cdf d1 in
  let nd2 := norm_cdf d2 in
  ret (forward * nd1 - strike * nd2).

End BlackScholes.

(** ** Monte Carlo pricing *)

(** What [price_call_option] asks of its [model] argument. *)
Class Model (O : Type) : Type := model_simulate_stock : R -> R -> Z -> M O R.

#[global] Instance BlackScholes_model : Model BlackScholes.t :=
  BlackScholes.simulate_stock.
#[global] Instance Heston_Absorption_model : Model Heston_Absorption.t :=
  Heston_Absorption.simulate_stock.
#[global] Instance Diagnostics_model
  : Model Heston_Full_Truncation_With_Correlation_Measurement.t :=
  Heston_Full_Truncation_With_Correlation_Measurement.simulate_stock.

(** The naive and the full-truncation classes share the object type
    [Heston.t]; their instances are passed by name. *)
Definition Heston_model : Model Heston.t :=
  Heston.simulate_stock (Scheme0 := Heston.scheme).
Definition Heston_Full_Truncation_model : Model Heston.t :=
  Heston_Full_Truncation.simulate_stock.

Definition sum_list (xs : list R) : R := fold_right Rplus 0 xs.

(** [np.average] of a list: the sum over the length.  (Of the empty list
    numpy makes NaN; [price_call_option] raises before it could return one.) *)
Definition np_average (l : list R) : R := sum_list l / INR (length l).

(** [np.std] of a list (numpy's default, [ddof=0]): the square root of the
    average squared deviation from the average. *)
Definition np_std (l : list R) : R :=
  sqrt (np_average (map (fun x => (x - np_average l) * (x - np_average l)) l)).

Definition price_call_option {O : Type} `{Model O}
    (spot strike maturity : R) (num_steps num_paths : Z) : M O (R * R) :=
  realisations <-
    for_range (Z.to_nat num_paths)
      (fun acc => s <- model_simulate_stock spot maturity num_steps ;;
                  ret (acc ++ [py_max (s - strike) 0]))
      [] ;;
  let average := np_average realisations in
  root <- math_sqrt (IZR num_paths) ;;
  q <- truediv 1 root ;;
  ret (average, q * np_std realisations).

(** ** Paths and sample moments, for the statements *)

(** The successive values of a loop's locals: [for_range] that keeps every
    intermediate value, the initial one first. *)
Fixpoint trace {O S : Type} (n : nat) (body : S -> M O S) (s : S) : M O (list S) :=
  match n with
  | O => ret [s]
  | Datatypes.S n' => s' <- body s ;; rest <- trace n' body s' ;; ret (s :: rest)
  end.

(** The per-step increments (log-asset, variance) along a path of locals. *)
Fixpoint increments (ls : list Heston.locals) : list (R * R) :=
  match ls with
  | [] => []
  | l :: rest =>
      match rest with
      | [] => []
      | l' :: _ =>
          (Heston.log_asset_prev l' - Heston.log_asset_prev l,
           Heston.var_prev l' - Heston.var_prev l) :: increments rest
      end
  end.

(** Second moment minus squared first moment of [xs], each sample weighted
    by [q]: the quantity whose square root [_calculate_correlation] takes. *)
Definition sample_variance (q : R) (xs : list R) : R :=
  q * sum_list (map (fun x => x * x) xs) - (q * sum_list xs) * (q * sum_list xs).

Definition all_equal (xs : list R) : Prop := exists c, Forall (fun x => x = c) xs.

(** Following the words of the specification: simulate [n] terminal values,
    apply the payoff to each, report the mean and the standard deviation over
    the square root of the number of paths. *)
Definition simulate_paths {O : Type} `{Model O}
    (spot maturity : R) (num_steps : Z) (n : nat) : M O (list R) :=
  for_range n
    (fun acc => s <- model_simulate_stock spot maturity num_steps ;; ret (acc ++ [s])) [].

Definition call_payoff (strike terminal : R) : R := Rmax (terminal - strike) 0.

Definition price_call_spec {O : Type} `{Model O}
    (spot strike maturity : R) (num_steps num_paths : Z) : M O (R * R) :=
  terminals <- simulate_paths spot maturity num_steps (Z.to_nat num_paths) ;;
  let payoffs := map (call_payoff strike) terminals in
  ret (np_average payoffs, np_std payoffs / sqrt (IZR num_paths)).

(** ** Closed forms used in the proofs *)

(** One pass of the full-truncation loop on draws [z1], [z2]. *)
Definition ft_step (h : Heston.t) (dt z1 z2 : R) (l : Heston.locals) : Heston.locals :=
  let v := Heston.var_prev l in
  let randn_spot := Heston.rho h * z1 + sqrt (1 - Heston.rho h * Heston.rho h) * z2 in
  let var_next := v - Heston.kappa h * dt * (Rmax v 0 - Heston.theta h)
                  + Heston.omega h * sqrt (Rmax v 0 * dt) * z1 in
  let log_asset_next := Heston.log_asset_prev l
                        + ((Heston.mu h - 0.5 * Rmax v 0) * dt
                           + sqrt (Rmax v 0 * dt) * randn_spot) in
  Heston.mkLocals var_next log_asset_next (Some log_asset_next).

(** The full-truncation path of [n] passes from [l], on the draws of
    [stream] from position [d] on. *)
Fixpoint ft_path (h : Heston.t) (dt : R) (stream : nat -> R) (d n : nat)
    (l : Heston.locals) : list Heston.locals :=
  match n with
  | O => [l]
  | Datatypes.S n' =>
      l :: ft_path h dt stream (S (S d)) n' (ft_step h dt (stream d) (stream (S d)) l)
  end.

(** The statistics after one call of [_update_statistics]. *)
Definition add_moments (q a b : R)
    (o : Heston_Full_Truncation_With_Correlation_Measurement.t)
  : Heston_Full_Truncation_With_Correlation_Measurement.t :=
  Heston_Full_Truncation_With_Correlation_Measurement.mk
    (Heston_Full_Truncation_With_Correlation_Measurement.base o)
    (Heston_Full_Truncation_With_Correlation_Measurement.num_paths o)
    (Heston_Full_Truncation_With_Correlation_Measurement.avg_correlation o)
    (Heston_Full_Truncation_With_Correlation_Measurement.log_asset_incr_first_mom o + q * a)
    (Heston_Full_Truncation_With_Correlation_Measurement.log_asset_incr_second_mom o + q * a * a)
    (Heston_Full_Truncation_With_Correlation_Measurement.var_incr_first_mom o + q * b)
    (Heston_Full_Truncation_With_Correlation_Measurement.var_incr_second_mom o + q * b * b)
    (Heston_Full_Truncation_With_Correlation_Measurement.cross_first_mom o + q * a * b).

(** The statistics after one call of [_update_statistics] per increment. *)
Definition fold_moments (q : R) (incs : list (R * R))
    (o : Heston_Full_Truncation_With_Correlation_Measurement.t)
  : Heston_Full_Truncation_With_Correlation_Measurement.t :=
  fold_left (fun o p => add_moments q (fst p) (snd p) o) incs o.

(** ** The diagnostics class in binary64

    The class [Heston_Full_Truncation_With_Correlation_Measurement] once
    more, with the two step methods it inherits from
    [Heston_Full_Truncation], over the [float] of CPython: IEEE 754 binary64,
    every operation rounded to nearest.  The methods are those of the modules
    above, operation for operation.  [math.log] and [math.exp] belong to the
    C library and are taken as arguments. *)

Module Binary64.

Import Floats.
Local Open Scope float_scope.

(** [float(n)], for an [int] below [2^63] in absolute value *)
Definition float_of_int (n : Z) : float :=
  if (n <? 0)%Z then - of_uint63 (Uint63.of_Z (- n)) else of_uint63 (Uint63.of_Z n).

(** The fields that [Heston.__init__] sets *)
Record params : Type := mkParams {
  mu : float;
  kappa : float;
  theta : float;
  omega : float;
  rho : float;
  initial_variance : float
}.

Record t : Type := mk {
  base : params;
  num_paths : Z;
  avg_correlation : float;
  log_asset_incr_first_mom : float;
  log_asset_incr_second_mom : float;
  var_incr_first_mom : float;
  var_incr_second_mom : float;
  cross_first_mom : float
}.

Record world : Type := mkWorld {
  self : t;
  randn_stream : nat -> float;
  drawn : nat
}.

Definition M (A : Type) : Type := world -> result A * world.

Definition ret {A : Type} (a : A) : M A := fun w => (Ok a, w).

Definition raise {A : Type} (e : exn) : M A := fun w => (Raise e, w).

Definition bind {A B : Type} (m : M A) (k : A -> M B) : M B :=
  fun w =>
    match m w with
    | (Ok a, w') => k a w'
    | (Raise e, w') => (Raise e, w')
    end.

Declare Scope py64_scope.
Notation "x <- m ;; k" := (bind m (fun x => k))
  (at level 61, m at next level, right associativity) : py64_scope.
Notation "m ;;; k" := (bind m (fun _ => k))
  (at level 61, right associativity) : py64_scope.
Local Open Scope py64_scope.

Definition getattr {A : Type} (f : t -> A) : M A :=
  fun w => (Ok (f (self w)), w).

Definition setattr (upd : t -> t) : M unit :=
  fun w => (Ok tt, mkWorld (upd (self w)) (randn_stream w) (drawn w)).

Definition sc_randn : M float :=
  fun w => (Ok (randn_stream w (drawn w)),
            mkWorld (self w) (randn_stream w) (S (drawn w))).

Fixpoint for_range {St : Type} (n : nat) (body : St -> M St) (s : St) : M St :=
  match n with
  | 0%nat => ret s
  | S n' => s' <- body s ;; for_range n' body s'
  end.

Definition math_sqrt (x : float) : M float :=
  if x <? 0 then raise ValueError else ret (sqrt x).

Definition math_log (libm_log : float -> float) (x : float) : M float :=
  if x <=? 0 then raise ValueError else ret (libm_log x).

Definition math_exp (libm_exp : float -> float) (x : float) : M float :=
  ret (libm_exp x).

Definition truediv (a b : float) : M float :=
  if b =? 0 then raise ZeroDivisionError else ret (a / b).

Definition py_max (a b : float) : float := if a <? b then b else a.

Definition set_num_paths (v : Z) (o : t) : t :=
  mk (base o) v (avg_correlation o) (log_asset_incr_first_mom o)
     (log_asset_incr_second_mom o) (var_incr_first_mom o) (var_incr_second_mom o)
     (cross_first_mom o).

Definition set_avg_correlation (v : float) (o : t) : t :=
  mk (base o) (num_paths o) v (log_asset_incr_first_mom o)
     (log_asset_incr_second_mom o) (var_incr_first_mom o) (var_incr_second_mom o)
     (cross_first_mom o).

Definition set_log_asset_incr_first_mom (v : float) (o : t) : t :=
  mk (base o) (num_paths o) (avg_correlation o) v
     (log_asset_incr_second_mom o) (var_incr_first_mom o) (var_incr_second_mom o)
     (cross_first_mom o).

Definition set_log_asset_incr_second_mom (v : float) (o : t) : t :=
  mk (base o) (num_paths o) (avg_correlation o) (log_asset_incr_first_mom o)
     v (var_incr_first_mom o) (var_incr_second_mom o) (cross_first_mom o).

Definition set_var_incr_first_mom (v : float) (o : t) : t :=
  mk (base o) (num_paths o) (avg_correlation o) (log_asset_incr_first_mom o)
     (log_asset_incr_second_mom o) v (var_incr_second_mom o) (cross_first_mom o).

Definition set_var_incr_second_mom (v : float) (o : t) : t :=
  mk (base o) (num_paths o) (avg_correlation o) (log_asset_incr_first_mom o)
     (log_asset_incr_second_mom o) (var_incr_first_mom o) v (cross_first_mom o).

Definition set_cross_first_mom (v : float) (o : t) : t :=
  mk (base o) (num_paths o) (avg_correlation o) (log_asset_incr_first_mom o)
     (log_asset_incr_second_mom o) (var_incr_first_mom o) (var_incr_second_mom o) v.

(** [Heston_Full_Truncation._simulate_variance_next_step] *)
Definition _simulate_variance_next_step (var_prev dt randn : float) : M float :=
  let var_prev_adjusted := py_max var_prev 0 in
  this <- getattr base ;;
  let tmp := kappa this * dt in
  root <- math_sqrt (var_prev_adjusted * dt) ;;
  let variance := var_prev - tmp * (var_prev_adjusted - theta this)
                  + omega this * root * randn in
  ret variance.

(** [Heston_Full_Truncation._simulate_log_asset_next_step] *)
Definition _simulate_log_asset_next_step (log_asset_prev var_prev dt randn : float)
  : M float :=
  let var_prev_adjusted := py_max var_prev 0 in
  this <- getattr base ;;
  root <- math_sqrt (var_prev_adjusted * dt) ;;
  let increment := (mu this - 0.5 * var_prev_adjusted) * dt + root * randn in
  ret (log_asset_prev + increment).

Definition _clear_statistics : M unit :=
  setattr (set_log_asset_incr_first_mom 0) ;;;
  setattr (set_log_asset_incr_second_mom 0) ;;;
  setattr (set_var_incr_first_mom 0) ;;;
  setattr (set_var_incr_second_mom 0) ;;;
  setattr (set_cross_first_mom 0).

Definition __init__ (mu kappa theta omega rho initial_variance : float) : result t :=
  Ok (mk (mkParams mu kappa theta omega rho initial_variance) 0 0 0 0 0 0 0).

Definition _update_statistics (asset_incr var_incr : float) (num_steps : Z) : M unit :=
  m <- getattr log_asset_incr_first_mom ;;
  q <- truediv 1 (float_of_int num_steps) ;;
  setattr (set_log_asset_incr_first_mom (m + q * asset_incr)) ;;;
  m <- getattr log_asset_incr_second_mom ;;
  q <- truediv 1 (float_of_int num_steps) ;;
  setattr (set_log_asset_incr_second_mom (m + q * asset_incr * asset_incr)) ;;;
  m <- getattr var_incr_first_mom ;;
  q <- truediv 1 (float_of_int num_steps) ;;
  setattr (set_var_incr_first_mom (m + q * var_incr)) ;;;
  m <- getattr var_incr_second_mom ;;
  q <- truediv 1 (float_of_int num_steps) ;;
  setattr (set_var_incr_second_mom (m + q * var_incr * var_incr)) ;;;
  m <- getattr cross_first_mom ;;
  q <- truediv 1 (float_of_int num_steps) ;;
  setattr (set_cross_first_mom (m + q * asset_incr * var_incr)).

Definition _calculate_correlation : M float :=
  n <- getattr num_paths ;;
  setattr (set_num_paths (n + 1)) ;;;
  o <- getattr (fun o => o) ;;
  asset_incr_stdev <- math_sqrt (log_asset_incr_second_mom o
                                 - log_asset_incr_first_mom o * log_asset_incr_first_mom o) ;;
  var_incr_stdev <- math_sqrt (var_incr_second_mom o
                               - var_incr_first_mom o * var_incr_first_mom o) ;;
  let cov := cross_first_mom o - log_asset_incr_first_mom o * var_incr_first_mom o in
  truediv cov (asset_incr_stdev * var_incr_stdev).

Record locals : Type := mkLocals {
  var_prev : float;
  log_asset_prev : float;
  log_asset_next : option float
}.

Definition loop_body (dt : float) (num_steps : Z) (l : locals) : M locals :=
  randn_vol <- sc_randn ;;
  this <- getattr base ;;
  root <- math_sqrt (1 - rho this * rho this) ;;
  z <- sc_randn ;;
  let randn_spot := rho this * randn_vol + root * z in
  var_next <- _simulate_variance_next_step (var_prev l) dt randn_vol ;;
  log_asset_next <- _simulate_log_asset_next_step (log_asset_prev l) (var_prev l) dt
                      randn_spot ;;
  _update_statistics (log_asset_next - log_asset_prev l) (var_next - var_prev l)
                     num_steps ;;;
  ret (mkLocals var_next log_asset_next (Some log_asset_next)).

Definition simulate_stock (libm_log libm_exp : float -> float)
    (spot maturity : float) (num_steps : Z) : M float :=
  _clear_statistics ;;;
  dt <- truediv maturity (float_of_int num_steps) ;;
  this <- getattr base ;;
  log_asset_0 <- math_log libm_log spot ;;
  l <- for_range (Z.to_nat num_steps) (loop_body dt num_steps)
         (mkLocals (initial_variance this) log_asset_0 None) ;;
  corr <- _calculate_correlation ;;
  avg <- getattr avg_correlation ;;
  n <- getattr num_paths ;;
  avg' <- truediv (avg * float_of_int (n - 1) + corr) (float_of_int n) ;;
  setattr (set_avg_correlation avg') ;;;
  match log_asset_next l with
  | Some log_asset => math_exp libm_exp log_asset
  | None => raise UnboundLocalError
  end.

(** *** Example objects *)

(** [math.log] and [math.exp] at the arguments the binary64 examples pass
    to them: [math.log(1.0)] is [0.0] and [math.exp(0.0)] is [1.0]. *)
Definition log_table (x : float) : float := if (x =? 1) then 0 else nan.
Definition exp_table (x : float) : float := if (x =? 0) then 1 else nan.

(** Binary64 draws: all zero, and [0.5, -1.25, -1.25, ...]. *)
Definition zero_draws64 : nat -> float := fun _ => 0.
Definition some_draws64 : nat -> float :=
  fun n => match n with 0%nat => 0.5 | _ => (-1.25) end.

(** A fresh diagnostics object with
    [mu=0.05, kappa=0.0, omega=0.0, rho=0.0, theta=0.0, initial_variance=0.0];
    [0x1.999999999999ap-5] is the binary64 value of the literal [0.05]. *)
Definition degenerate_diagnostics64 : t :=
  mk (mkParams 0x1.999999999999ap-5 0 0 0 0 0) 0 0 0 0 0 0 0.

(** A fresh diagnostics object with the notebook's parameters; the literals
    [0.05], [0.09] and [-0.3] are written as their binary64 values. *)
Definition notebook_diagnostics64 : t :=
  mk
    (mkParams 0x1.999999999999ap-5 2 0x1.70a3d70a3d70ap-4 1
       (-0x1.3333333333333p-2) 0x1.70a3d70a3d70ap-4) 0 0 0 0 0 0 0.

(** The argument of the first [math.sqrt] of [_calculate_correlation]:
    [self.log_asset_incr_second_mom
     - self.log_asset_incr_first_mom * self.log_asset_incr_first_mom] *)
Definition asset_incr_radicand (o : t) : float :=
  log_asset_incr_second_mom o - log_asset_incr_first_mom o * log_asset_incr_first_mom o.

(** [simulate_stock(1.0, 5.0, 5)] on the degenerate object, zero draws *)
Definition degenerate_run : result float * world :=
  simulate_stock log_table exp_table 1 5 5
    (mkWorld degenerate_diagnostics64 zero_draws64 0).

(** [simulate_stock(1.0, 5.0, 1)] on the notebook's object *)
Definition single_step_run : result float * world :=
  simulate_stock log_table exp_table 1 5 1
    (mkWorld notebook_diagnostics64 some_draws64 0).

End Binary64.

(** ** Example objects *)

(** A stream of draws that are all zero. *)
Definition zero_draws : nat -> R := fun _ => 0.

(** [mu=0.05, kappa=2.0, omega=1.0, rho=-0.3, theta=0.09, initial_variance=0.09] *)
Definition notebook_params : Heston.t :=
  Heston.mk (5 / 100) 2 (9 / 100) 1 (-3 / 10) (9 / 100).

(** The same with [omega=0.0] and [initial_variance=0.2]. *)
Definition zero_omega_params : Heston.t :=
  Heston.mk (5 / 100) 2 (9 / 100) 0 (-3 / 10) (2 / 10).

(** The same with [rho=2.0], outside [-1, 1]. *)
Definition bad_rho_params : Heston.t :=
  Heston.mk (5 / 100) 2 (9 / 100) 1 2 (9 / 100).

(** [heston_special_case]:
    [mu=0.0, kappa=0.0, omega=0.0, rho=0.0, theta=0.0, initial_variance=0.2*0.2] *)
Definition heston_special_case : Heston.t :=
  Heston.mk 0 0 0 0 0 (2 / 10 * (2 / 10)).

(** [mu=0.0, kappa=1.0, omega=0.0, rho=0.0, theta=0.0, initial_variance=1.0] *)
Definition decaying_params : Heston.t := Heston.mk 0 1 0 0 0 1.

(** A freshly constructed diagnostics object. *)
Definition fresh_diagnostics (h : Heston.t)
  : Heston_Full_Truncation_With_Correlation_Measurement.t :=
  Heston_Full_Truncation_With_Correlation_Measurement.mk h 0 0 0 0 0 0 0.

(** The counter never goes down from one world to the next. *)
Definition counter_le (w w' : world Heston_Absorption.t) : Prop :=
  (Heston_Absorption.number_of_negative_variances (self w)
   <= Heston_Absorption.number_of_negative_variances (self w'))%Z.

Definition counter_monotone {A : Type} (m : M Heston_Absorption.t A) : Prop :=
  forall w, counter_le w (snd (m w)).

(** The counter goes up by at most [k] along a computation, and never down. *)
Definition counter_gain {A : Type} (k : Z) (m : M Heston_Absorption.t A) : Prop :=
  forall w,
    (Heston_Absorption.number_of_negative_variances (self w)
     <= Heston_Absorption.number_of_negative_variances (self (snd (m w)))
     <= Heston_Absorption.number_of_negative_variances (self w) + k)%Z.

(** Cross moment minus the product of the first moments, weighted by [q]:
    the covariance that [_calculate_correlation] divides. *)
Definition sample_covariance (q : R) (incs : list (R * R)) : R :=
  q * sum_list (map (fun p => fst p * snd p) incs)
  - (q * sum_list (map fst incs)) * (q * sum_list (map snd incs)).

(** The draws [stream d], ..., [stream (d + n - 1)]. *)
Definition draws_from (stream : nat -> R) (d n : nat) : list R := map stream (seq d n).

(** [bs = BlackScholes(0.0, 0.2)] *)
Definition notebook_bs : BlackScholes.t := BlackScholes.mk 0 (2 / 10).

(** Short names for the classes. *)
Module Abs := Heston_Absorption.
Module FT := Heston_Full_Truncation.
Module Diag := Heston_Full_Truncation_With_Correlation_Measurement.

(** ** Running the primitives *)

Lemma py_max_0 (x : R) : py_max x 0 = Rmax x 0.
Proof.
  unfold py_max, Rmax.
  destruct (Rlt_dec x 0), (Rle_dec x 0); lra.
Qed.

Lemma py_max_0_nonneg (x : R) : 0 <= py_max x 0.
Proof. unfold py_max. destruct (Rlt_dec x 0); lra. Qed.

Lemma py_max_0_of_nonneg (x : R) : 0 <= x -> py_max x 0 = x.
Proof. intros Hx. unfold py_max. destruct (Rlt_dec x 0); lra. Qed.

Lemma py_max_0_of_nonpos (x : R) : x <= 0 -> py_max x 0 = 0.
Proof. intros Hx. unfold py_max. destruct (Rlt_dec x 0); lra. Qed.

Section Primitives.
Context {O : Type}.
Implicit Type w : world O.

Lemma math_sqrt_ok x w : 0 <= x -> math_sqrt x w = (Ok (sqrt x), w).
Proof. intros Hx. unfold math_sqrt. destruct (Rlt_dec x 0); [lra | reflexivity]. Qed.

Lemma math_sqrt_raise x w : x < 0 -> math_sqrt x w = (Raise ValueError, w).
Proof. intros Hx. unfold math_sqrt. destruct (Rlt_dec x 0); [reflexivity | lra]. Qed.

Lemma math_log_ok x w : 0 < x -> math_log x w = (Ok (ln x), w).
Proof. intros Hx. unfold math_log. destruct (Rle_dec x 0); [lra | reflexivity]. Qed.

Lemma truediv_ok a b w : b <> 0 -> truediv a b w = (Ok (a / b), w).
Proof. intros Hb. unfold truediv. destruct (Req_EM_T b 0); [contradiction | reflexivity]. Qed.

Lemma truediv_raise a b w : b = 0 -> truediv a b w = (Raise ZeroDivisionError, w).
Proof. intros Hb. unfold truediv. destruct (Req_EM_T b 0); [reflexivity | contradiction]. Qed.

Lemma bind_ok {A B} (m : M O A) (k : A -> M O B) w a w' :
  m w = (Ok a, w') -> bind m k w = k a w'.
Proof. intros E. unfold bind. rewrite E. reflexivity. Qed.

Lemma bind_raise {A B} (m : M O A) (k : A -> M O B) w e w' :
  m w = (Raise e, w') -> bind m k w = (Raise e, w').
Proof. intros E. unfold bind. rewrite E. reflexivity. Qed.

End Primitives.

(** ** The per-step transitions *)

Section Steps.
Context {O : Type} `{Heston.Fields O}.
Implicit Type w : world O.

Lemma naive_variance_ok var_prev dt randn w :
  0 <= var_prev * dt ->
  Heston._simulate_variance_next_step var_prev dt randn w =
  (Ok ((1 - Heston.kappa (Heston.fields (self w)) * dt) * var_prev
       + Heston.kappa (Heston.fields (self w)) * dt * Heston.theta (Heston.fields (self w))
       + Heston.omega (Heston.fields (self w)) * sqrt (var_prev * dt) * randn), w).
Proof.
  intros Hx. unfold Heston._simulate_variance_next_step, bind, getattr.
  rewrite math_sqrt_ok by assumption. reflexivity.
Qed.

Lemma naive_variance_raise var_prev dt randn w :
  var_prev * dt < 0 ->
  Heston._simulate_variance_next_step var_prev dt randn w = (Raise ValueError, w).
Proof.
  intros Hx. unfold Heston._simulate_variance_next_step, bind, getattr.
  rewrite math_sqrt_raise by assumption. reflexivity.
Qed.

Lemma naive_log_asset_ok log_asset_prev var_prev dt randn w :
  0 <= var_prev * dt ->
  Heston._simulate_log_asset_next_step log_asset_prev var_prev dt randn w =
  (Ok (log_asset_prev + ((Heston.mu (Heston.fields (self w)) - 0.5 * var_prev) * dt
                         + sqrt (var_prev * dt) * randn)), w).
Proof.
  intros Hx. unfold Heston._simulate_log_asset_next_step, bind, getattr.
  rewrite math_sqrt_ok by assumption. reflexivity.
Qed.

Lemma naive_log_asset_raise log_asset_prev var_prev dt randn w :
  var_prev * dt < 0 ->
  Heston._simulate_log_asset_next_step log_asset_prev var_prev dt randn w
  = (Raise ValueError, w).
Proof.
  intros Hx. unfold Heston._simulate_log_asset_next_step, bind, getattr.
  rewrite math_sqrt_raise by assumption. reflexivity.
Qed.

Lemma full_truncation_variance_ok var_prev dt randn w :
  0 <= Rmax var_prev 0 * dt ->
  Heston_Full_Truncation._simulate_variance_next_step var_prev dt randn w =
  (Ok (var_prev
       - Heston.kappa (Heston.fields (self w)) * dt
         * (Rmax var_prev 0 - Heston.theta (Heston.fields (self w)))
       + Heston.omega (Heston.fields (self w)) * sqrt (Rmax var_prev 0 * dt) * randn), w).
Proof.
  intros Hx. unfold Heston_Full_Truncation._simulate_variance_next_step, bind, getattr.
  rewrite py_max_0. rewrite math_sqrt_ok by assumption. reflexivity.
Qed.

Lemma full_truncation_variance_raise var_prev dt randn w :
  Rmax var_prev 0 * dt < 0 ->
  Heston_Full_Truncation._simulate_variance_next_step var_prev dt randn w
  = (Raise ValueError, w).
Proof.
  intros Hx. unfold Heston_Full_Truncation._simulate_variance_next_step, bind, getattr.
  rewrite py_max_0. rewrite math_sqrt_raise by assumption. reflexivity.
Qed.

Lemma full_truncation_log_asset_ok log_asset_prev var_prev dt randn w :
  0 <= Rmax var_prev 0 * dt ->
  Heston_Full_Truncation._simulate_log_asset_next_step log_asset_prev var_prev dt randn w =
  (Ok (log_asset_prev
       + ((Heston.mu (Heston.fields (self w)) - 0.5 * Rmax var_prev 0) * dt
          + sqrt (Rmax var_prev 0 * dt) * randn)), w).
Proof.
  intros Hx. unfold Heston_Full_Truncation._simulate_log_asset_next_step, bind, getattr.
  rewrite py_max_0. rewrite math_sqrt_ok by assumption. reflexivity.
Qed.

Lemma Rmax_0_mult_nonneg (x dt : R) : 0 <= dt -> 0 <= Rmax x 0 * dt.
Proof.
  intros Hdt. apply Rmult_le_pos; [apply Rmax_r | assumption].
Qed.

End Steps.

(** ** The absorption step and its counter *)

Lemma absorption_variance_pos var_prev dt randn (w : world Abs.t) :
  0 < var_prev -> 0 <= dt ->
  Abs._simulate_variance_next_step var_prev dt randn w =
  (Ok (Rmax ((1 - Heston.kappa (Abs.base (self w)) * dt) * var_prev
             + Heston.kappa (Abs.base (self w)) * dt * Heston.theta (Abs.base (self w))
             + Heston.omega (Abs.base (self w)) * sqrt (var_prev * dt) * randn) 0),
   mkWorld (Abs.mk (Abs.base (self w)) (Abs.number_of_negative_variances (self w) + 1))
           (randn_stream w) (drawn w)).
Proof.
  intros Hv Hdt. unfold Abs._simulate_variance_next_step.
  destruct (Rgt_dec var_prev 0) as [_ | Hn]; [| exfalso; apply Hn; lra].
  rewrite (py_max_0_of_nonneg var_prev) by lra.
  unfold bind, getattr, setattr. cbn [self randn_stream drawn].
  rewrite math_sqrt_ok by nra. unfold ret. rewrite py_max_0. reflexivity.
Qed.

Lemma absorption_variance_nonpos var_prev dt randn (w : world Abs.t) :
  var_prev <= 0 ->
  Abs._simulate_variance_next_step var_prev dt randn w =
  (Ok (Rmax (Heston.kappa (Abs.base (self w)) * dt * Heston.theta (Abs.base (self w))) 0), w).
Proof.
  intros Hv. unfold Abs._simulate_variance_next_step.
  destruct (Rgt_dec var_prev 0) as [Hp | _]; [exfalso; lra |].
  rewrite (py_max_0_of_nonpos var_prev) by lra.
  unfold bind, getattr, ret.
  rewrite math_sqrt_ok by lra. rewrite py_max_0.
  replace (0 * dt) with 0 by ring. rewrite sqrt_0.
  do 2 f_equal. f_equal. unfold Heston.fields, Abs.fields_t. ring.
Qed.

(** What a variance step does to the object, whether it returns or raises:
    the counter goes up by one exactly when the incoming variance is
    positive, and nothing else changes. *)
Lemma absorption_variance_world var_prev dt randn (w : world Abs.t) :
  let w' := snd (Abs._simulate_variance_next_step var_prev dt randn w) in
  Abs.base (self w') = Abs.base (self w) /\
  randn_stream w' = randn_stream w /\
  drawn w' = drawn w /\
  Abs.number_of_negative_variances (self w') =
    (Abs.number_of_negative_variances (self w) + (if Rgt_dec var_prev 0 then 1 else 0))%Z.
Proof.
  unfold Abs._simulate_variance_next_step.
  destruct (Rgt_dec var_prev 0); unfold bind, getattr, setattr, ret, math_sqrt, raise;
    cbn [self randn_stream drawn];
    destruct (Rlt_dec (py_max var_prev 0 * dt) 0); cbn;
    repeat split; lia.
Qed.

Lemma counter_monotone_bind {A B} (m : M Abs.t A) (k : A -> M Abs.t B) :
  counter_monotone m -> (forall a, counter_monotone (k a)) -> counter_monotone (bind m k).
Proof.
  intros Hm Hk w. unfold bind. specialize (Hm w).
  destruct (m w) as [[a | e] w1]; cbn in *.
  - specialize (Hk a w1). unfold counter_le in *. lia.
  - exact Hm.
Qed.

Lemma counter_monotone_pure {A} (m : M Abs.t A) :
  (forall w, self (snd (m w)) = self w) -> counter_monotone m.
Proof. intros E w. unfold counter_le. rewrite E. lia. Qed.

Lemma counter_monotone_for_range {S} (body : S -> M Abs.t S) n :
  (forall s, counter_monotone (body s)) -> forall s, counter_monotone (for_range n body s).
Proof.
  intros Hb. induction n as [| n IH]; intros s; cbn [for_range].
  - apply counter_monotone_pure. reflexivity.
  - apply counter_monotone_bind; [apply Hb | exact IH].
Qed.

Lemma counter_monotone_variance_step var_prev dt randn :
  counter_monotone (Abs._simulate_variance_next_step var_prev dt randn).
Proof.
  intros w. unfold counter_le.
  destruct (absorption_variance_world var_prev dt randn w) as (_ & _ & _ & E).
  rewrite E. destruct (Rgt_dec var_prev 0); lia.
Qed.

Ltac pure_step :=
  apply counter_monotone_pure; intros w;
  unfold math_sqrt, math_log, math_exp, truediv, getattr, sc_randn, ret, raise;
  repeat match goal with
         | |- context [Rlt_dec ?a ?b] => destruct (Rlt_dec a b)
         | |- context [Rle_dec ?a ?b] => destruct (Rle_dec a b)
         | |- context [Req_EM_T ?a ?b] => destruct (Req_EM_T a b)
         end; reflexivity.

Lemma counter_monotone_simulate_stock spot maturity num_steps :
  counter_monotone (Abs.simulate_stock spot maturity num_steps).
Proof.
  unfold Abs.simulate_stock, Heston.simulate_stock.
  apply counter_monotone_bind; [pure_step | intros dt].
  apply counter_monotone_bind; [pure_step | intros this].
  apply counter_monotone_bind; [pure_step | intros l0].
  apply counter_monotone_bind.
  - apply counter_monotone_for_range. intros l. unfold Heston.loop_body.
    apply counter_monotone_bind; [pure_step | intros z1].
    apply counter_monotone_bind; [pure_step | intros this'].
    apply counter_monotone_bind; [pure_step | intros root].
    apply counter_monotone_bind; [pure_step | intros z2].
    apply counter_monotone_bind; [apply counter_monotone_variance_step | intros v].
    apply counter_monotone_bind; [| intros la; pure_step].
    cbn [Heston.log_asset_next_step Abs.scheme].
    unfold Heston._simulate_log_asset_next_step.
    apply counter_monotone_bind; [pure_step | intros this''].
    apply counter_monotone_bind; [pure_step | intros r; pure_step].
  - intros l. destruct (Heston.log_asset_next l); pure_step.
Qed.
Lemma absorption_loop_body_ok dt l (w : world Abs.t) :
  Heston.rho (Abs.base (self w)) * Heston.rho (Abs.base (self w)) <= 1 ->
  0 <= dt -> 0 <= Heston.var_prev l ->
  exists l' w',
    Heston.loop_body (Scheme0 := Abs.scheme) dt l w = (Ok l', w') /\
    0 <= Heston.var_prev l' /\
    Heston.log_asset_next l' <> None /\
    Abs.base (self w') = Abs.base (self w).
Proof.
  intros Hrho Hdt Hv. unfold Heston.loop_body.
  unfold bind at 1. cbn [sc_randn].
  unfold bind at 1. cbn [getattr self].
  unfold bind at 1. unfold Heston.fields at 1 2, Abs.fields_t.
  rewrite math_sqrt_ok by lra.
  unfold bind at 1. cbn [sc_randn self randn_stream drawn].
  unfold bind at 1. cbn [Heston.variance_next_step Abs.scheme].
  destruct (Rle_lt_or_eq_dec 0 _ Hv) as [Hpos | Hzero].
  - rewrite absorption_variance_pos by assumption. cbn [self randn_stream drawn Abs.base].
    unfold bind at 1. cbn [Heston.log_asset_next_step Abs.scheme].
    rewrite naive_log_asset_ok by nra. unfold ret.
    eexists _, _. split; [reflexivity |]. cbn.
    split; [apply Rmax_r |]. split; [discriminate | reflexivity].
  - rewrite absorption_variance_nonpos by lra. cbn [self randn_stream drawn Abs.base].
    unfold bind at 1. cbn [Heston.log_asset_next_step Abs.scheme].
    rewrite naive_log_asset_ok by nra. unfold ret.
    eexists _, _. split; [reflexivity |]. cbn.
    split; [apply Rmax_r |]. split; [discriminate | reflexivity].
Qed.

Lemma absorption_loop_ok dt n : forall l (w : world Abs.t),
  Heston.rho (Abs.base (self w)) * Heston.rho (Abs.base (self w)) <= 1 ->
  0 <= dt -> 0 <= Heston.var_prev l ->
  exists l' w',
    for_range n (Heston.loop_body (Scheme0 := Abs.scheme) dt) l w = (Ok l', w') /\
    0 <= Heston.var_prev l' /\
    (n <> O \/ Heston.log_asset_next l <> None -> Heston.log_asset_next l' <> None) /\
    Abs.base (self w') = Abs.base (self w).
Proof.
  induction n as [| n IH]; intros l w Hrho Hdt Hv; cbn [for_range].
  - exists l, w. unfold ret. repeat split; try assumption. intros [H | H]; [congruence | exact H].
  - destruct (absorption_loop_body_ok dt l w Hrho Hdt Hv) as (l1 & w1 & E1 & Hv1 & Hn1 & Hb1).
    rewrite (bind_ok _ _ _ _ _ E1).
    destruct (IH l1 w1) as (l2 & w2 & E2 & Hv2 & Hn2 & Hb2); try assumption.
    { rewrite Hb1. exact Hrho. }
    exists l2, w2. repeat split; try assumption.
    + intros _. apply Hn2. right. exact Hn1.
    + rewrite Hb2. exact Hb1.
Qed.

Lemma IZR_pos_of_ge_1 (n : Z) : (1 <= n)%Z -> 0 < IZR n.
Proof. intros Hn. apply IZR_lt. lia. Qed.

Lemma step_size_nonneg (maturity : R) (n : Z) : 0 <= maturity -> (1 <= n)%Z -> 0 <= maturity / IZR n.
Proof.
  intros Hm Hn. apply Rmult_le_pos; [assumption |].
  left. apply Rinv_0_lt_compat. apply IZR_pos_of_ge_1. assumption.
Qed.

Lemma absorption_simulate_stock_ok spot maturity num_steps (w : world Abs.t) :
  Heston.rho (Abs.base (self w)) * Heston.rho (Abs.base (self w)) <= 1 ->
  0 <= Heston.initial_variance (Abs.base (self w)) ->
  0 < spot -> 0 <= maturity -> (1 <= num_steps)%Z ->
  exists v w', Abs.simulate_stock spot maturity num_steps w = (Ok v, w').
Proof.
  intros Hrho Hv0 Hspot Hmat Hn.
  unfold Abs.simulate_stock, Heston.simulate_stock.
  pose proof (IZR_pos_of_ge_1 _ Hn) as HN.
  unfold bind at 1. rewrite truediv_ok by lra.
  unfold bind at 1. cbn [getattr].
  unfold bind at 1. rewrite math_log_ok by assumption.
  destruct (absorption_loop_ok (maturity / IZR num_steps) (Z.to_nat num_steps)
              (Heston.mkLocals (Heston.initial_variance (Heston.fields (self w))) (ln spot) None) w)
    as (l & w' & E & _ & Hsome & _); try assumption.
  { apply step_size_nonneg; assumption. }
  rewrite (bind_ok _ _ _ _ _ E).
  destruct (Heston.log_asset_next l) as [la |].
  - eexists _, _. reflexivity.
  - exfalso. apply Hsome; [left; lia | reflexivity].
Qed.

(** ** The full-truncation loop in closed form *)

Section FullTruncationLoop.
Context {O : Type} `{Heston.Fields O}.

Lemma ft_loop_body_run dt l (o : O) stream d :
  Heston.rho (Heston.fields o) * Heston.rho (Heston.fields o) <= 1 ->
  0 <= dt ->
  Heston.loop_body (Scheme0 := FT.scheme) dt l (mkWorld o stream d) =
  (Ok (ft_step (Heston.fields o) dt (stream d) (stream (S d)) l),
   mkWorld o stream (S (S d))).
Proof.
  intros Hrho Hdt. unfold Heston.loop_body.
  unfold bind at 1. cbn [sc_randn self randn_stream drawn].
  unfold bind at 1. cbn [getattr self].
  unfold bind at 1. rewrite math_sqrt_ok by lra.
  unfold bind at 1. cbn [sc_randn self randn_stream drawn].
  unfold bind at 1. cbn [Heston.variance_next_step FT.scheme].
  rewrite full_truncation_variance_ok by (apply Rmax_0_mult_nonneg; assumption).
  unfold bind at 1. cbn [Heston.log_asset_next_step FT.scheme].
  rewrite full_truncation_log_asset_ok by (apply Rmax_0_mult_nonneg; assumption).
  reflexivity.
Qed.

Lemma ft_trace_run dt (o : O) stream n : forall d l,
  Heston.rho (Heston.fields o) * Heston.rho (Heston.fields o) <= 1 ->
  0 <= dt ->
  trace n (Heston.loop_body (Scheme0 := FT.scheme) dt) l (mkWorld o stream d) =
  (Ok (ft_path (Heston.fields o) dt stream d n l), mkWorld o stream (d + 2 * n)).
Proof.
  induction n as [| n IH]; intros d l Hrho Hdt; cbn [trace ft_path].
  - unfold ret. do 2 f_equal. lia.
  - rewrite (bind_ok _ _ _ _ _ (ft_loop_body_run dt l o stream d Hrho Hdt)).
    rewrite (bind_ok _ _ _ _ _ (IH _ _ Hrho Hdt)).
    unfold ret. do 2 f_equal. lia.
Qed.

Lemma last_default_irrelevant {A} (xs : list A) (a b : A) :
  xs <> [] -> last xs a = last xs b.
Proof.
  induction xs as [| x xs IH]; intros Hne; [congruence |].
  destruct xs as [| y ys]; [reflexivity |].
  cbn [last] in *. apply IH. discriminate.
Qed.

Lemma ft_path_nonempty h dt stream d n l : ft_path h dt stream d n l <> [].
Proof. destruct n; discriminate. Qed.

Lemma ft_loop_run dt (o : O) stream n : forall d l,
  Heston.rho (Heston.fields o) * Heston.rho (Heston.fields o) <= 1 ->
  0 <= dt ->
  for_range n (Heston.loop_body (Scheme0 := FT.scheme) dt) l (mkWorld o stream d) =
  (Ok (last (ft_path (Heston.fields o) dt stream d n l) l), mkWorld o stream (d + 2 * n)).
Proof.
  induction n as [| n IH]; intros d l Hrho Hdt; cbn [for_range ft_path].
  - unfold ret. cbn. do 2 f_equal. lia.
  - rewrite (bind_ok _ _ _ _ _ (ft_loop_body_run dt l o stream d Hrho Hdt)).
    rewrite (IH _ _ Hrho Hdt).
    f_equal.
    + f_equal.
      transitivity (last (ft_path (Heston.fields o) dt stream (S (S d)) n
                            (ft_step (Heston.fields o) dt (stream d) (stream (S d)) l)) l).
      * apply last_default_irrelevant, ft_path_nonempty.
      * destruct n; reflexivity.
    + f_equal. lia.
Qed.

End FullTruncationLoop.

Lemma ft_path_last_bound h dt stream n : forall d l,
  (n <> O \/ Heston.log_asset_next l = Some (Heston.log_asset_prev l)) ->
  Heston.log_asset_next (last (ft_path h dt stream d n l) l)
  = Some (Heston.log_asset_prev (last (ft_path h dt stream d n l) l)).
Proof.
  induction n as [| n IH]; intros d l Hl; cbn [ft_path].
  - cbn. destruct Hl as [Hl | Hl]; [congruence | exact Hl].
  - set (l1 := ft_step h dt (stream d) (stream (S d)) l).
    assert (E : last (l :: ft_path h dt stream (S (S d)) n l1) l
                = last (ft_path h dt stream (S (S d)) n l1) l1).
    { transitivity (last (ft_path h dt stream (S (S d)) n l1) l).
      - destruct n; reflexivity.
      - apply last_default_irrelevant, ft_path_nonempty. }
    rewrite E. apply IH. right. reflexivity.
Qed.

Lemma full_truncation_simulate_stock_run spot maturity num_steps (h : Heston.t) stream d :
  Heston.rho h * Heston.rho h <= 1 ->
  0 < spot -> 0 <= maturity -> (1 <= num_steps)%Z ->
  FT.simulate_stock spot maturity num_steps (mkWorld h stream d) =
  (Ok (exp (Heston.log_asset_prev
              (last (ft_path h (maturity / IZR num_steps) stream d (Z.to_nat num_steps)
                       (Heston.mkLocals (Heston.initial_variance h) (ln spot) None))
                    (Heston.mkLocals (Heston.initial_variance h) (ln spot) None)))),
   mkWorld h stream (d + 2 * Z.to_nat num_steps)).
Proof.
  intros Hrho Hspot Hmat Hn.
  unfold FT.simulate_stock, Heston.simulate_stock.
  pose proof (IZR_pos_of_ge_1 _ Hn) as HN.
  unfold bind at 1. rewrite truediv_ok by lra.
  unfold bind at 1. cbn [getattr self].
  unfold bind at 1. rewrite math_log_ok by assumption.
  unfold bind at 1. unfold Heston.fields at 1, Heston.fields_t.
  rewrite (ft_loop_run (O := Heston.t)) by (try apply step_size_nonneg; assumption).
  unfold Heston.fields, Heston.fields_t.
  rewrite ft_path_last_bound by (left; lia).
  reflexivity.
Qed.

(** ** The diagnostics loop *)

Lemma diag_update_statistics_run a b num_steps (o : Diag.t) stream d :
  IZR num_steps <> 0 ->
  Diag._update_statistics a b num_steps (mkWorld o stream d) =
  (Ok tt, mkWorld (add_moments (1 / IZR num_steps) a b o) stream d).
Proof.
  intros HN. unfold Diag._update_statistics.
  unfold bind, getattr, setattr. cbn [self randn_stream drawn].
  repeat (rewrite truediv_ok by assumption; cbn [self randn_stream drawn]).
  destruct o. reflexivity.
Qed.

Lemma diag_loop_body_run dt num_steps l (o : Diag.t) stream d :
  Heston.rho (Diag.base o) * Heston.rho (Diag.base o) <= 1 ->
  0 <= dt -> IZR num_steps <> 0 ->
  let l' := ft_step (Diag.base o) dt (stream d) (stream (S d)) l in
  Diag.loop_body dt num_steps l (mkWorld o stream d) =
  (Ok l',
   mkWorld (add_moments (1 / IZR num_steps)
              (Heston.log_asset_prev l' - Heston.log_asset_prev l)
              (Heston.var_prev l' - Heston.var_prev l) o)
           stream (S (S d))).
Proof.
  intros Hrho Hdt HN l'. unfold Diag.loop_body.
  unfold bind at 1. cbn [sc_randn self randn_stream drawn].
  unfold bind at 1. cbn [getattr self].
  unfold bind at 1. unfold Heston.fields at 1 2, Diag.fields_t.
  rewrite math_sqrt_ok by lra.
  unfold bind at 1. cbn [sc_randn self randn_stream drawn].
  unfold bind at 1. cbn [Heston.variance_next_step Diag.scheme FT.scheme].
  rewrite full_truncation_variance_ok by (apply Rmax_0_mult_nonneg; assumption).
  unfold bind at 1. cbn [Heston.log_asset_next_step Diag.scheme FT.scheme].
  rewrite full_truncation_log_asset_ok by (apply Rmax_0_mult_nonneg; assumption).
  unfold bind at 1. cbn [self].
  rewrite diag_update_statistics_run by assumption.
  reflexivity.
Qed.

Lemma fold_moments_base q incs : forall o,
  Diag.base (fold_moments q incs o) = Diag.base o.
Proof.
  induction incs as [| p incs IH]; intros o; cbn; [reflexivity |].
  unfold fold_moments in IH. rewrite IH. reflexivity.
Qed.

Lemma diag_loop_run dt num_steps stream n : forall d l (o : Diag.t),
  Heston.rho (Diag.base o) * Heston.rho (Diag.base o) <= 1 ->
  0 <= dt -> IZR num_steps <> 0 ->
  for_range n (Diag.loop_body dt num_steps) l (mkWorld o stream d) =
  (Ok (last (ft_path (Diag.base o) dt stream d n l) l),
   mkWorld (fold_moments (1 / IZR num_steps)
              (increments (ft_path (Diag.base o) dt stream d n l)) o)
           stream (d + 2 * n)).
Proof.
  induction n as [| n IH]; intros d l o Hrho Hdt HN; cbn [for_range ft_path].
  - unfold ret. cbn. do 2 f_equal. lia.
  - rewrite (bind_ok _ _ _ _ _ (diag_loop_body_run dt num_steps l o stream d Hrho Hdt HN)).
    set (l1 := ft_step (Diag.base o) dt (stream d) (stream (S d)) l).
    rewrite IH by assumption.
    cbn [Diag.base add_moments].
    f_equal.
    + f_equal.
      transitivity (last (ft_path (Diag.base o) dt stream (S (S d)) n l1) l).
      * apply last_default_irrelevant, ft_path_nonempty.
      * destruct n; reflexivity.
    + f_equal; [| lia].
      destruct n; reflexivity.
Qed.

Lemma fold_moments_fields q incs : forall o,
  let o' := fold_moments q incs o in
  Diag.num_paths o' = Diag.num_paths o /\
  Diag.avg_correlation o' = Diag.avg_correlation o /\
  Diag.log_asset_incr_first_mom o'
    = Diag.log_asset_incr_first_mom o + q * sum_list (map fst incs) /\
  Diag.log_asset_incr_second_mom o'
    = Diag.log_asset_incr_second_mom o + q * sum_list (map (fun x => x * x) (map fst incs)) /\
  Diag.var_incr_first_mom o'
    = Diag.var_incr_first_mom o + q * sum_list (map snd incs) /\
  Diag.var_incr_second_mom o'
    = Diag.var_incr_second_mom o + q * sum_list (map (fun x => x * x) (map snd incs)) /\
  Diag.cross_first_mom o'
    = Diag.cross_first_mom o + q * sum_list (map (fun p => fst p * snd p) incs).
Proof.
  induction incs as [| [a b] incs IH]; intros o; cbn.
  - repeat split; ring.
  - specialize (IH (add_moments q a b o)). cbn in IH.
    unfold fold_moments in IH.
    destruct IH as (E1 & E2 & E3 & E4 & E5 & E6 & E7).
    rewrite E1, E2, E3, E4, E5, E6, E7. unfold sum_list. cbn.
    repeat split; ring.
Qed.

(** ** Sample moments *)

Lemma sum_list_shifted_squares (m : R) (xs : list R) :
  sum_list (map (fun x => (x - m) * (x - m)) xs)
  = sum_list (map (fun x => x * x) xs) - 2 * m * sum_list xs + INR (length xs) * (m * m).
Proof.
  induction xs as [| x xs IH].
  - cbn. ring.
  - cbn [map sum_list fold_right length]. fold (sum_list xs).
    fold (sum_list (map (fun x => (x - m) * (x - m)) xs)).
    fold (sum_list (map (fun x => x * x) xs)).
    rewrite IH, S_INR. ring.
Qed.

Lemma sum_list_squares_nonneg (m : R) (xs : list R) :
  0 <= sum_list (map (fun x => (x - m) * (x - m)) xs).
Proof.
  induction xs as [| x xs IH].
  - cbn. lra.
  - cbn [map sum_list fold_right]. fold (sum_list (map (fun x => (x - m) * (x - m)) xs)).
    pose proof (Rle_0_sqr (x - m)) as Hsq. unfold Rsqr in Hsq. lra.
Qed.

Lemma sample_variance_shifted (q : R) (xs : list R) :
  q * INR (length xs) = 1 ->
  sample_variance q xs
  = q * sum_list (map (fun x => (x - q * sum_list xs) * (x - q * sum_list xs)) xs).
Proof.
  intros Hq. unfold sample_variance. rewrite sum_list_shifted_squares.
  set (s := sum_list xs) in *. set (s2 := sum_list (map (fun x => x * x) xs)).
  replace (q * (s2 - 2 * (q * s) * s + INR (length xs) * (q * s * (q * s))))
    with (q * s2 - 2 * (q * s) * (q * s) + (q * INR (length xs)) * (q * s * (q * s))) by ring.
  rewrite Hq. ring.
Qed.

Lemma sample_variance_nonneg (q : R) (xs : list R) :
  0 <= q -> q * INR (length xs) = 1 -> 0 <= sample_variance q xs.
Proof.
  intros Hq0 Hq. rewrite sample_variance_shifted by assumption.
  apply Rmult_le_pos; [assumption | apply sum_list_squares_nonneg].
Qed.

Lemma sum_list_constant (c : R) (xs : list R) :
  Forall (fun x => x = c) xs ->
  sum_list xs = INR (length xs) * c /\
  sum_list (map (fun x => x * x) xs) = INR (length xs) * (c * c).
Proof.
  induction 1 as [| x xs Hx Hxs [IH1 IH2]].
  - cbn. split; ring.
  - cbn [map sum_list fold_right length]. fold (sum_list xs).
    fold (sum_list (map (fun x => x * x) xs)).
    rewrite IH1, IH2, S_INR. subst x. split; ring.
Qed.

Lemma sample_variance_all_equal (q : R) (xs : list R) :
  q * INR (length xs) = 1 -> all_equal xs -> sample_variance q xs = 0.
Proof.
  intros Hq [c Hc]. destruct (sum_list_constant c xs Hc) as [E1 E2].
  unfold sample_variance. rewrite E1, E2.
  replace (q * (INR (length xs) * (c * c))) with ((q * INR (length xs)) * (c * c)) by ring.
  replace (q * (INR (length xs) * c)) with ((q * INR (length xs)) * c) by ring.
  rewrite Hq. ring.
Qed.

Lemma single_increment_all_equal (xs : list R) : length xs = 1%nat -> all_equal xs.
Proof.
  destruct xs as [| x [| y xs]]; cbn; intros Hl; try discriminate.
  exists x. constructor; [reflexivity | constructor].
Qed.

Lemma length_increments_ft_path h dt stream n : forall d l,
  length (increments (ft_path h dt stream d n l)) = n.
Proof.
  induction n as [| n IH]; intros d l; [reflexivity |].
  cbn [ft_path]. specialize (IH (S (S d)) (ft_step h dt (stream d) (stream (S d)) l)).
  destruct n; cbn in *; [reflexivity | rewrite IH; reflexivity].
Qed.

Lemma weight_sums_to_one (num_steps : Z) :
  (1 <= num_steps)%Z -> 1 / IZR num_steps * INR (Z.to_nat num_steps) = 1.
Proof.
  intros Hn. rewrite INR_IZR_INZ, Z2Nat.id by lia.
  field. apply not_0_IZR. lia.
Qed.

(** ** The diagnostics run *)

Lemma diag_clear_statistics_run (o : Diag.t) stream d :
  Diag._clear_statistics (mkWorld o stream d) =
  (Ok tt, mkWorld (Diag.mk (Diag.base o) (Diag.num_paths o) (Diag.avg_correlation o)
                     0 0 0 0 0) stream d).
Proof. destruct o. reflexivity. Qed.

Lemma diag_calculate_correlation_run (o : Diag.t) stream d :
  let va := Diag.log_asset_incr_second_mom o
            - Diag.log_asset_incr_first_mom o * Diag.log_asset_incr_first_mom o in
  let vb := Diag.var_incr_second_mom o
            - Diag.var_incr_first_mom o * Diag.var_incr_first_mom o in
  let cov := Diag.cross_first_mom o
             - Diag.log_asset_incr_first_mom o * Diag.var_incr_first_mom o in
  let w' := mkWorld (Diag.set_num_paths (Diag.num_paths o + 1) o) stream d in
  0 <= va -> 0 <= vb ->
  Diag._calculate_correlation (mkWorld o stream d) =
  if Req_EM_T (sqrt va * sqrt vb) 0
  then (Raise ZeroDivisionError, w')
  else (Ok (cov / (sqrt va * sqrt vb)), w').
Proof.
  intros va vb cov w' Hva Hvb. unfold Diag._calculate_correlation.
  unfold bind at 1. cbn [getattr self].
  unfold bind at 1. cbn [setattr self randn_stream drawn].
  unfold bind at 1. cbn [getattr self].
  unfold bind at 1.
  cbn [Diag.set_num_paths Diag.log_asset_incr_first_mom Diag.log_asset_incr_second_mom
       Diag.var_incr_first_mom Diag.var_incr_second_mom Diag.cross_first_mom].
  fold va. rewrite math_sqrt_ok by assumption.
  unfold bind at 1. fold vb. rewrite math_sqrt_ok by assumption.
  fold cov. unfold truediv.
  destruct (Req_EM_T (sqrt va * sqrt vb) 0); reflexivity.
Qed.

Lemma diag_simulate_stock_run spot maturity num_steps (o : Diag.t) stream d :
  Heston.rho (Diag.base o) * Heston.rho (Diag.base o) <= 1 ->
  0 < spot -> 0 <= maturity -> (1 <= num_steps)%Z ->
  let l0 := Heston.mkLocals (Heston.initial_variance (Diag.base o)) (ln spot) None in
  let path := ft_path (Diag.base o) (maturity / IZR num_steps) stream d
                (Z.to_nat num_steps) l0 in
  let q := 1 / IZR num_steps in
  let sa := sample_variance q (map fst (increments path)) in
  let sb := sample_variance q (map snd (increments path)) in
  0 <= sa /\ 0 <= sb /\
  exists wd',
    drawn wd' = (d + 2 * Z.to_nat num_steps)%nat /\
    Diag.simulate_stock spot maturity num_steps (mkWorld o stream d) =
    (if Req_EM_T (sqrt sa * sqrt sb) 0
     then Raise ZeroDivisionError
     else if Z.eq_dec (Diag.num_paths o + 1) 0
          then Raise ZeroDivisionError
          else Ok (exp (Heston.log_asset_prev (last path l0))), wd').
Proof.
  intros Hrho Hspot Hmat Hn l0 path q sa sb.
  pose proof (IZR_pos_of_ge_1 _ Hn) as HN.
  assert (Hq0 : 0 <= q).
  { unfold q. apply Rmult_le_pos; [lra | left; apply Rinv_0_lt_compat; exact HN]. }
  assert (Hlen : q * INR (length (increments path)) = 1).
  { unfold path. rewrite length_increments_ft_path. apply weight_sums_to_one. exact Hn. }
  assert (Hsa : 0 <= sa).
  { apply sample_variance_nonneg; [exact Hq0 | rewrite length_map; exact Hlen]. }
  assert (Hsb : 0 <= sb).
  { apply sample_variance_nonneg; [exact Hq0 | rewrite length_map; exact Hlen]. }
  split; [exact Hsa |]. split; [exact Hsb |].
  unfold Diag.simulate_stock.
  unfold bind at 1. rewrite diag_clear_statistics_run.
  unfold bind at 1. rewrite truediv_ok by lra.
  unfold bind at 1. cbn [getattr self].
  unfold bind at 1. rewrite math_log_ok by assumption.
  unfold bind at 1. unfold Heston.fields at 1, Diag.fields_t. cbn [Diag.base].
  rewrite diag_loop_run by (cbn [Diag.base]; try apply step_size_nonneg; try lra; assumption).
  cbn [Diag.base]. fold l0. fold path. fold q.
  set (o0 := Diag.mk (Diag.base o) (Diag.num_paths o) (Diag.avg_correlation o) 0 0 0 0 0).
  destruct (fold_moments_fields q (increments path) o0) as (E1 & E2 & E3 & E4 & E5 & E6 & E7).
  cbn [o0 Diag.num_paths Diag.avg_correlation Diag.log_asset_incr_first_mom
       Diag.log_asset_incr_second_mom Diag.var_incr_first_mom Diag.var_incr_second_mom
       Diag.cross_first_mom] in E1, E2, E3, E4, E5, E6, E7.
  set (o1 := fold_moments q (increments path) o0) in *.
  pose proof (diag_calculate_correlation_run o1 stream (d + 2 * Z.to_nat num_steps)) as Hc.
  cbv zeta in Hc. rewrite E3, E4, E5, E6 in Hc.
  replace (0 + q * sum_list (map (fun x => x * x) (map fst (increments path)))
           - (0 + q * sum_list (map fst (increments path)))
             * (0 + q * sum_list (map fst (increments path))))
    with sa in Hc by (unfold sa, sample_variance; ring).
  replace (0 + q * sum_list (map (fun x => x * x) (map snd (increments path)))
           - (0 + q * sum_list (map snd (increments path)))
             * (0 + q * sum_list (map snd (increments path))))
    with sb in Hc by (unfold sb, sample_variance; ring).
  specialize (Hc Hsa Hsb).
  unfold bind at 1. rewrite Hc.
  destruct (Req_EM_T (sqrt sa * sqrt sb) 0) as [Hz | Hnz].
  - eexists. split; [| reflexivity]. reflexivity.
  - unfold bind at 1. cbn [getattr self].
    unfold bind at 1. cbn [getattr self Diag.set_num_paths Diag.num_paths].
    unfold bind at 1. rewrite E1.
    destruct (Z.eq_dec (Diag.num_paths o + 1) 0) as [Hp | Hp].
    { rewrite truediv_raise by (rewrite Hp; reflexivity).
      eexists. split; [| reflexivity]. reflexivity. }
    rewrite truediv_ok by (apply not_0_IZR; exact Hp).
    unfold bind at 1. cbn [setattr self randn_stream drawn].
    assert (Hl : Heston.log_asset_next (last path l0)
                 = Some (Heston.log_asset_prev (last path l0))).
    { apply ft_path_last_bound. left. lia. }
    rewrite Hl. unfold math_exp, ret.
    eexists. split; [| reflexivity]. reflexivity.
Qed.

(** With zero mean reversion and zero vol-of-vol the variance never moves. *)
Lemma ft_path_constant_variance h dt stream n : forall d l,
  Heston.kappa h = 0 -> Heston.omega h = 0 ->
  Forall (fun x => x = 0) (map snd (increments (ft_path h dt stream d n l))).
Proof.
  induction n as [| n IH]; intros d l Hk Ho; cbn [ft_path].
  - constructor.
  - specialize (IH (S (S d)) (ft_step h dt (stream d) (stream (S d)) l) Hk Ho).
    destruct n as [| n].
    + cbn. constructor; [| constructor]. rewrite Hk, Ho. ring.
    + cbn [ft_path] in *. cbn [increments map snd]. constructor; [| exact IH].
      cbn. rewrite Hk, Ho. ring.
Qed.

(** ** Out-of-range correlation surfaces in the first pass of the loop *)

Lemma heston_simulate_stock_rho_out_of_range
    {O : Type} `{Heston.Fields O} `{!Heston.Scheme O}
    spot maturity num_steps (w : world O) :
  1 < Heston.rho (Heston.fields (self w)) * Heston.rho (Heston.fields (self w)) ->
  0 < spot -> (1 <= num_steps)%Z ->
  Heston.simulate_stock spot maturity num_steps w =
  (Raise ValueError, mkWorld (self w) (randn_stream w) (S (drawn w))).
Proof.
  intros Hrho Hspot Hn. unfold Heston.simulate_stock.
  pose proof (IZR_pos_of_ge_1 _ Hn) as HN.
  unfold bind at 1. rewrite truediv_ok by lra.
  unfold bind at 1. cbn [getattr].
  unfold bind at 1. rewrite math_log_ok by assumption.
  destruct (Z.to_nat num_steps) as [| n] eqn:En; [lia |].
  cbn [for_range]. unfold Heston.loop_body.
  unfold bind at 1. unfold bind at 1. unfold bind at 1. cbn [sc_randn].
  unfold bind at 1. cbn [getattr self].
  unfold bind at 1. rewrite math_sqrt_raise by lra.
  reflexivity.
Qed.

(** A negative initial variance ends the first pass of the naive scheme at
    the variance step, and of the absorption scheme at the inherited
    log-asset step. *)
Lemma naive_simulate_stock_negative_initial_variance
    spot maturity num_steps (w : world Heston.t) :
  Heston.initial_variance (self w) < 0 ->
  Heston.rho (self w) * Heston.rho (self w) <= 1 ->
  0 < spot -> 0 < maturity -> (1 <= num_steps)%Z ->
  fst (Heston_model spot maturity num_steps w) = Raise ValueError.
Proof.
  intros Hv Hrho Hspot Hmat Hn.
  change (Heston.initial_variance (Heston.fields (self w)) < 0) in Hv.
  change (Heston.rho (Heston.fields (self w)) * Heston.rho (Heston.fields (self w)) <= 1)
    in Hrho.
  unfold Heston_model, model_simulate_stock, Heston.simulate_stock.
  pose proof (IZR_pos_of_ge_1 _ Hn) as HN.
  assert (Hdt : 0 < maturity / IZR num_steps) by (apply Rdiv_lt_0_compat; lra).
  unfold bind at 1. rewrite truediv_ok by lra.
  unfold bind at 1. cbn [getattr].
  unfold bind at 1. rewrite math_log_ok by assumption.
  destruct (Z.to_nat num_steps) as [| n] eqn:En; [lia |].
  cbn [for_range]. unfold Heston.loop_body.
  unfold bind at 1. unfold bind at 1. unfold bind at 1. cbn [sc_randn].
  unfold bind at 1. cbn [getattr self].
  unfold bind at 1. rewrite math_sqrt_ok by lra.
  unfold bind at 1. cbn [sc_randn self randn_stream drawn].
  unfold bind at 1.
  cbn [Heston.variance_next_step Heston.scheme Heston.var_prev].
  rewrite naive_variance_raise by nra.
  reflexivity.
Qed.

Lemma absorption_simulate_stock_negative_initial_variance
    spot maturity num_steps (w : world Abs.t) :
  Heston.initial_variance (Abs.base (self w)) < 0 ->
  Heston.rho (Abs.base (self w)) * Heston.rho (Abs.base (self w)) <= 1 ->
  0 < spot -> 0 < maturity -> (1 <= num_steps)%Z ->
  fst (Abs.simulate_stock spot maturity num_steps w) = Raise ValueError.
Proof.
  intros Hv Hrho Hspot Hmat Hn.
  change (Heston.initial_variance (Heston.fields (self w)) < 0) in Hv.
  change (Heston.rho (Heston.fields (self w)) * Heston.rho (Heston.fields (self w)) <= 1)
    in Hrho.
  unfold Abs.simulate_stock, Heston.simulate_stock.
  pose proof (IZR_pos_of_ge_1 _ Hn) as HN.
  assert (Hdt : 0 < maturity / IZR num_steps) by (apply Rdiv_lt_0_compat; lra).
  unfold bind at 1. rewrite truediv_ok by lra.
  unfold bind at 1. cbn [getattr].
  unfold bind at 1. rewrite math_log_ok by assumption.
  destruct (Z.to_nat num_steps) as [| n] eqn:En; [lia |].
  cbn [for_range]. unfold Heston.loop_body.
  unfold bind at 1. unfold bind at 1. unfold bind at 1. cbn [sc_randn].
  unfold bind at 1. cbn [getattr self].
  unfold bind at 1. rewrite math_sqrt_ok by lra.
  unfold bind at 1. cbn [sc_randn self randn_stream drawn].
  unfold bind at 1.
  cbn [Heston.variance_next_step Abs.scheme Heston.var_prev Heston.log_asset_prev].
  rewrite absorption_variance_nonpos by lra.
  unfold bind at 1. cbn [Heston.log_asset_next_step Abs.scheme].
  rewrite naive_log_asset_raise by nra.
  reflexivity.
Qed.

(** ** The pricer against its description *)

Section Pricer.
Context {O : Type} `{Model O}.

Lemma for_range_payoffs spot strike maturity num_steps n : forall acc (w : world O),
  for_range n
    (fun acc => s <- model_simulate_stock spot maturity num_steps ;;
                ret (acc ++ [py_max (s - strike) 0]))
    (map (call_payoff strike) acc) w
  = match for_range n
            (fun acc => s <- model_simulate_stock spot maturity num_steps ;;
                        ret (acc ++ [s])) acc w with
    | (Ok ts, w') => (Ok (map (call_payoff strike) ts), w')
    | (Raise e, w') => (Raise e, w')
    end.
Proof.
  induction n as [| n IH]; intros acc w; cbn [for_range].
  - reflexivity.
  - destruct (model_simulate_stock spot maturity num_steps w) as [[s | e] w1] eqn:E.
    + rewrite (bind_ok _ _ w (map (call_payoff strike) (acc ++ [s])) w1).
      * rewrite (bind_ok _ _ w (acc ++ [s]) w1).
        -- apply IH.
        -- rewrite (bind_ok _ _ _ _ _ E). reflexivity.
      * rewrite (bind_ok _ _ _ _ _ E). unfold ret.
        rewrite map_app. cbn [map]. unfold call_payoff at 2. rewrite py_max_0. reflexivity.
    + rewrite (bind_raise _ _ w e w1) by (rewrite (bind_raise _ _ _ _ _ E); reflexivity).
      rewrite (bind_raise _ _ w e w1) by (rewrite (bind_raise _ _ _ _ _ E); reflexivity).
      reflexivity.
Qed.

Lemma simulate_paths_length spot maturity num_steps n : forall acc (w : world O) ts w',
  for_range n
    (fun acc => s <- model_simulate_stock spot maturity num_steps ;; ret (acc ++ [s]))
    acc w = (Ok ts, w') ->
  length ts = (length acc + n)%nat.
Proof.
  induction n as [| n IH]; intros acc w ts w'; cbn [for_range].
  - unfold ret. intros E. inversion E. lia.
  - destruct (model_simulate_stock spot maturity num_steps w) as [[s | e] w1] eqn:E.
    + rewrite (bind_ok _ _ w (acc ++ [s]) w1)
        by (rewrite (bind_ok _ _ _ _ _ E); reflexivity).
      intros E'. apply IH in E'. rewrite E', length_app. cbn. lia.
    + rewrite (bind_raise _ _ w e w1) by (rewrite (bind_raise _ _ _ _ _ E); reflexivity).
      discriminate.
Qed.

Lemma price_call_option_refines spot strike maturity num_steps num_paths (w : world O) :
  (1 <= num_paths)%Z ->
  price_call_option spot strike maturity num_steps num_paths w
  = price_call_spec spot strike maturity num_steps num_paths w.
Proof.
  intros Hn. unfold price_call_option, price_call_spec, simulate_paths.
  pose proof (IZR_pos_of_ge_1 _ Hn) as HN.
  assert (Hs : 0 < sqrt (IZR num_paths)) by (apply sqrt_lt_R0; exact HN).
  pose proof (for_range_payoffs spot strike maturity num_steps (Z.to_nat num_paths) [] w)
    as Hp.
  cbn [map] in Hp.
  destruct (for_range (Z.to_nat num_paths)
              (fun acc => s <- model_simulate_stock spot maturity num_steps ;;
                          ret (acc ++ [s])) [] w) as [[ts | e] w1] eqn:E.
  - rewrite (bind_ok _ _ _ _ _ Hp). rewrite (bind_ok _ _ _ _ _ E).
    unfold bind at 1. rewrite math_sqrt_ok by lra.
    unfold bind at 1. rewrite truediv_ok by lra.
    unfold ret. do 3 f_equal. field. lra.
  - rewrite (bind_raise _ _ _ _ _ Hp). rewrite (bind_raise _ _ _ _ _ E). reflexivity.
Qed.

End Pricer.

Lemma diag_simulate_stock_degenerate spot maturity num_steps (o : Diag.t) stream d :
  Heston.rho (Diag.base o) * Heston.rho (Diag.base o) <= 1 ->
  0 < spot -> 0 <= maturity -> (1 <= num_steps)%Z ->
  let path := ft_path (Diag.base o) (maturity / IZR num_steps) stream d
                (Z.to_nat num_steps)
                (Heston.mkLocals (Heston.initial_variance (Diag.base o)) (ln spot) None) in
  all_equal (map fst (increments path)) \/ all_equal (map snd (increments path)) ->
  exists wd',
    Diag.simulate_stock spot maturity num_steps (mkWorld o stream d)
    = (Raise ZeroDivisionError, wd').
Proof.
  intros Hrho Hspot Hmat Hn path Hdeg.
  destruct (diag_simulate_stock_run spot maturity num_steps o stream d Hrho Hspot Hmat Hn)
    as (_ & _ & wd' & _ & E).
  fold path in E.
  assert (Hlen : 1 / IZR num_steps * INR (length (increments path)) = 1).
  { unfold path. rewrite length_increments_ft_path. apply weight_sums_to_one. exact Hn. }
  assert (Hz : sqrt (sample_variance (1 / IZR num_steps) (map fst (increments path)))
               * sqrt (sample_variance (1 / IZR num_steps) (map snd (increments path))) = 0).
  { destruct Hdeg as [Ha | Hb].
    - rewrite (sample_variance_all_equal _ _ ltac:(rewrite length_map; exact Hlen) Ha).
      rewrite sqrt_0. ring.
    - rewrite (sample_variance_all_equal _ _ ltac:(rewrite length_map; exact Hlen) Hb).
      rewrite sqrt_0. ring. }
  exists wd'. rewrite E.
  destruct (Req_EM_T _ 0) as [_ | Hnz]; [reflexivity | contradiction].
Qed.

Lemma rho_in_range (r : R) : -1 <= r <= 1 -> r * r <= 1.
Proof. intros [Hl Hu]. nra. Qed.

(** ** Black-Scholes paths *)

Lemma black_scholes_increments_ok dt (o : BlackScholes.t) stream n : forall d acc,
  0 <= dt ->
  exists v,
    for_range n
      (fun acc => z <- sc_randn ;; incr <- BlackScholes._simulate_increment dt z ;;
                  ret (acc + incr)) acc (mkWorld o stream d)
    = (Ok v, mkWorld o stream (d + n)).
Proof.
  induction n as [| n IH]; intros d acc Hdt; cbn [for_range].
  - exists acc. unfold ret. do 2 f_equal. lia.
  - assert (Eb : (z <- sc_randn ;; incr <- BlackScholes._simulate_increment dt z ;;
                  ret (acc + incr)) (mkWorld o stream d)
                 = (Ok (acc + ((BlackScholes.mu o - 0.5 * BlackScholes.vol o
                                * BlackScholes.vol o) * dt
                               + BlackScholes.vol o * sqrt dt * stream d)),
                    mkWorld o stream (S d))).
    { unfold bind at 1. cbn [sc_randn self randn_stream drawn].
      unfold bind at 1. unfold BlackScholes._simulate_increment.
      unfold bind at 1. cbn [getattr self].
      unfold bind at 1. rewrite math_sqrt_ok by assumption.
      reflexivity. }
    rewrite (bind_ok _ _ _ _ _ Eb).
    destruct (IH (S d) (acc + ((BlackScholes.mu o - 0.5 * BlackScholes.vol o
                                 * BlackScholes.vol o) * dt
                                + BlackScholes.vol o * sqrt dt * stream d)) Hdt) as [v E].
    exists v. rewrite E. do 2 f_equal. lia.
Qed.

Lemma black_scholes_simulate_stock_ok spot maturity num_steps (o : BlackScholes.t) stream d :
  0 <= maturity -> (1 <= num_steps)%Z ->
  exists v,
    BlackScholes.simulate_stock spot maturity num_steps (mkWorld o stream d)
    = (Ok v, mkWorld o stream (d + Z.to_nat num_steps)).
Proof.
  intros Hmat Hn. unfold BlackScholes.simulate_stock, BlackScholes.sum_increments.
  pose proof (IZR_pos_of_ge_1 _ Hn) as HN.
  unfold bind at 1. rewrite truediv_ok by lra.
  destruct (black_scholes_increments_ok (maturity / IZR num_steps) o stream
              (Z.to_nat num_steps) d 0 (step_size_nonneg _ _ Hmat Hn)) as [v E].
  rewrite (bind_ok _ _ _ _ _ E). unfold math_exp, bind, ret.
  eexists. reflexivity.
Qed.

(** A concrete path whose increments are not all equal. *)
Lemma decaying_path_increments :
  increments (ft_path decaying_params (2 / IZR 2) zero_draws 0 2
                (Heston.mkLocals (Heston.initial_variance decaying_params) (ln 100) None))
  = [(-1 / 2, -1); (0, 0)].
Proof.
  cbn [ft_path increments ft_step decaying_params zero_draws
       Heston.var_prev Heston.log_asset_prev Heston.initial_variance
       Heston.mu Heston.kappa Heston.theta Heston.omega Heston.rho].
  unfold zero_draws.
  rewrite (Rmax_left 1 0) by lra.
  replace (1 - 1 * (2 / 2) * (1 - 0) + 0 * sqrt (1 * (2 / 2)) * 0) with 0 by lra.
  rewrite (Rmax_left 0 0) by lra.
  f_equal; [| f_equal]; f_equal; lra.
Qed.

(** * The claims *)

(** C1: in the absorption scheme's variance transition the counter of
    negative-variance fixes should go up only at a step whose raw, pre-floor
    variance is negative.  The code tests [var_prev > 0.0] instead: on the
    notebook's model, from variance 0.09 with step 0.5 and draw 0, the raw
    variance is 0.09, nothing is floored, and the counter still goes from 0
    to 1. *)
Theorem absorption_counter_counts_positive_variance :
  let w := mkWorld (Abs.mk notebook_params 0) zero_draws 0 in
  let raw := (1 - 2 * (1 / 2)) * Rmax (9 / 100) 0 + 2 * (1 / 2) * (9 / 100)
             + 1 * sqrt (Rmax (9 / 100) 0 * (1 / 2)) * 0 in
  0 <= raw /\
  Abs._simulate_variance_next_step (9 / 100) (1 / 2) 0 w
  = (Ok (9 / 100), mkWorld (Abs.mk notebook_params 1) zero_draws 0) /\
  Abs.number_of_negative_variances (self w) = 0%Z /\
  Abs.number_of_negative_variances
    (self (snd (Abs._simulate_variance_next_step (9 / 100) (1 / 2) 0 w))) = 1%Z.
Proof.
  intros w raw.
  assert (Hraw : raw = 9 / 100).
  { unfold raw. rewrite Rmax_left by lra. lra. }
  assert (E : Abs._simulate_variance_next_step (9 / 100) (1 / 2) 0 w
              = (Ok (9 / 100), mkWorld (Abs.mk notebook_params 1) zero_draws 0)).
  { unfold w. rewrite absorption_variance_pos by lra.
    cbn [self Abs.base randn_stream drawn Abs.number_of_negative_variances notebook_params
         Heston.kappa Heston.theta Heston.omega].
    rewrite Rmax_left by lra.
    replace ((1 - 2 * (1 / 2)) * (9 / 100) + 2 * (1 / 2) * (9 / 100)
             + 1 * sqrt (9 / 100 * (1 / 2)) * 0) with (9 / 100) by lra.
    reflexivity. }
  split; [lra |]. split; [exact E |]. split; [reflexivity |].
  rewrite E. reflexivity.
Qed.

(** C2, as stated, fails: with [omega = 0] a raw variance can be negative,
    and the counter is not zero after the run.  With [kappa = 2] and one
    step of size [dt = 5] the drift alone takes the variance [0.2] to
    [(1 - 10) 0.2 + 10 0.09 = -0.9], which the step floors at zero and
    counts. *)
Lemma absorption_counter_nonzero_with_zero_omega :
  let w := mkWorld (Abs.mk zero_omega_params 0) zero_draws 0 in
  let raw := (1 - 2 * 5) * Rmax (2 / 10) 0 + 2 * 5 * (9 / 100)
             + 0 * sqrt (Rmax (2 / 10) 0 * 5) * 0 in
  Heston.omega (Abs.base (self w)) = 0 /\
  raw = - 9 / 10 /\
  Abs._simulate_variance_next_step (2 / 10) 5 0 w
  = (Ok 0, mkWorld (Abs.mk zero_omega_params 1) zero_draws 0) /\
  Abs.number_of_negative_variances (self w) = 0%Z /\
  exists v,
    Abs.simulate_stock 100 5 1 w
    = (Ok v, mkWorld (Abs.mk zero_omega_params 1) zero_draws 2).
Proof.
  intros w raw.
  assert (Hraw : raw = - 9 / 10).
  { unfold raw. rewrite Rmax_left by lra. lra. }
  assert (E : Abs._simulate_variance_next_step (2 / 10) 5 0 w
              = (Ok 0, mkWorld (Abs.mk zero_omega_params 1) zero_draws 0)).
  { unfold w. rewrite absorption_variance_pos by lra.
    cbn [self Abs.base randn_stream drawn Abs.number_of_negative_variances
         zero_omega_params Heston.kappa Heston.theta Heston.omega].
    match goal with
    | |- context [Rmax ?x 0] => replace x with (- 9 / 10) by lra
    end.
    rewrite Rmax_right by lra. reflexivity. }
  split; [reflexivity |]. split; [exact Hraw |]. split; [exact E |].
  split; [reflexivity |].
  unfold w, Abs.simulate_stock, Heston.simulate_stock.
  unfold bind at 1. rewrite truediv_ok by lra.
  unfold bind at 1. cbn [getattr self].
  unfold bind at 1. rewrite math_log_ok by lra.
  change (Z.to_nat 1) with 1%nat. cbn [for_range]. unfold Heston.loop_body.
  unfold bind at 1. unfold bind at 1. unfold bind at 1.
  cbn [sc_randn self randn_stream drawn].
  unfold bind at 1. cbn [getattr self].
  unfold bind at 1.
  cbn [Heston.fields Abs.fields_t Abs.base zero_omega_params Heston.rho Heston.initial_variance].
  rewrite math_sqrt_ok by lra.
  unfold bind at 1. cbn [sc_randn self randn_stream drawn].
  unfold bind at 1.
  cbn [Heston.variance_next_step Abs.scheme Heston.var_prev Heston.log_asset_prev].
  rewrite absorption_variance_pos by lra.
  cbn [self Abs.base randn_stream drawn Abs.number_of_negative_variances].
  unfold bind at 1. cbn [Heston.log_asset_next_step Abs.scheme].
  rewrite naive_log_asset_ok by lra.
  unfold ret. cbn [Heston.log_asset_next]. unfold math_exp, ret.
  eexists. reflexivity.
Qed.

(** C2, amended: over any run of the absorption scheme the counter is
    non-decreasing: each variance step either adds one to it or leaves it
    unchanged, and [simulate_stock] never lowers it, whether it returns or
    raises. *)
Theorem absorption_counter_non_decreasing :
  (forall var_prev dt randn (w : world Abs.t),
     let n := Abs.number_of_negative_variances (self w) in
     let n' := Abs.number_of_negative_variances
                 (self (snd (Abs._simulate_variance_next_step var_prev dt randn w))) in
     n' = n \/ n' = (n + 1)%Z) /\
  (forall spot maturity num_steps (w : world Abs.t),
     (Abs.number_of_negative_variances (self w)
      <= Abs.number_of_negative_variances
           (self (snd (Abs.simulate_stock spot maturity num_steps w))))%Z).
Proof.
  split.
  - intros var_prev dt randn w n n'.
    destruct (absorption_variance_world var_prev dt randn w) as (_ & _ & _ & E).
    unfold n', n. rewrite E. destruct (Rgt_dec var_prev 0); [right | left]; lia.
  - intros spot maturity num_steps w.
    apply (counter_monotone_simulate_stock spot maturity num_steps w).
Qed.

(** C3, as stated, fails for the absorption scheme: its log-asset step is
    the one inherited from [Heston], which takes the square root of the
    unclamped variance and raises on a negative one. *)
Lemma absorption_log_asset_step_raises_on_negative_variance :
  let w := mkWorld (Abs.mk notebook_params 0) zero_draws 0 in
  Heston.log_asset_next_step (Scheme := Abs.scheme) 0 (-1) 1 0 w = (Raise ValueError, w) /\
  forall v w', Heston.log_asset_next_step (Scheme := Abs.scheme) 0 (-1) 1 0 w <> (Ok v, w').
Proof.
  intros w.
  assert (E : Heston.log_asset_next_step (Scheme := Abs.scheme) 0 (-1) 1 0 w
              = (Raise ValueError, w)).
  { cbn [Heston.log_asset_next_step Abs.scheme]. apply naive_log_asset_raise. lra. }
  split; [exact E |]. intros v w'. rewrite E. discriminate.
Qed.

(** C3, amended: with a step size [dt > 0], the log-asset step of the naive
    scheme and of the absorption scheme (which inherits it) uses the variance
    unclamped: it returns [L + (mu - 0.5 V) dt + sqrt (V dt) z] when [V >= 0]
    and raises a domain error when [V < 0]; the log-asset step of the
    full-truncation scheme, which the diagnostics class inherits, uses
    [max(V, 0)] and returns a value for every [V]. *)
Theorem log_asset_step_by_scheme
    (L V dt z : R) (wn : world Heston.t) (wa : world Abs.t) (wf : world Heston.t)
    (wd : world Diag.t) :
  0 < dt ->
  (0 <= V ->
   Heston.log_asset_next_step (Scheme := Heston.scheme) L V dt z wn
   = (Ok (L + (Heston.mu (self wn) - 0.5 * V) * dt + sqrt (V * dt) * z), wn) /\
   Heston.log_asset_next_step (Scheme := Abs.scheme) L V dt z wa
   = (Ok (L + (Heston.mu (Abs.base (self wa)) - 0.5 * V) * dt + sqrt (V * dt) * z), wa)) /\
  (V < 0 ->
   Heston.log_asset_next_step (Scheme := Heston.scheme) L V dt z wn = (Raise ValueError, wn) /\
   Heston.log_asset_next_step (Scheme := Abs.scheme) L V dt z wa = (Raise ValueError, wa)) /\
  Heston.log_asset_next_step (Scheme := FT.scheme) L V dt z wf
  = (Ok (L + (Heston.mu (self wf) - 0.5 * Rmax V 0) * dt + sqrt (Rmax V 0 * dt) * z), wf) /\
  Heston.log_asset_next_step (Scheme := Diag.scheme) L V dt z wd
  = (Ok (L + (Heston.mu (Diag.base (self wd)) - 0.5 * Rmax V 0) * dt
         + sqrt (Rmax V 0 * dt) * z), wd).
Proof.
  intros Hdt.
  cbn [Heston.log_asset_next_step Heston.scheme Abs.scheme FT.scheme Diag.scheme].
  split; [| split; [| split]].
  - intros HV. split.
    + rewrite naive_log_asset_ok by nra. do 2 f_equal.
      unfold Heston.fields, Heston.fields_t. ring.
    + rewrite naive_log_asset_ok by nra. do 2 f_equal.
      unfold Heston.fields, Abs.fields_t. ring.
  - intros HV. split; apply naive_log_asset_raise; nra.
  - rewrite full_truncation_log_asset_ok by (apply Rmax_0_mult_nonneg; lra).
    do 2 f_equal. unfold Heston.fields, Heston.fields_t. ring.
  - rewrite full_truncation_log_asset_ok by (apply Rmax_0_mult_nonneg; lra).
    do 2 f_equal. unfold Heston.fields, Diag.fields_t. ring.
Qed.

Lemma log_asset_step_by_scheme_witness :
  0 < 1 /\
  Heston.log_asset_next_step (Scheme := Abs.scheme) 0 (-1) 1 0
    (mkWorld (Abs.mk notebook_params 0) zero_draws 0)
  = (Raise ValueError, mkWorld (Abs.mk notebook_params 0) zero_draws 0) /\
  Heston.log_asset_next_step (Scheme := FT.scheme) 0 (-1) 1 0
    (mkWorld notebook_params zero_draws 0)
  = (Ok (0 + (5 / 100 - 0.5 * Rmax (-1) 0) * 1 + sqrt (Rmax (-1) 0 * 1) * 0),
     mkWorld notebook_params zero_draws 0).
Proof.
  pose proof (log_asset_step_by_scheme 0 (-1) 1 0
                (mkWorld notebook_params zero_draws 0)
                (mkWorld (Abs.mk notebook_params 0) zero_draws 0)
                (mkWorld notebook_params zero_draws 0)
                (mkWorld (fresh_diagnostics notebook_params) zero_draws 0) Rlt_0_1)
    as (_ & Hneg & Hft & _).
  split; [exact Rlt_0_1 |]. split; [| exact Hft].
  apply Hneg. lra.
Defined.

(** C4, as stated, fails: the constructors accept out-of-range values. *)
Lemma constructors_accept_out_of_range :
  BlackScholes.__init__ 0 (-1) = Ok (BlackScholes.mk 0 (-1)) /\
  Heston.__init__ 0 (-1) (-1) (-1) 2 (-1) = Ok (Heston.mk 0 (-1) (-1) (-1) 2 (-1)).
Proof. split; reflexivity. Qed.

(** C4, amended: construction never fails; every constructor stores its
    arguments as they are, whatever their values.  What an out-of-range value
    does afterwards depends on the parameter.  A correlation outside
    [-1, 1] makes [simulate_stock] of the naive, absorption and
    full-truncation classes raise a domain error in the first pass of the
    loop, and a negative initial variance does so for the naive and
    absorption classes.  A volatility of any sign under Black-Scholes, and
    [kappa], [theta], [omega] and an initial variance of any sign under full
    truncation, raise nothing: [simulate_stock] returns. *)
Theorem constructors_do_not_validate :
  (forall mu vol, BlackScholes.__init__ mu vol = Ok (BlackScholes.mk mu vol)) /\
  (forall mu kappa theta omega rho v0,
     Heston.__init__ mu kappa theta omega rho v0
     = Ok (Heston.mk mu kappa theta omega rho v0) /\
     Abs.__init__ mu kappa theta omega rho v0
     = Ok (Abs.mk (Heston.mk mu kappa theta omega rho v0) 0) /\
     Diag.__init__ mu kappa theta omega rho v0
     = Ok (Diag.mk (Heston.mk mu kappa theta omega rho v0) 0 0 0 0 0 0 0)) /\
  (forall (h : Heston.t) c stream d spot maturity num_steps,
     1 < Heston.rho h * Heston.rho h -> 0 < spot -> (1 <= num_steps)%Z ->
     fst (Heston_model spot maturity num_steps (mkWorld h stream d)) = Raise ValueError /\
     fst (Heston_Full_Truncation_model spot maturity num_steps (mkWorld h stream d))
     = Raise ValueError /\
     fst (Abs.simulate_stock spot maturity num_steps (mkWorld (Abs.mk h c) stream d))
     = Raise ValueError) /\
  (forall (h : Heston.t) c stream d spot maturity num_steps,
     Heston.initial_variance h < 0 -> -1 <= Heston.rho h <= 1 ->
     0 < spot -> 0 < maturity -> (1 <= num_steps)%Z ->
     fst (Heston_model spot maturity num_steps (mkWorld h stream d)) = Raise ValueError /\
     fst (Abs.simulate_stock spot maturity num_steps (mkWorld (Abs.mk h c) stream d))
     = Raise ValueError) /\
  (forall (o : BlackScholes.t) stream d spot maturity num_steps,
     0 <= maturity -> (1 <= num_steps)%Z ->
     exists v w',
       BlackScholes.simulate_stock spot maturity num_steps (mkWorld o stream d)
       = (Ok v, w')) /\
  (forall (h : Heston.t) stream d spot maturity num_steps,
     -1 <= Heston.rho h <= 1 -> 0 < spot -> 0 <= maturity -> (1 <= num_steps)%Z ->
     exists v w',
       Heston_Full_Truncation_model spot maturity num_steps (mkWorld h stream d)
       = (Ok v, w')).
Proof.
  split; [reflexivity |]. split; [intros; repeat split |].
  split; [| split; [| split]].
  - intros h c stream d spot maturity num_steps Hrho Hspot Hn.
    unfold Heston_model, Heston_Full_Truncation_model, FT.simulate_stock, Abs.simulate_stock.
    repeat split; rewrite heston_simulate_stock_rho_out_of_range by assumption; reflexivity.
  - intros h c stream d spot maturity num_steps Hv Hrho Hspot Hmat Hn.
    assert (Hrho2 : Heston.rho h * Heston.rho h <= 1) by nra.
    split.
    + apply naive_simulate_stock_negative_initial_variance; assumption.
    + apply absorption_simulate_stock_negative_initial_variance; assumption.
  - intros o stream d spot maturity num_steps Hmat Hn.
    destruct (black_scholes_simulate_stock_ok spot maturity num_steps o stream d Hmat Hn)
      as [v Hv].
    exists v. eexists. exact Hv.
  - intros h stream d spot maturity num_steps Hrho Hspot Hmat Hn.
    assert (Hrho2 : Heston.rho h * Heston.rho h <= 1) by nra.
    unfold Heston_Full_Truncation_model.
    rewrite (full_truncation_simulate_stock_run spot maturity num_steps h stream d
               Hrho2 Hspot Hmat Hn).
    eexists. eexists. reflexivity.
Qed.

Lemma constructors_do_not_validate_witness :
  Heston.__init__ (5 / 100) 2 (9 / 100) 1 2 (9 / 100) = Ok bad_rho_params /\
  fst (Heston_Full_Truncation_model 100 5 10%Z (mkWorld bad_rho_params zero_draws 0))
  = Raise ValueError /\
  fst (Heston_model 100 5 10%Z (mkWorld (Heston.mk 0 (-1) (-1) (-1) 0 (-1)) zero_draws 0))
  = Raise ValueError /\
  (exists v w',
     BlackScholes.simulate_stock 100 5 10%Z (mkWorld (BlackScholes.mk 0 (-1)) zero_draws 0)
     = (Ok v, w')) /\
  (exists v w',
     Heston_Full_Truncation_model 100 5 10%Z
       (mkWorld (Heston.mk 0 (-1) (-1) (-1) 0 (-1)) zero_draws 0)
     = (Ok v, w')).
Proof.
  destruct constructors_do_not_validate as (_ & Hinit & Hrho & Hv0 & Hbs & Hft).
  split; [| split; [| split; [| split]]].
  - apply (proj1 (Hinit (5 / 100) 2 (9 / 100) 1 2 (9 / 100))).
  - apply (Hrho bad_rho_params 0%Z zero_draws 0%nat 100 5 10%Z).
    + cbn. lra.
    + lra.
    + lia.
  - apply (Hv0 (Heston.mk 0 (-1) (-1) (-1) 0 (-1)) 0%Z zero_draws 0%nat 100 5 10%Z).
    + cbn. lra.
    + cbn. lra.
    + lra.
    + lra.
    + lia.
  - apply (Hbs (BlackScholes.mk 0 (-1)) zero_draws 0%nat 100 5 10%Z).
    + lra.
    + lia.
  - apply (Hft (Heston.mk 0 (-1) (-1) (-1) 0 (-1)) zero_draws 0%nat 100 5 10%Z).
    + cbn. lra.
    + lra.
    + lra.
    + lia.
Defined.

(** C5: with a step size [dt > 0], the naive variance transition raises a
    domain error when the incoming variance is negative, and returns
    [(1 - kappa dt) V + kappa dt theta + omega sqrt (V dt) z], unclamped, when
    it is not. *)
Theorem naive_variance_step_domain
    {O : Type} `{Heston.Fields O} (var_prev dt randn : R) (w : world O) :
  0 < dt ->
  (var_prev < 0 ->
   Heston._simulate_variance_next_step var_prev dt randn w = (Raise ValueError, w)) /\
  (0 <= var_prev ->
   Heston._simulate_variance_next_step var_prev dt randn w
   = (Ok ((1 - Heston.kappa (Heston.fields (self w)) * dt) * var_prev
          + Heston.kappa (Heston.fields (self w)) * dt * Heston.theta (Heston.fields (self w))
          + Heston.omega (Heston.fields (self w)) * sqrt (var_prev * dt) * randn), w)).
Proof.
  intros Hdt. split; intros HV.
  - apply naive_variance_raise. nra.
  - apply naive_variance_ok. nra.
Qed.

Lemma naive_variance_step_domain_witness :
  0 < 1 / 2 /\
  Heston._simulate_variance_next_step (-1 / 100) (1 / 2) 1
    (mkWorld notebook_params zero_draws 0)
  = (Raise ValueError, mkWorld notebook_params zero_draws 0) /\
  Heston._simulate_variance_next_step (9 / 100) (1 / 2) 1
    (mkWorld notebook_params zero_draws 0)
  = (Ok ((1 - 2 * (1 / 2)) * (9 / 100) + 2 * (1 / 2) * (9 / 100)
         + 1 * sqrt (9 / 100 * (1 / 2)) * 1),
     mkWorld notebook_params zero_draws 0).
Proof.
  assert (Hdt : 0 < 1 / 2) by lra.
  split; [exact Hdt |]. split.
  - assert (Hneg : -1 / 100 < 0) by lra.
    exact (proj1 (naive_variance_step_domain (-1 / 100) (1 / 2) 1
                    (mkWorld notebook_params zero_draws 0) Hdt) Hneg).
  - assert (Hpos : 0 <= 9 / 100) by lra.
    exact (proj2 (naive_variance_step_domain (9 / 100) (1 / 2) 1
                    (mkWorld notebook_params zero_draws 0) Hdt) Hpos).
Defined.

(** C6, as stated, fails: the claim bounds [V0], [spot], [maturity] and
    [num_steps] but not the correlation, and with [rho = 2] the square root
    of [1 - rho^2] raises in the first pass, for both schemes. *)
Lemma schemes_raise_on_rho_out_of_range :
  0 <= Heston.initial_variance bad_rho_params /\
  FT.simulate_stock 100 5 10 (mkWorld bad_rho_params zero_draws 0)
  = (Raise ValueError, mkWorld bad_rho_params zero_draws 1) /\
  Abs.simulate_stock 100 5 10 (mkWorld (Abs.mk bad_rho_params 0) zero_draws 0)
  = (Raise ValueError, mkWorld (Abs.mk bad_rho_params 0) zero_draws 1).
Proof.
  split; [cbn; lra |].
  unfold FT.simulate_stock, Abs.simulate_stock.
  split; rewrite heston_simulate_stock_rho_out_of_range; try reflexivity; try lia;
    cbn; lra.
Qed.

(** C6, amended: for a correlation in [-1, 1], [V0 >= 0], [spot > 0],
    [maturity > 0], [num_steps >= 1] and every stream of draws,
    [simulate_stock] of the absorption scheme and of the full-truncation
    scheme returns a value; in the absorption scheme the variance carried by
    the loop is non-negative after any number of passes. *)
Theorem absorption_and_full_truncation_complete
    (h : Heston.t) (c : Z) (stream : nat -> R) (d : nat)
    (spot maturity : R) (num_steps : Z) :
  -1 <= Heston.rho h <= 1 ->
  0 <= Heston.initial_variance h ->
  0 < spot -> 0 < maturity -> (1 <= num_steps)%Z ->
  (exists v w',
     Abs.simulate_stock spot maturity num_steps (mkWorld (Abs.mk h c) stream d) = (Ok v, w')) /\
  (exists v w',
     FT.simulate_stock spot maturity num_steps (mkWorld h stream d) = (Ok v, w')) /\
  (forall k, exists l w',
     for_range k (Heston.loop_body (Scheme0 := Abs.scheme) (maturity / IZR num_steps))
       (Heston.mkLocals (Heston.initial_variance h) (ln spot) None)
       (mkWorld (Abs.mk h c) stream d) = (Ok l, w') /\
     0 <= Heston.var_prev l).
Proof.
  intros Hrho Hv0 Hspot Hmat Hn.
  apply rho_in_range in Hrho.
  split; [| split].
  - apply absorption_simulate_stock_ok; cbn; try assumption; lra.
  - eexists _, _. apply full_truncation_simulate_stock_run; try assumption; lra.
  - intros k.
    destruct (absorption_loop_ok (maturity / IZR num_steps) k
                (Heston.mkLocals (Heston.initial_variance h) (ln spot) None)
                (mkWorld (Abs.mk h c) stream d))
      as (l & w' & E & Hl & _ & _); cbn; try assumption.
    + apply step_size_nonneg; [lra | assumption].
    + exists l, w'. split; assumption.
Qed.

Lemma absorption_and_full_truncation_complete_witness :
  (-1 <= Heston.rho notebook_params <= 1) /\
  (exists v w',
     Abs.simulate_stock 100 5 10 (mkWorld (Abs.mk notebook_params 0) zero_draws 0)
     = (Ok v, w')) /\
  (exists v w',
     FT.simulate_stock 100 5 10 (mkWorld notebook_params zero_draws 0) = (Ok v, w')).
Proof.
  assert (Hrho : -1 <= Heston.rho notebook_params <= 1) by (cbn; lra).
  assert (Hv0 : 0 <= Heston.initial_variance notebook_params) by (cbn; lra).
  assert (Hspot : 0 < 100) by lra.
  assert (Hmat : 0 < 5) by lra.
  assert (Hn : (1 <= 10)%Z) by lia.
  destruct (absorption_and_full_truncation_complete notebook_params 0 zero_draws 0
              100 5 10 Hrho Hv0 Hspot Hmat Hn) as (Ha & Hf & _).
  split; [exact Hrho |]. split; assumption.
Defined.

(** C7: for every previous variance [V] (negative ones included), every step
    size [dt >= 0] (the step [maturity / num_steps] of a grid is one; for
    [V <= 0] the sign of [dt] does not matter) and every draw [z], the
    full-truncation variance transition returns exactly
    [V - kappa dt (max(V,0) - theta) + omega sqrt (max(V,0) dt) z]: the update
    is applied to the unclamped variance, and only the drift and diffusion
    terms see the clamped one. *)
Theorem full_truncation_variance_step
    {O : Type} `{Heston.Fields O} (var_prev dt randn : R) (w : world O) :
  0 <= dt \/ var_prev <= 0 ->
  FT._simulate_variance_next_step var_prev dt randn w
  = (Ok (var_prev
         - Heston.kappa (Heston.fields (self w)) * dt
           * (Rmax var_prev 0 - Heston.theta (Heston.fields (self w)))
         + Heston.omega (Heston.fields (self w)) * sqrt (Rmax var_prev 0 * dt) * randn), w).
Proof.
  intros Hd. apply full_truncation_variance_ok.
  destruct Hd as [Hdt | HV].
  - apply Rmax_0_mult_nonneg. exact Hdt.
  - rewrite Rmax_right by exact HV. lra.
Qed.

Lemma full_truncation_variance_step_witness :
  (0 <= 1 / 2 \/ -1 <= 0) /\
  FT._simulate_variance_next_step (-1) (1 / 2) 1 (mkWorld notebook_params zero_draws 0)
  = (Ok (-1 - 2 * (1 / 2) * (Rmax (-1) 0 - 9 / 100)
         + 1 * sqrt (Rmax (-1) 0 * (1 / 2)) * 1),
     mkWorld notebook_params zero_draws 0).
Proof.
  assert (Hd : 0 <= 1 / 2 \/ -1 <= 0) by (left; lra).
  split; [exact Hd |].
  exact (full_truncation_variance_step (-1) (1 / 2) 1
           (mkWorld notebook_params zero_draws 0) Hd).
Defined.

(** C8: for [num_paths >= 1], [price_call_option] simulates [num_paths]
    terminal values, applies the payoff [max(terminal - strike, 0)] to each
    and returns the mean of the payoffs paired with their standard deviation
    ([np.std], the root of the mean squared deviation) over the square root
    of [num_paths]; an exception raised by a simulation is raised by the
    pricer. *)
Theorem price_call_option_mean_and_standard_error
    {O : Type} `{Model O} (spot strike maturity : R) (num_steps num_paths : Z)
    (w : world O) :
  (1 <= num_paths)%Z ->
  price_call_option spot strike maturity num_steps num_paths w
  = price_call_spec spot strike maturity num_steps num_paths w /\
  forall terminals w',
    simulate_paths spot maturity num_steps (Z.to_nat num_paths) w = (Ok terminals, w') ->
    length terminals = Z.to_nat num_paths /\
    price_call_option spot strike maturity num_steps num_paths w
    = (Ok (np_average (map (call_payoff strike) terminals),
           np_std (map (call_payoff strike) terminals) / sqrt (IZR num_paths)), w').
Proof.
  intros Hn. split; [apply price_call_option_refines; exact Hn |].
  intros terminals w' E. split.
  - apply simulate_paths_length in E. exact E.
  - rewrite price_call_option_refines by exact Hn.
    unfold price_call_spec. rewrite (bind_ok _ _ _ _ _ E). reflexivity.
Qed.

Lemma price_call_option_mean_and_standard_error_witness :
  let w := mkWorld (BlackScholes.mk 0 (2 / 10)) zero_draws 0 in
  (1 <= 2)%Z /\
  exists terminals w',
    simulate_paths 100 5 1 2 w = (Ok terminals, w') /\
    length terminals = 2%nat /\
    price_call_option 100 100 5 1 2 w
    = (Ok (np_average (map (call_payoff 100) terminals),
           np_std (map (call_payoff 100) terminals) / sqrt 2), w').
Proof.
  intros w.
  assert (Hn : (1 <= 2)%Z) by lia.
  split; [exact Hn |].
  assert (Hmat : 0 <= 5) by lra.
  assert (Hsteps : (1 <= 1)%Z) by lia.
  destruct (black_scholes_simulate_stock_ok 100 5 1 (BlackScholes.mk 0 (2 / 10))
              zero_draws 0 Hmat Hsteps) as [v1 E1].
  destruct (black_scholes_simulate_stock_ok 100 5 1 (BlackScholes.mk 0 (2 / 10))
              zero_draws (0 + Z.to_nat 1) Hmat Hsteps) as [v2 E2].
  assert (E : simulate_paths 100 5 1 2 w
              = (Ok [v1; v2],
                 mkWorld (BlackScholes.mk 0 (2 / 10)) zero_draws
                   (0 + Z.to_nat 1 + Z.to_nat 1))).
  { unfold simulate_paths, w. cbn [for_range].
    unfold model_simulate_stock, BlackScholes_model.
    unfold bind at 1. rewrite (bind_ok _ _ _ _ _ E1). unfold ret at 1.
    unfold bind at 1. rewrite (bind_ok _ _ _ _ _ E2). reflexivity. }
  exists [v1; v2]. eexists. split; [exact E |].
  exact (proj2 (price_call_option_mean_and_standard_error 100 100 5 1 2 w Hn) _ _ E).
Defined.




(** C10, as stated, fails: in binary64 a degenerate path need not end in a
    division by zero.  The model has [kappa = 0] and [omega = 0], so every
    variance increment of the path is zero and so are the moments of the
    variance increments; over five steps of size one the second moment of
    the log-asset increments is rounded to a value below the square of the
    first, and [math.sqrt] raises a domain error before anything is
    divided. *)
Lemma diagnostics_domain_error_on_degenerate_path :
  Binary64.kappa (Binary64.base Binary64.degenerate_diagnostics64) = PrimFloat.zero /\
  Binary64.omega (Binary64.base Binary64.degenerate_diagnostics64) = PrimFloat.zero /\
  fst Binary64.degenerate_run = Raise ValueError /\
  fst Binary64.degenerate_run <> Raise ZeroDivisionError /\
  Binary64.var_incr_first_mom (Binary64.self (snd Binary64.degenerate_run))
  = PrimFloat.zero /\
  Binary64.var_incr_second_mom (Binary64.self (snd Binary64.degenerate_run))
  = PrimFloat.zero /\
  PrimFloat.ltb
    (Binary64.asset_incr_radicand (Binary64.self (snd Binary64.degenerate_run)))
    PrimFloat.zero = true.
Proof.
  assert (E : fst Binary64.degenerate_run = Raise ValueError)
    by (vm_compute; reflexivity).
  split; [reflexivity |]. split; [reflexivity |]. split; [exact E |].
  split; [rewrite E; discriminate |].
  split; [vm_compute; reflexivity |]. split; vm_compute; reflexivity.
Qed.

(** In binary64 too a one-step path ends in the division by zero: each
    radicand is the difference of two equal products. *)
Lemma binary64_single_step_divides_by_zero :
  fst Binary64.single_step_run = Raise ZeroDivisionError.
Proof. vm_compute. reflexivity. Qed.

(** C10, amended: for a correlation in [-1, 1], [spot > 0], [maturity >= 0]
    and [num_steps >= 1], [simulate_stock] of the diagnostics model fails
    instead of returning a terminal value in two cases.  When the path has a
    single step, the realized-correlation computation divides the covariance
    by a zero standard deviation: a division-by-zero error.  When
    [kappa = 0] and [omega = 0], every variance increment of the path is
    zero, and the run ends in a division-by-zero error or in a domain error
    of [math.sqrt]. *)
Theorem diagnostics_raises_on_degenerate_path
    (o : Diag.t) (stream : nat -> R) (d : nat) (spot maturity : R) (num_steps : Z) :
  -1 <= Heston.rho (Diag.base o) <= 1 ->
  0 < spot -> 0 <= maturity -> (1 <= num_steps)%Z ->
  (num_steps = 1%Z ->
   exists wd',
     Diag.simulate_stock spot maturity num_steps (mkWorld o stream d)
     = (Raise ZeroDivisionError, wd')) /\
  (Heston.kappa (Diag.base o) = 0 -> Heston.omega (Diag.base o) = 0 ->
   (exists ls wp',
      trace (Z.to_nat num_steps)
        (Heston.loop_body (Scheme0 := FT.scheme) (maturity / IZR num_steps))
        (Heston.mkLocals (Heston.initial_variance (Diag.base o)) (ln spot) None)
        (mkWorld (Diag.base o) stream d) = (Ok ls, wp') /\
      Forall (fun x => x = 0) (map snd (increments ls))) /\
   exists e wd',
     Diag.simulate_stock spot maturity num_steps (mkWorld o stream d) = (Raise e, wd') /\
     (e = ZeroDivisionError \/ e = ValueError)).
Proof.
  intros Hrho Hspot Hmat' Hn. apply rho_in_range in Hrho.
  pose proof (step_size_nonneg _ _ Hmat' Hn) as Hdt.
  split.
  - intros H1.
    apply diag_simulate_stock_degenerate; try assumption.
    left. apply single_increment_all_equal.
    rewrite length_map, length_increments_ft_path, H1. reflexivity.
  - intros Hk Ho. split.
    + eexists _, _. split.
      * apply (ft_trace_run (O := Heston.t)); assumption.
      * unfold Heston.fields, Heston.fields_t.
        apply ft_path_constant_variance; assumption.
    + destruct (diag_simulate_stock_degenerate spot maturity num_steps o stream d
                  Hrho Hspot Hmat' Hn) as [wd' E].
      { right. exists 0. apply ft_path_constant_variance; assumption. }
      exists ZeroDivisionError, wd'. split; [exact E | left; reflexivity].
Qed.

Lemma diagnostics_raises_on_degenerate_path_witness :
  (-1 <= Heston.rho notebook_params <= 1) /\
  (exists wd',
     Diag.simulate_stock 100 5 1
       (mkWorld (fresh_diagnostics notebook_params) zero_draws 0)
     = (Raise ZeroDivisionError, wd')) /\
  Heston.kappa heston_special_case = 0 /\
  Heston.omega heston_special_case = 0 /\
  exists e wd',
    Diag.simulate_stock 100 5 10
      (mkWorld (fresh_diagnostics heston_special_case) zero_draws 0)
    = (Raise e, wd').
Proof.
  assert (Hrho : -1 <= Heston.rho notebook_params <= 1) by (cbn; lra).
  assert (Hrho' : -1 <= Heston.rho heston_special_case <= 1) by (cbn; lra).
  assert (Hspot : 0 < 100) by lra.
  assert (Hmat : 0 <= 5) by lra.
  assert (Hone : (1 <= 1)%Z) by lia.
  assert (Hn : (1 <= 10)%Z) by lia.
  split; [exact Hrho |]. split.
  - exact (proj1 (diagnostics_raises_on_degenerate_path
                    (fresh_diagnostics notebook_params) zero_draws 0 100 5 1
                    Hrho Hspot Hmat Hone) eq_refl).
  - split; [reflexivity |]. split; [reflexivity |].
    destruct (proj2 (diagnostics_raises_on_degenerate_path
                       (fresh_diagnostics heston_special_case) zero_draws 0 100 5 10
                       Hrho' Hspot Hmat Hn) eq_refl eq_refl)
      as (_ & e & wd' & E & _).
    exists e, wd'. exact E.
Defined.

(** * Further properties of the notebook's code *)

(** ** Black-Scholes paths in closed form *)

Lemma black_scholes_increments_run dt (o : BlackScholes.t) stream n : forall d acc,
  0 <= dt ->
  exists v,
    for_range n
      (fun acc => z <- sc_randn ;; incr <- BlackScholes._simulate_increment dt z ;;
                  ret (acc + incr)) acc (mkWorld o stream d)
    = (Ok v, mkWorld o stream (d + n)) /\
    v = acc + (INR n * ((BlackScholes.mu o - 0.5 * BlackScholes.vol o * BlackScholes.vol o) * dt)
               + BlackScholes.vol o * sqrt dt * sum_list (draws_from stream d n)).
Proof.
  induction n as [| n IH]; intros d acc Hdt.
  - exists acc. cbn [for_range]. unfold ret. split.
    + do 2 f_equal. lia.
    + cbn. ring.
  - cbn [for_range].
    assert (Eb : (z <- sc_randn ;; incr <- BlackScholes._simulate_increment dt z ;;
                  ret (acc + incr)) (mkWorld o stream d)
                 = (Ok (acc + ((BlackScholes.mu o - 0.5 * BlackScholes.vol o
                                * BlackScholes.vol o) * dt
                               + BlackScholes.vol o * sqrt dt * stream d)),
                    mkWorld o stream (S d))).
    { unfold bind at 1. cbn [sc_randn self randn_stream drawn].
      unfold bind at 1. unfold BlackScholes._simulate_increment.
      unfold bind at 1. cbn [getattr self].
      unfold bind at 1. rewrite math_sqrt_ok by assumption.
      reflexivity. }
    rewrite (bind_ok _ _ _ _ _ Eb).
    destruct (IH (S d) (acc + ((BlackScholes.mu o - 0.5 * BlackScholes.vol o
                                 * BlackScholes.vol o) * dt
                                + BlackScholes.vol o * sqrt dt * stream d)) Hdt)
      as (v & E & Hv).
    exists v. split.
    + rewrite E. do 2 f_equal. lia.
    + rewrite Hv, S_INR. unfold draws_from. cbn [seq map sum_list fold_right].
      fold (sum_list (map stream (seq (S d) n))). ring.
Qed.

Lemma black_scholes_simulate_stock_run
    (o : BlackScholes.t) (stream : nat -> R) (d : nat) (spot maturity : R) (num_steps : Z) :
  0 <= maturity -> (1 <= num_steps)%Z ->
  exists v,
    BlackScholes.simulate_stock spot maturity num_steps (mkWorld o stream d)
    = (Ok v, mkWorld o stream (d + Z.to_nat num_steps)) /\
    v = spot * exp (0 + (INR (Z.to_nat num_steps)
                         * ((BlackScholes.mu o - 0.5 * BlackScholes.vol o * BlackScholes.vol o)
                            * (maturity / IZR num_steps))
                         + BlackScholes.vol o * sqrt (maturity / IZR num_steps)
                           * sum_list (draws_from stream d (Z.to_nat num_steps)))).
Proof.
  intros Hmat Hn. unfold BlackScholes.simulate_stock, BlackScholes.sum_increments.
  pose proof (IZR_pos_of_ge_1 _ Hn) as HN.
  unfold bind at 1. rewrite truediv_ok by lra.
  destruct (black_scholes_increments_run (maturity / IZR num_steps) o stream
              (Z.to_nat num_steps) d 0 (step_size_nonneg _ _ Hmat Hn)) as (v & E & Hv).
  rewrite (bind_ok _ _ _ _ _ E). unfold math_exp, bind, ret.
  eexists. split; [reflexivity |]. rewrite Hv. reflexivity.
Qed.

(** X1: with [maturity >= 0] and [num_steps >= 1], [BlackScholes.simulate_stock]
    takes [num_steps] draws and returns
    [spot * exp((mu - vol^2/2) * maturity + vol * sqrt(dt) * (sum of the draws))]:
    the drift over the whole path does not depend on the number of steps. *)
Theorem black_scholes_simulate_stock_closed_form
    (o : BlackScholes.t) (stream : nat -> R) (d : nat) (spot maturity : R) (num_steps : Z) :
  0 <= maturity -> (1 <= num_steps)%Z ->
  exists v,
    BlackScholes.simulate_stock spot maturity num_steps (mkWorld o stream d)
    = (Ok v, mkWorld o stream (d + Z.to_nat num_steps)) /\
    v = spot * exp ((BlackScholes.mu o - 0.5 * BlackScholes.vol o * BlackScholes.vol o)
                    * maturity
                    + BlackScholes.vol o * sqrt (maturity / IZR num_steps)
                      * sum_list (draws_from stream d (Z.to_nat num_steps))).
Proof.
  intros Hmat Hn. pose proof (IZR_pos_of_ge_1 _ Hn) as HN.
  destruct (black_scholes_simulate_stock_run o stream d spot maturity num_steps Hmat Hn)
    as (v & E & Hv).
  exists v. split; [exact E |].
  rewrite Hv. f_equal. f_equal.
  rewrite INR_IZR_INZ, Z2Nat.id by lia. field. lra.
Qed.

Lemma black_scholes_simulate_stock_closed_form_witness :
  0 <= 5 /\
  exists v,
    BlackScholes.simulate_stock 100 5 10 (mkWorld notebook_bs zero_draws 0)
    = (Ok v, mkWorld notebook_bs zero_draws 10) /\
    v = 100 * exp ((0 - 0.5 * (2 / 10) * (2 / 10)) * 5
                   + 2 / 10 * sqrt (5 / 10) * sum_list (draws_from zero_draws 0 10)).
Proof.
  assert (Hmat : 0 <= 5) by lra.
  assert (Hn : (1 <= 10)%Z) by lia.
  split; [exact Hmat |].
  exact (black_scholes_simulate_stock_closed_form notebook_bs zero_draws 0 100 5 10 Hmat Hn).
Defined.

(** X2: the edges of [BlackScholes.simulate_stock].  With [num_steps = 0] the
    step size cannot be computed and the call raises [ZeroDivisionError]; with
    a negative [num_steps] the loop is empty and the call returns [spot]
    itself, taking no draw; with a negative [maturity] and [num_steps >= 1] the
    first increment raises a domain error, after one draw. *)
Theorem black_scholes_simulate_stock_edges
    (o : BlackScholes.t) (stream : nat -> R) (d : nat) (spot maturity : R) (num_steps : Z) :
  (num_steps = 0%Z ->
   BlackScholes.simulate_stock spot maturity num_steps (mkWorld o stream d)
   = (Raise ZeroDivisionError, mkWorld o stream d)) /\
  ((num_steps < 0)%Z ->
   BlackScholes.simulate_stock spot maturity num_steps (mkWorld o stream d)
   = (Ok spot, mkWorld o stream d)) /\
  ((1 <= num_steps)%Z -> maturity < 0 ->
   BlackScholes.simulate_stock spot maturity num_steps (mkWorld o stream d)
   = (Raise ValueError, mkWorld o stream (S d))).
Proof.
  unfold BlackScholes.simulate_stock, BlackScholes.sum_increments.
  split; [| split].
  - intros ->. unfold bind at 1. rewrite truediv_raise by reflexivity. reflexivity.
  - intros Hn. unfold bind at 1.
    rewrite truediv_ok by (apply not_0_IZR; lia).
    replace (Z.to_nat num_steps) with O by lia. cbn [for_range].
    unfold bind, math_exp, ret. cbv beta iota.
    assert (E0 : spot * exp 0 = spot) by (rewrite exp_0; ring).
    rewrite E0. reflexivity.
  - intros Hn Hmat. pose proof (IZR_pos_of_ge_1 _ Hn) as HN.
    unfold bind at 1. rewrite truediv_ok by lra.
    destruct (Z.to_nat num_steps) as [| n] eqn:En; [lia |].
    assert (Hdt : maturity / IZR num_steps < 0).
    { apply Rmult_neg_pos; [exact Hmat | apply Rinv_0_lt_compat; exact HN]. }
    assert (Eb : (z <- sc_randn ;;
                  incr <- BlackScholes._simulate_increment (maturity / IZR num_steps) z ;;
                  ret (0 + incr)) (mkWorld o stream d)
                 = (Raise ValueError, mkWorld o stream (S d))).
    { unfold bind at 1. cbn [sc_randn self randn_stream drawn].
      unfold bind at 1. unfold BlackScholes._simulate_increment.
      unfold bind at 1. cbn [getattr self].
      unfold bind at 1. rewrite math_sqrt_raise by exact Hdt. reflexivity. }
    cbn [for_range].
    rewrite (bind_raise _ _ _ ValueError (mkWorld o stream (S d))); [reflexivity |].
    rewrite (bind_raise _ _ _ _ _ Eb). reflexivity.
Qed.

Lemma black_scholes_simulate_stock_edges_witness :
  BlackScholes.simulate_stock 100 5 0 (mkWorld notebook_bs zero_draws 0)
  = (Raise ZeroDivisionError, mkWorld notebook_bs zero_draws 0) /\
  BlackScholes.simulate_stock 100 5 (-3) (mkWorld notebook_bs zero_draws 0)
  = (Ok 100, mkWorld notebook_bs zero_draws 0) /\
  BlackScholes.simulate_stock 100 (-5) 10 (mkWorld notebook_bs zero_draws 0)
  = (Raise ValueError, mkWorld notebook_bs zero_draws 1).
Proof.
  split; [| split].
  - apply (proj1 (black_scholes_simulate_stock_edges notebook_bs zero_draws 0 100 5 0)).
    reflexivity.
  - apply (proj1 (proj2 (black_scholes_simulate_stock_edges
                           notebook_bs zero_draws 0 100 5 (-3)))).
    lia.
  - apply (proj2 (proj2 (black_scholes_simulate_stock_edges
                           notebook_bs zero_draws 0 100 (-5) 10))); [lia | lra].
Defined.

(** ** What a returned terminal value looks like *)

Lemma bind_ok_inv {O A B} (m : M O A) (k : A -> M O B) w b w' :
  bind m k w = (Ok b, w') -> exists a w1, m w = (Ok a, w1) /\ k a w1 = (Ok b, w').
Proof.
  unfold bind. destruct (m w) as [[a | e] w1]; intros E; [| discriminate].
  exists a, w1. split; [reflexivity | exact E].
Qed.

Lemma terminal_value_positive {O} (l : Heston.locals) (w : world O) v w' :
  match Heston.log_asset_next l with
  | Some log_asset => math_exp log_asset
  | None => raise UnboundLocalError
  end w = (Ok v, w') -> 0 < v.
Proof.
  destruct (Heston.log_asset_next l) as [la |]; unfold math_exp, ret, raise; intros E.
  - inversion E. apply exp_pos.
  - discriminate.
Qed.

(** X3: a terminal value that [simulate_stock] returns is strictly positive:
    for every class of the Heston family, whatever the scheme, the parameters
    and the draws, and for [BlackScholes] whenever [spot > 0]. *)
Theorem simulated_terminal_value_positive :
  (forall (O : Type) (F : Heston.Fields O) (S : Heston.Scheme O)
          spot maturity num_steps (w : world O) v w',
     Heston.simulate_stock spot maturity num_steps w = (Ok v, w') -> 0 < v) /\
  (forall spot maturity num_steps (w : world Diag.t) v w',
     Diag.simulate_stock spot maturity num_steps w = (Ok v, w') -> 0 < v) /\
  (forall spot maturity num_steps (w : world BlackScholes.t) v w',
     BlackScholes.simulate_stock spot maturity num_steps w = (Ok v, w') ->
     0 < spot -> 0 < v).
Proof.
  split; [| split].
  - intros O F S spot maturity num_steps w v w' E.
    unfold Heston.simulate_stock in E.
    apply bind_ok_inv in E. destruct E as (dt & w1 & _ & E).
    apply bind_ok_inv in E. destruct E as (this & w2 & _ & E).
    apply bind_ok_inv in E. destruct E as (l0 & w3 & _ & E).
    apply bind_ok_inv in E. destruct E as (l & w4 & _ & E).
    exact (terminal_value_positive l w4 v w' E).
  - intros spot maturity num_steps w v w' E.
    unfold Diag.simulate_stock in E.
    repeat (apply bind_ok_inv in E; destruct E as (? & ? & _ & E)).
    eapply terminal_value_positive. exact E.
  - intros spot maturity num_steps w v w' E Hspot.
    unfold BlackScholes.simulate_stock in E.
    apply bind_ok_inv in E. destruct E as (dt & w1 & _ & E).
    apply bind_ok_inv in E. destruct E as (inc & w2 & _ & E).
    apply bind_ok_inv in E. destruct E as (e & w3 & Ee & E).
    unfold math_exp, ret in Ee, E. inversion Ee. inversion E. subst.
    apply Rmult_lt_0_compat; [exact Hspot | apply exp_pos].
Qed.

Lemma simulated_terminal_value_positive_witness :
  exists v w',
    FT.simulate_stock 100 5 10 (mkWorld notebook_params zero_draws 0) = (Ok v, w') /\
    0 < v.
Proof.
  assert (Hrho : Heston.rho notebook_params * Heston.rho notebook_params <= 1)
    by (cbn; lra).
  assert (Hspot : 0 < 100) by lra.
  assert (Hmat : 0 <= 5) by lra.
  assert (Hn : (1 <= 10)%Z) by lia.
  pose proof (full_truncation_simulate_stock_run 100 5 10 notebook_params zero_draws 0
                Hrho Hspot Hmat Hn) as E.
  eexists _, _. split; [exact E |].
  exact (proj1 simulated_terminal_value_positive _ _ FT.scheme _ _ _ _ _ _ E).
Defined.

(** ** The edges of the Heston simulation *)

(** X4: the edges of [Heston.simulate_stock], for the naive, absorption and
    full-truncation classes alike.  With [num_steps = 0] it raises
    [ZeroDivisionError]; with a non-positive [spot] (and [num_steps <> 0]) the
    logarithm raises a domain error; with a negative [num_steps] and a
    positive [spot] the loop is empty, [log_asset_next] is never bound, and the
    [return] raises [UnboundLocalError].  In all three cases no draw is taken
    and the object is left as it was. *)
Theorem heston_simulate_stock_edges
    {O : Type} `{Heston.Fields O} `{!Heston.Scheme O}
    (spot maturity : R) (num_steps : Z) (w : world O) :
  (num_steps = 0%Z ->
   Heston.simulate_stock spot maturity num_steps w = (Raise ZeroDivisionError, w)) /\
  (num_steps <> 0%Z -> spot <= 0 ->
   Heston.simulate_stock spot maturity num_steps w = (Raise ValueError, w)) /\
  ((num_steps < 0)%Z -> 0 < spot ->
   Heston.simulate_stock spot maturity num_steps w = (Raise UnboundLocalError, w)).
Proof.
  unfold Heston.simulate_stock. split; [| split].
  - intros ->. unfold bind at 1. rewrite truediv_raise by reflexivity. reflexivity.
  - intros Hn Hspot. unfold bind at 1. rewrite truediv_ok by (apply not_0_IZR; exact Hn).
    unfold bind at 1. cbn [getattr].
    unfold bind at 1. unfold math_log.
    destruct (Rle_dec spot 0) as [_ | Hc]; [reflexivity | contradiction].
  - intros Hn Hspot. unfold bind at 1. rewrite truediv_ok by (apply not_0_IZR; lia).
    unfold bind at 1. cbn [getattr].
    unfold bind at 1. rewrite math_log_ok by exact Hspot.
    replace (Z.to_nat num_steps) with 0%nat by lia. cbn [for_range].
    unfold bind, ret. cbn [Heston.log_asset_next]. reflexivity.
Qed.

Lemma heston_simulate_stock_edges_witness :
  let w := mkWorld (Abs.mk notebook_params 0) zero_draws 0 in
  Abs.simulate_stock 100 5 0 w = (Raise ZeroDivisionError, w) /\
  Abs.simulate_stock 0 5 10 w = (Raise ValueError, w) /\
  Abs.simulate_stock 100 5 (-1) w = (Raise UnboundLocalError, w).
Proof.
  intros w. unfold Abs.simulate_stock. split; [| split].
  - apply (proj1 (heston_simulate_stock_edges 100 5 0 w)). reflexivity.
  - apply (proj1 (proj2 (heston_simulate_stock_edges 0 5 10 w))); [lia | lra].
  - apply (proj2 (proj2 (heston_simulate_stock_edges 100 5 (-1) w))); [lia | lra].
Defined.

(** ** How far the absorption counter can go *)

Lemma counter_gain_bind {A B} (k1 k2 : Z) (m : M Abs.t A) (k : A -> M Abs.t B) :
  (0 <= k2)%Z ->
  counter_gain k1 m -> (forall a, counter_gain k2 (k a)) ->
  counter_gain (k1 + k2) (bind m k).
Proof.
  intros H2 Hm Hk w. unfold bind. specialize (Hm w).
  destruct (m w) as [[a | e] w1]; cbn [snd] in *.
  - specialize (Hk a w1). lia.
  - lia.
Qed.

Lemma counter_gain_pure {A} (m : M Abs.t A) :
  (forall w, self (snd (m w)) = self w) -> counter_gain 0 m.
Proof. intros E w. rewrite E. lia. Qed.

Lemma counter_gain_for_range {St} (k : Z) (body : St -> M Abs.t St) n :
  (0 <= k)%Z ->
  (forall s, counter_gain k (body s)) ->
  forall s, counter_gain (Z.of_nat n * k) (for_range n body s).
Proof.
  intros Hk Hb. induction n as [| n IH]; intros s; cbn [for_range].
  - apply counter_gain_pure. reflexivity.
  - replace (Z.of_nat (S n) * k)%Z with (k + Z.of_nat n * k)%Z by lia.
    apply counter_gain_bind; [lia | apply Hb | exact IH].
Qed.

Lemma counter_gain_variance_step var_prev dt randn :
  counter_gain 1 (Abs._simulate_variance_next_step var_prev dt randn).
Proof.
  intros w.
  destruct (absorption_variance_world var_prev dt randn w) as (_ & _ & _ & E).
  rewrite E. destruct (Rgt_dec var_prev 0); lia.
Qed.

Ltac gain_pure_step :=
  apply counter_gain_pure; intros w;
  unfold math_sqrt, math_log, math_exp, truediv, getattr, sc_randn, ret, raise;
  repeat match goal with
         | |- context [Rlt_dec ?a ?b] => destruct (Rlt_dec a b)
         | |- context [Rle_dec ?a ?b] => destruct (Rle_dec a b)
         | |- context [Req_EM_T ?a ?b] => destruct (Req_EM_T a b)
         end; reflexivity.

Ltac gain_bind k1 k2 :=
  match goal with
  | |- counter_gain ?k _ =>
      replace k with (k1 + k2)%Z by lia; apply counter_gain_bind; [lia | |]
  end.

Lemma counter_gain_loop_body dt l :
  counter_gain 1 (Heston.loop_body (Scheme0 := Abs.scheme) dt l).
Proof.
  unfold Heston.loop_body.
  gain_bind 0%Z 1%Z; [gain_pure_step | intros z1].
  gain_bind 0%Z 1%Z; [gain_pure_step | intros this].
  gain_bind 0%Z 1%Z; [gain_pure_step | intros root].
  gain_bind 0%Z 1%Z; [gain_pure_step | intros z2].
  gain_bind 1%Z 0%Z; [apply counter_gain_variance_step | intros v].
  gain_bind 0%Z 0%Z; [| intros la; gain_pure_step].
  cbn [Heston.log_asset_next_step Abs.scheme].
  unfold Heston._simulate_log_asset_next_step.
  gain_bind 0%Z 0%Z; [gain_pure_step | intros this'].
  gain_bind 0%Z 0%Z; [gain_pure_step | intros r; gain_pure_step].
Qed.

Lemma counter_gain_simulate_stock spot maturity num_steps :
  counter_gain (Z.max 0 num_steps) (Abs.simulate_stock spot maturity num_steps).
Proof.
  unfold Abs.simulate_stock, Heston.simulate_stock.
  gain_bind 0%Z (Z.max 0 num_steps); [gain_pure_step | intros dt].
  gain_bind 0%Z (Z.max 0 num_steps); [gain_pure_step | intros this].
  gain_bind 0%Z (Z.max 0 num_steps); [gain_pure_step | intros l0].
  gain_bind (Z.max 0 num_steps) 0%Z.
  - replace (Z.max 0 num_steps) with (Z.of_nat (Z.to_nat num_steps) * 1)%Z by lia.
    apply counter_gain_for_range; [lia |]. intros l. apply counter_gain_loop_body.
  - intros l. destruct (Heston.log_asset_next l); gain_pure_step.
Qed.

(** X5: the absorption counter goes up by at most one per time step: over a
    call of [simulate_stock] it grows by at most [num_steps], and over a call
    of [price_call_option] by at most [num_paths * num_steps], whether the
    call returns or raises.  The notebook's ratio of the counter to
    [num_steps * num_paths] is therefore at most one for a fresh object. *)
Theorem absorption_counter_bounded_by_steps
    (spot strike maturity : R) (num_steps num_paths : Z) (w : world Abs.t) :
  let c := Abs.number_of_negative_variances (self w) in
  (c <= Abs.number_of_negative_variances
          (self (snd (Abs.simulate_stock spot maturity num_steps w)))
     <= c + Z.max 0 num_steps)%Z /\
  (c <= Abs.number_of_negative_variances
          (self (snd (price_call_option spot strike maturity num_steps num_paths w)))
     <= c + Z.max 0 num_paths * Z.max 0 num_steps)%Z.
Proof.
  intros c. split.
  - apply (counter_gain_simulate_stock spot maturity num_steps w).
  - revert w c.
    change (counter_gain (Z.max 0 num_paths * Z.max 0 num_steps)
              (price_call_option spot strike maturity num_steps num_paths)).
    unfold price_call_option.
    gain_bind (Z.max 0 num_paths * Z.max 0 num_steps)%Z 0%Z.
    + replace (Z.max 0 num_paths) with (Z.of_nat (Z.to_nat num_paths)) by lia.
      apply counter_gain_for_range; [lia |]. intros acc.
      gain_bind (Z.max 0 num_steps) 0%Z.
      * apply counter_gain_simulate_stock.
      * intros s. gain_pure_step.
    + intros realisations.
      gain_bind 0%Z 0%Z; [gain_pure_step | intros root].
      gain_bind 0%Z 0%Z; [gain_pure_step | intros q; gain_pure_step].
Qed.

(** ** Where the schemes agree *)

(** X6: on a non-negative variance and a non-negative step size the three
    schemes take the same step: the naive and the full-truncation variance
    transitions return the same value [raw], the absorption transition
    returns [max(raw, 0)] (so the same value when [raw >= 0]), and the three
    log-asset transitions return the same value. *)
Theorem schemes_agree_on_nonnegative_variance
    (h : Heston.t) (c : Z) (stream : nat -> R) (d : nat) (L V dt z : R) :
  0 <= V -> 0 <= dt ->
  let w := mkWorld h stream d in
  let wa := mkWorld (Abs.mk h c) stream d in
  let raw := (1 - Heston.kappa h * dt) * V + Heston.kappa h * dt * Heston.theta h
             + Heston.omega h * sqrt (V * dt) * z in
  let L' := L + ((Heston.mu h - 0.5 * V) * dt + sqrt (V * dt) * z) in
  Heston.variance_next_step (Scheme := Heston.scheme) V dt z w = (Ok raw, w) /\
  Heston.variance_next_step (Scheme := FT.scheme) V dt z w = (Ok raw, w) /\
  fst (Heston.variance_next_step (Scheme := Abs.scheme) V dt z wa) = Ok (Rmax raw 0) /\
  (0 <= raw -> fst (Heston.variance_next_step (Scheme := Abs.scheme) V dt z wa) = Ok raw) /\
  Heston.log_asset_next_step (Scheme := Heston.scheme) L V dt z w = (Ok L', w) /\
  Heston.log_asset_next_step (Scheme := FT.scheme) L V dt z w = (Ok L', w) /\
  Heston.log_asset_next_step (Scheme := Abs.scheme) L V dt z wa = (Ok L', wa).
Proof.
  intros HV Hdt w wa raw L'.
  assert (Hprod : 0 <= V * dt) by (apply Rmult_le_pos; assumption).
  assert (Habs : fst (Heston.variance_next_step (Scheme := Abs.scheme) V dt z wa)
                 = Ok (Rmax raw 0)).
  { cbn [Heston.variance_next_step Abs.scheme].
    destruct (Rle_lt_or_eq_dec 0 V HV) as [Hpos | Hzero].
    - unfold wa. rewrite absorption_variance_pos by assumption. reflexivity.
    - unfold wa. rewrite absorption_variance_nonpos by lra. cbn [fst self Abs.base].
      f_equal. f_equal. unfold raw. rewrite <- Hzero.
      replace (0 * dt) with 0 by ring. rewrite sqrt_0. ring. }
  cbn [Heston.variance_next_step Heston.log_asset_next_step
       Heston.scheme FT.scheme Abs.scheme].
  repeat split.
  - unfold w. rewrite naive_variance_ok by exact Hprod. reflexivity.
  - unfold w. rewrite full_truncation_variance_ok by (rewrite Rmax_left; assumption).
    rewrite Rmax_left by exact HV.
    do 2 f_equal. unfold raw, Heston.fields, Heston.fields_t. cbn [self]. ring.
  - exact Habs.
  - intros Hraw. cbn [Heston.variance_next_step Abs.scheme] in Habs.
    rewrite Habs. rewrite Rmax_left by exact Hraw. reflexivity.
  - unfold w. rewrite naive_log_asset_ok by exact Hprod. reflexivity.
  - unfold w. rewrite full_truncation_log_asset_ok by (rewrite Rmax_left; assumption).
    rewrite Rmax_left by exact HV. reflexivity.
  - unfold wa. rewrite naive_log_asset_ok by exact Hprod. reflexivity.
Qed.

Lemma schemes_agree_on_nonnegative_variance_witness :
  0 <= 9 / 100 /\
  Heston.variance_next_step (Scheme := Heston.scheme) (9 / 100) (1 / 2) 1
    (mkWorld notebook_params zero_draws 0)
  = Heston.variance_next_step (Scheme := FT.scheme) (9 / 100) (1 / 2) 1
      (mkWorld notebook_params zero_draws 0).
Proof.
  assert (HV : 0 <= 9 / 100) by lra.
  assert (Hdt : 0 <= 1 / 2) by lra.
  split; [exact HV |].
  destruct (schemes_agree_on_nonnegative_variance notebook_params 0 zero_draws 0
              0 (9 / 100) (1 / 2) 1 HV Hdt) as (E1 & E2 & _).
  rewrite E1, E2. reflexivity.
Defined.

(** ** The Black-Scholes case of the Heston model *)

Lemma sqrt_square_mult (sigma dt : R) :
  0 <= sigma -> 0 <= dt -> sqrt (sigma * sigma * dt) = sigma * sqrt dt.
Proof.
  intros Hs Hdt. rewrite sqrt_mult by nra. rewrite sqrt_square by assumption. reflexivity.
Qed.

Lemma heston_constant_variance_loop mu theta sigma dt stream n : forall k l,
  0 <= sigma -> 0 <= dt ->
  Heston.var_prev l = sigma * sigma ->
  exists l',
    for_range n (Heston.loop_body (Scheme0 := Heston.scheme) dt) l
      (mkWorld (Heston.mk mu 0 theta 0 0 (sigma * sigma)) stream (2 * k))
    = (Ok l', mkWorld (Heston.mk mu 0 theta 0 0 (sigma * sigma)) stream (2 * (k + n))) /\
    Heston.var_prev l' = sigma * sigma /\
    (n <> 0%nat -> Heston.log_asset_next l' = Some (Heston.log_asset_prev l')) /\
    Heston.log_asset_prev l'
    = Heston.log_asset_prev l
      + (INR n * ((mu - 0.5 * sigma * sigma) * dt)
         + sigma * sqrt dt * sum_list (draws_from (fun i => stream (S (2 * i))) k n)).
Proof.
  induction n as [| n IH]; intros k l Hs Hdt Hv.
  - exists l. cbn [for_range]. unfold ret. repeat split.
    + do 2 f_equal. lia.
    + exact Hv.
    + congruence.
    + cbn. ring.
  - cbn [for_range].
    set (h := Heston.mk mu 0 theta 0 0 (sigma * sigma)).
    assert (Eb : exists l1,
               Heston.loop_body (Scheme0 := Heston.scheme) dt l (mkWorld h stream (2 * k))
               = (Ok l1, mkWorld h stream (2 * S k)) /\
               Heston.var_prev l1 = sigma * sigma /\
               Heston.log_asset_next l1 = Some (Heston.log_asset_prev l1) /\
               Heston.log_asset_prev l1
               = Heston.log_asset_prev l
                 + ((mu - 0.5 * sigma * sigma) * dt + sigma * sqrt dt * stream (S (2 * k)))).
    { unfold Heston.loop_body.
      unfold bind at 1. cbn [sc_randn self randn_stream drawn].
      unfold bind at 1. cbn [getattr self].
      unfold bind at 1. unfold Heston.fields at 1 2, Heston.fields_t. cbn [h Heston.rho].
      rewrite math_sqrt_ok by lra.
      unfold bind at 1. cbn [sc_randn self randn_stream drawn].
      unfold bind at 1. cbn [Heston.variance_next_step Heston.scheme].
      rewrite naive_variance_ok by (rewrite Hv; nra).
      unfold bind at 1. cbn [Heston.log_asset_next_step Heston.scheme].
      rewrite naive_log_asset_ok by (rewrite Hv; nra).
      unfold ret. eexists. split; [| split; [| split]].
      - f_equal. f_equal. lia.
      - cbn [Heston.var_prev self Heston.fields Heston.fields_t h Heston.kappa
             Heston.theta Heston.omega].
        unfold Heston.fields, Heston.fields_t. cbn [Heston.kappa Heston.omega Heston.theta].
        rewrite Hv. ring.
      - reflexivity.
      - cbn [Heston.log_asset_prev self]. unfold Heston.fields, Heston.fields_t.
        cbn [Heston.mu]. rewrite Hv.
        rewrite sqrt_square_mult by assumption.
        unfold h. cbn [Heston.mu Heston.rho].
        replace (1 - 0 * 0) with 1 by ring. rewrite sqrt_1. ring. }
    destruct Eb as (l1 & E1 & Hv1 & Hn1 & Hl1). subst h.
    rewrite (bind_ok _ _ _ _ _ E1).
    destruct (IH (S k) l1 Hs Hdt Hv1) as (l2 & E2 & Hv2 & Hn2 & Hl2).
    exists l2. repeat split.
    + rewrite E2. do 2 f_equal. lia.
    + exact Hv2.
    + intros _. destruct n as [| n].
      * cbn [for_range] in E2. unfold ret in E2. inversion E2. subst l2. exact Hn1.
      * apply Hn2. discriminate.
    + rewrite Hl2, Hl1, S_INR. unfold draws_from. cbn [seq map sum_list fold_right].
      fold (sum_list (map (fun i => stream (S (2 * i))) (seq (S k) n))). ring.
Qed.

(** X7: with [kappa = 0], [omega = 0], [rho = 0] and [V0 = sigma^2] the Heston
    simulation is the Black-Scholes simulation with volatility [sigma]: on a
    stream of draws the naive [Heston.simulate_stock] returns exactly the value
    that [BlackScholes.simulate_stock] returns on the draws the Heston loop
    uses for the asset (every second one). *)
Theorem heston_degenerate_is_black_scholes
    (mu theta sigma : R) (stream : nat -> R) (spot maturity : R) (num_steps : Z) :
  0 <= sigma -> 0 < spot -> 0 <= maturity -> (1 <= num_steps)%Z ->
  exists v,
    Heston_model spot maturity num_steps
      (mkWorld (Heston.mk mu 0 theta 0 0 (sigma * sigma)) stream 0)
    = (Ok v, mkWorld (Heston.mk mu 0 theta 0 0 (sigma * sigma)) stream
               (2 * Z.to_nat num_steps)) /\
    BlackScholes.simulate_stock spot maturity num_steps
      (mkWorld (BlackScholes.mk mu sigma) (fun i => stream (S (2 * i))) 0)
    = (Ok v, mkWorld (BlackScholes.mk mu sigma) (fun i => stream (S (2 * i)))
               (Z.to_nat num_steps)).
Proof.
  intros Hs Hspot Hmat Hn.
  pose proof (IZR_pos_of_ge_1 _ Hn) as HN.
  pose proof (step_size_nonneg _ _ Hmat Hn) as Hdt.
  destruct (black_scholes_simulate_stock_run (BlackScholes.mk mu sigma)
              (fun i => stream (S (2 * i))) 0 spot maturity num_steps Hmat Hn)
    as (vb & Eb & Hvb).
  cbn [BlackScholes.mu BlackScholes.vol] in Hvb.
  exists vb. split; [| exact Eb].
  unfold Heston_model, Heston.simulate_stock.
  unfold bind at 1. rewrite truediv_ok by lra.
  unfold bind at 1. cbn [getattr self].
  unfold bind at 1. rewrite math_log_ok by exact Hspot.
  unfold Heston.fields at 1, Heston.fields_t. cbn [Heston.initial_variance].
  destruct (heston_constant_variance_loop mu theta sigma (maturity / IZR num_steps) stream
              (Z.to_nat num_steps) 0
              (Heston.mkLocals (sigma * sigma) (ln spot) None) Hs Hdt eq_refl)
    as (l & El & _ & Hsome & Hl).
  change (2 * 0)%nat with 0%nat in El.
  rewrite (bind_ok _ _ _ _ _ El).
  rewrite Hsome by lia. unfold math_exp, ret.
  f_equal. f_equal. rewrite Hl, Hvb. cbn [Heston.log_asset_prev].
  rewrite exp_plus, exp_ln by exact Hspot. f_equal. f_equal. ring.
Qed.

Lemma heston_degenerate_is_black_scholes_witness :
  0 <= 2 / 10 /\
  exists v w' wb',
    Heston_model 100 5 1%Z (mkWorld heston_special_case zero_draws 0) = (Ok v, w') /\
    BlackScholes.simulate_stock 100 5 1
      (mkWorld notebook_bs (fun i => zero_draws (S (2 * i))) 0) = (Ok v, wb').
Proof.
  assert (Hs : 0 <= 2 / 10) by lra.
  assert (Hspot : 0 < 100) by lra.
  assert (Hmat : 0 <= 5) by lra.
  assert (Hn : (1 <= 1)%Z) by lia.
  split; [exact Hs |].
  destruct (heston_degenerate_is_black_scholes 0 0 (2 / 10) zero_draws 100 5 1
              Hs Hspot Hmat Hn) as (v & Eh & Eb).
  exists v. eexists _, _. split; [exact Eh | exact Eb].
Defined.

(** ** The realised correlation lies between -1 and 1 *)

Lemma sum_list_linear (t : R) (incs : list (R * R)) :
  sum_list (map (fun p => fst p + t * snd p) incs)
  = sum_list (map fst incs) + t * sum_list (map snd incs) /\
  sum_list (map (fun x => x * x) (map (fun p => fst p + t * snd p) incs))
  = sum_list (map (fun x => x * x) (map fst incs))
    + 2 * t * sum_list (map (fun p => fst p * snd p) incs)
    + t * t * sum_list (map (fun x => x * x) (map snd incs)).
Proof.
  induction incs as [| [a b] incs [IH1 IH2]].
  - cbn. split; ring.
  - cbn [map sum_list fold_right fst snd].
    fold (sum_list (map (fun p => fst p + t * snd p) incs)).
    fold (sum_list (map fst incs)). fold (sum_list (map snd incs)).
    fold (sum_list (map (fun x => x * x) (map (fun p => fst p + t * snd p) incs))).
    fold (sum_list (map (fun x => x * x) (map fst incs))).
    fold (sum_list (map (fun x => x * x) (map snd incs))).
    fold (sum_list (map (fun p => fst p * snd p) incs)).
    rewrite IH1, IH2. split; ring.
Qed.

Lemma sample_variance_linear (q t : R) (incs : list (R * R)) :
  sample_variance q (map (fun p => fst p + t * snd p) incs)
  = sample_variance q (map fst incs) + 2 * t * sample_covariance q incs
    + t * t * sample_variance q (map snd incs).
Proof.
  unfold sample_variance, sample_covariance.
  destruct (sum_list_linear t incs) as [E1 E2]. rewrite E1, E2. ring.
Qed.

Lemma nonnegative_quadratic (a b c : R) :
  0 <= c -> (forall t, 0 <= a + 2 * t * b + t * t * c) -> b * b <= a * c.
Proof.
  intros Hc Hq. destruct (Rle_lt_or_eq_dec 0 c Hc) as [Hpos | Hzero].
  - specialize (Hq (- b / c)).
    assert (E : a + 2 * (- b / c) * b + - b / c * (- b / c) * c = (a * c - b * b) / c).
    { field. lra. }
    rewrite E in Hq.
    assert (Hinv : 0 < / c) by (apply Rinv_0_lt_compat; exact Hpos).
    unfold Rdiv in Hq. nra.
  - subst c. destruct (Req_EM_T b 0) as [Hb | Hb].
    + subst b. lra.
    + exfalso. specialize (Hq (- (a + 1) / (2 * b))).
      assert (E : a + 2 * (- (a + 1) / (2 * b)) * b
                  + - (a + 1) / (2 * b) * (- (a + 1) / (2 * b)) * 0 = -1).
      { field. exact Hb. }
      rewrite E in Hq. lra.
Qed.

Lemma sample_cauchy_schwarz (q : R) (incs : list (R * R)) :
  0 <= q -> q * INR (length incs) = 1 ->
  sample_covariance q incs * sample_covariance q incs
  <= sample_variance q (map fst incs) * sample_variance q (map snd incs).
Proof.
  intros Hq0 Hq. apply nonnegative_quadratic.
  - apply sample_variance_nonneg; [exact Hq0 | rewrite length_map; exact Hq].
  - intros t. rewrite <- sample_variance_linear.
    apply sample_variance_nonneg; [exact Hq0 | rewrite length_map; exact Hq].
Qed.

Lemma correlation_bounded (cov va vb : R) :
  0 <= va -> 0 <= vb -> cov * cov <= va * vb -> sqrt va * sqrt vb <> 0 ->
  -1 <= cov / (sqrt va * sqrt vb) <= 1.
Proof.
  intros Hva Hvb Hcs Hnz.
  pose proof (sqrt_pos va) as Ha. pose proof (sqrt_pos vb) as Hb.
  set (s := sqrt va * sqrt vb) in *.
  assert (Hs : 0 < s).
  { assert (0 <= s) by (unfold s; nra). lra. }
  assert (Hss : s * s = va * vb).
  { unfold s. replace (sqrt va * sqrt vb * (sqrt va * sqrt vb))
      with ((sqrt va * sqrt va) * (sqrt vb * sqrt vb)) by ring.
    rewrite !sqrt_sqrt by assumption. reflexivity. }
  assert (Hc : - s <= cov <= s) by nra.
  split.
  - apply Rmult_le_reg_r with s; [exact Hs |].
    unfold Rdiv. rewrite Rmult_assoc, Rinv_l by lra. lra.
  - apply Rmult_le_reg_r with s; [exact Hs |].
    unfold Rdiv. rewrite Rmult_assoc, Rinv_l by lra. lra.
Qed.

(** ** What a diagnostics run leaves in the object *)

Lemma diag_simulate_stock_outcome spot maturity num_steps (o : Diag.t) stream d :
  Heston.rho (Diag.base o) * Heston.rho (Diag.base o) <= 1 ->
  0 < spot -> 0 <= maturity -> (1 <= num_steps)%Z ->
  let l0 := Heston.mkLocals (Heston.initial_variance (Diag.base o)) (ln spot) None in
  let path := ft_path (Diag.base o) (maturity / IZR num_steps) stream d
                (Z.to_nat num_steps) l0 in
  let incs := increments path in
  let q := 1 / IZR num_steps in
  let sa := sample_variance q (map fst incs) in
  let sb := sample_variance q (map snd incs) in
  exists o',
    Diag.base o' = Diag.base o /\
    Diag.num_paths o' = (Diag.num_paths o + 1)%Z /\
    Diag.log_asset_incr_first_mom o' = q * sum_list (map fst incs) /\
    Diag.log_asset_incr_second_mom o' = q * sum_list (map (fun x => x * x) (map fst incs)) /\
    Diag.var_incr_first_mom o' = q * sum_list (map snd incs) /\
    Diag.var_incr_second_mom o' = q * sum_list (map (fun x => x * x) (map snd incs)) /\
    Diag.cross_first_mom o' = q * sum_list (map (fun p => fst p * snd p) incs) /\
    (sqrt sa * sqrt sb = 0 \/ (Diag.num_paths o + 1)%Z = 0%Z ->
     Diag.simulate_stock spot maturity num_steps (mkWorld o stream d)
     = (Raise ZeroDivisionError, mkWorld o' stream (d + 2 * Z.to_nat num_steps)) /\
     Diag.avg_correlation o' = Diag.avg_correlation o) /\
    (sqrt sa * sqrt sb <> 0 -> (Diag.num_paths o + 1)%Z <> 0%Z ->
     Diag.simulate_stock spot maturity num_steps (mkWorld o stream d)
     = (Ok (exp (Heston.log_asset_prev (last path l0))),
        mkWorld o' stream (d + 2 * Z.to_nat num_steps)) /\
     Diag.avg_correlation o'
     = (Diag.avg_correlation o * IZR (Diag.num_paths o)
        + sample_covariance q incs / (sqrt sa * sqrt sb)) / IZR (Diag.num_paths o + 1)).
Proof.
  intros Hrho Hspot Hmat Hn l0 path incs q sa sb.
  pose proof (IZR_pos_of_ge_1 _ Hn) as HN.
  assert (Hq0 : 0 <= q).
  { unfold q. apply Rmult_le_pos; [lra | left; apply Rinv_0_lt_compat; exact HN]. }
  assert (Hlen : q * INR (length incs) = 1).
  { unfold incs, path. rewrite length_increments_ft_path. apply weight_sums_to_one. exact Hn. }
  assert (Hsa : 0 <= sa).
  { apply sample_variance_nonneg; [exact Hq0 | rewrite length_map; exact Hlen]. }
  assert (Hsb : 0 <= sb).
  { apply sample_variance_nonneg; [exact Hq0 | rewrite length_map; exact Hlen]. }
  set (o0 := Diag.mk (Diag.base o) (Diag.num_paths o) (Diag.avg_correlation o) 0 0 0 0 0).
  destruct (fold_moments_fields q incs o0) as (E1 & E2 & E3 & E4 & E5 & E6 & E7).
  pose proof (fold_moments_base q incs o0) as E0.
  cbn [o0 Diag.base Diag.num_paths Diag.avg_correlation Diag.log_asset_incr_first_mom
       Diag.log_asset_incr_second_mom Diag.var_incr_first_mom Diag.var_incr_second_mom
       Diag.cross_first_mom] in E0, E1, E2, E3, E4, E5, E6, E7.
  set (o1 := fold_moments q incs o0) in *.
  set (o2 := Diag.set_num_paths (Diag.num_paths o + 1) o1).
  set (corr := sample_covariance q incs / (sqrt sa * sqrt sb)).
  set (o3 := Diag.set_avg_correlation
               ((Diag.avg_correlation o * IZR (Diag.num_paths o) + corr)
                / IZR (Diag.num_paths o + 1)) o2).
  assert (Hrun :
    Diag.simulate_stock spot maturity num_steps (mkWorld o stream d)
    = if Req_EM_T (sqrt sa * sqrt sb) 0
      then (Raise ZeroDivisionError, mkWorld o2 stream (d + 2 * Z.to_nat num_steps))
      else if Z.eq_dec (Diag.num_paths o + 1) 0
           then (Raise ZeroDivisionError, mkWorld o2 stream (d + 2 * Z.to_nat num_steps))
           else (Ok (exp (Heston.log_asset_prev (last path l0))),
                 mkWorld o3 stream (d + 2 * Z.to_nat num_steps))).
  { unfold Diag.simulate_stock.
    unfold bind at 1. rewrite diag_clear_statistics_run.
    unfold bind at 1. rewrite truediv_ok by lra.
    unfold bind at 1. cbn [getattr self].
    unfold bind at 1. rewrite math_log_ok by assumption.
    unfold bind at 1. unfold Heston.fields at 1, Diag.fields_t. cbn [Diag.base].
    rewrite diag_loop_run
      by (cbn [Diag.base]; try apply step_size_nonneg; try lra; assumption).
    cbn [Diag.base]. fold l0. fold path. fold incs. fold q. fold o0. fold o1.
    pose proof (diag_calculate_correlation_run o1 stream (d + 2 * Z.to_nat num_steps))
      as Hc.
    cbv zeta in Hc.
    assert (Ea : Diag.log_asset_incr_second_mom o1
                 - Diag.log_asset_incr_first_mom o1 * Diag.log_asset_incr_first_mom o1
                 = sa).
    { rewrite E3, E4. unfold sa, sample_variance. ring. }
    assert (Eb : Diag.var_incr_second_mom o1
                 - Diag.var_incr_first_mom o1 * Diag.var_incr_first_mom o1 = sb).
    { rewrite E5, E6. unfold sb, sample_variance. ring. }
    assert (Ec : Diag.cross_first_mom o1
                 - Diag.log_asset_incr_first_mom o1 * Diag.var_incr_first_mom o1
                 = sample_covariance q incs).
    { rewrite E3, E5, E7. unfold sample_covariance. ring. }
    rewrite Ea, Eb, Ec in Hc. specialize (Hc Hsa Hsb).
    unfold bind at 1. rewrite Hc. rewrite E1. fold o2. fold corr.
    destruct (Req_EM_T (sqrt sa * sqrt sb) 0) as [Hz | Hnz]; [reflexivity |].
    unfold bind at 1. cbn [getattr self].
    unfold bind at 1. cbn [getattr self].
    unfold bind at 1.
    assert (Hnp : Diag.num_paths o2 = (Diag.num_paths o + 1)%Z) by reflexivity.
    assert (Havg : Diag.avg_correlation o2 = Diag.avg_correlation o).
    { unfold o2. cbn [Diag.set_num_paths Diag.avg_correlation]. exact E2. }
    rewrite Hnp, Havg.
    destruct (Z.eq_dec (Diag.num_paths o + 1) 0) as [Hp | Hp].
    - rewrite truediv_raise by (rewrite Hp; reflexivity). reflexivity.
    - rewrite truediv_ok by (apply not_0_IZR; exact Hp).
      unfold bind at 1. cbn [setattr self randn_stream drawn].
      assert (Hl : Heston.log_asset_next (last path l0)
                   = Some (Heston.log_asset_prev (last path l0))).
      { apply ft_path_last_bound. left. lia. }
      rewrite Hl. unfold math_exp, ret.
      replace (Diag.num_paths o + 1 - 1)%Z with (Diag.num_paths o) by lia.
      reflexivity. }
  assert (F2 : Diag.base o2 = Diag.base o /\
               Diag.num_paths o2 = (Diag.num_paths o + 1)%Z /\
               Diag.avg_correlation o2 = Diag.avg_correlation o /\
               Diag.log_asset_incr_first_mom o2 = q * sum_list (map fst incs) /\
               Diag.log_asset_incr_second_mom o2
               = q * sum_list (map (fun x => x * x) (map fst incs)) /\
               Diag.var_incr_first_mom o2 = q * sum_list (map snd incs) /\
               Diag.var_incr_second_mom o2
               = q * sum_list (map (fun x => x * x) (map snd incs)) /\
               Diag.cross_first_mom o2 = q * sum_list (map (fun p => fst p * snd p) incs)).
  { unfold o2.
    cbn [Diag.set_num_paths Diag.base Diag.num_paths Diag.avg_correlation
         Diag.log_asset_incr_first_mom Diag.log_asset_incr_second_mom
         Diag.var_incr_first_mom Diag.var_incr_second_mom Diag.cross_first_mom].
    rewrite E0, E2, E3, E4, E5, E6, E7.
    repeat split; try reflexivity; ring. }
  destruct F2 as (G0 & G1 & G2 & G3 & G4 & G5 & G6 & G7).
  rewrite Hrun. clear Hrun.
  destruct (Req_EM_T (sqrt sa * sqrt sb) 0) as [Hz | Hnz].
  - exists o2. repeat split; try assumption; try reflexivity; contradiction.
  - destruct (Z.eq_dec (Diag.num_paths o + 1) 0) as [Hp | Hp].
    + exists o2. repeat split; try assumption; try reflexivity; contradiction.
    + exists o3. unfold o3 at 1 2 3 4 5 6 7 8 9.
      cbn [Diag.set_avg_correlation Diag.base Diag.num_paths Diag.avg_correlation
           Diag.log_asset_incr_first_mom Diag.log_asset_incr_second_mom
           Diag.var_incr_first_mom Diag.var_incr_second_mom Diag.cross_first_mom].
      repeat split; try assumption; try reflexivity;
        match goal with
        | H : _ \/ _ |- _ => destruct H; contradiction
        end.
Qed.

Lemma decaying_run_returns :
  exists v wd',
    Diag.simulate_stock 100 2 2 (mkWorld (fresh_diagnostics decaying_params) zero_draws 0)
    = (Ok v, wd').
Proof.
  assert (Hrho : Heston.rho (Diag.base (fresh_diagnostics decaying_params))
                 * Heston.rho (Diag.base (fresh_diagnostics decaying_params)) <= 1)
    by (cbn; lra).
  assert (Hspot : 0 < 100) by lra.
  assert (Hmat : 0 <= 2) by lra.
  assert (Hn : (1 <= 2)%Z) by lia.
  destruct (diag_simulate_stock_run 100 2 2 (fresh_diagnostics decaying_params)
              zero_draws 0 Hrho Hspot Hmat Hn) as (_ & _ & wd' & _ & E).
  cbn [fresh_diagnostics Diag.base Diag.num_paths] in E.
  change (Z.to_nat 2) with 2%nat in E.
  rewrite decaying_path_increments in E.
  destruct (Req_EM_T _ 0) as [Hz | _] in E.
  - exfalso. apply Rmult_integral in Hz.
    destruct Hz as [Hz | Hz]; apply sqrt_eq_0 in Hz;
      unfold sample_variance, sum_list in *; cbn in *; lra.
  - destruct (Z.eq_dec (0 + 1) 0) as [Hp | _] in E; [lia |].
    eexists _, _. exact E.
Qed.

(** X8: a diagnostics run that returns counts its path and folds into the
    running average a realised correlation that lies between -1 and 1; an
    average correlation between -1 and 1 therefore stays so. *)
Theorem diagnostics_average_correlation_bounded
    (o : Diag.t) (stream : nat -> R) (d : nat) (spot maturity : R) (num_steps : Z)
    (v : R) (wd' : world Diag.t) :
  -1 <= Heston.rho (Diag.base o) <= 1 ->
  0 < spot -> 0 <= maturity -> (1 <= num_steps)%Z ->
  (0 <= Diag.num_paths o)%Z ->
  -1 <= Diag.avg_correlation o <= 1 ->
  Diag.simulate_stock spot maturity num_steps (mkWorld o stream d) = (Ok v, wd') ->
  Diag.num_paths (self wd') = (Diag.num_paths o + 1)%Z /\
  (exists corr,
     -1 <= corr <= 1 /\
     Diag.avg_correlation (self wd') * IZR (Diag.num_paths o + 1)
     = Diag.avg_correlation o * IZR (Diag.num_paths o) + corr) /\
  -1 <= Diag.avg_correlation (self wd') <= 1.
Proof.
  intros Hrho Hspot Hmat Hn Hpaths Havg E. apply rho_in_range in Hrho.
  destruct (diag_simulate_stock_outcome spot maturity num_steps o stream d
              Hrho Hspot Hmat Hn)
    as (o' & _ & Hnp & _ & _ & _ & _ & _ & Hraise & Hok).
  cbv zeta in Hraise, Hok.
  set (incs := increments (ft_path (Diag.base o) (maturity / IZR num_steps) stream d
                             (Z.to_nat num_steps)
                             (Heston.mkLocals (Heston.initial_variance (Diag.base o))
                                (ln spot) None))) in *.
  set (q := 1 / IZR num_steps) in *.
  destruct (Req_EM_T (sqrt (sample_variance q (map fst incs))
                      * sqrt (sample_variance q (map snd incs))) 0) as [Hz | Hnz].
  { destruct (Hraise (or_introl Hz)) as [Er _]. rewrite Er in E. discriminate. }
  assert (Hp : (Diag.num_paths o + 1)%Z <> 0%Z) by lia.
  destruct (Hok Hnz Hp) as [Eo Ha]. rewrite Eo in E. inversion E. subst wd'. cbn [self].
  pose proof (IZR_pos_of_ge_1 _ Hn) as HN.
  assert (Hq0 : 0 <= q).
  { unfold q. apply Rmult_le_pos; [lra | left; apply Rinv_0_lt_compat; exact HN]. }
  assert (Hlen : q * INR (length incs) = 1).
  { unfold incs. rewrite length_increments_ft_path. apply weight_sums_to_one. exact Hn. }
  assert (Hcorr : -1 <= sample_covariance q incs
                        / (sqrt (sample_variance q (map fst incs))
                           * sqrt (sample_variance q (map snd incs))) <= 1).
  { apply correlation_bounded.
    - apply sample_variance_nonneg; [exact Hq0 | rewrite length_map; exact Hlen].
    - apply sample_variance_nonneg; [exact Hq0 | rewrite length_map; exact Hlen].
    - apply sample_cauchy_schwarz; assumption.
    - exact Hnz. }
  set (corr := sample_covariance q incs / _) in *.
  assert (Hnn : 0 <= IZR (Diag.num_paths o)) by (apply IZR_le; exact Hpaths).
  assert (Hn1 : IZR (Diag.num_paths o + 1) = IZR (Diag.num_paths o) + 1)
    by (rewrite plus_IZR; reflexivity).
  split; [exact Hnp |]. split.
  - exists corr. split; [exact Hcorr |]. rewrite Ha. field. lra.
  - rewrite Ha, Hn1. split.
    + apply Rmult_le_reg_r with (IZR (Diag.num_paths o) + 1); [lra |].
      unfold Rdiv. rewrite Rmult_assoc, Rinv_l by lra. nra.
    + apply Rmult_le_reg_r with (IZR (Diag.num_paths o) + 1); [lra |].
      unfold Rdiv. rewrite Rmult_assoc, Rinv_l by lra. nra.
Qed.

Lemma diagnostics_average_correlation_bounded_witness :
  let o := fresh_diagnostics decaying_params in
  (-1 <= Diag.avg_correlation o <= 1) /\
  exists v wd',
    Diag.simulate_stock 100 2 2 (mkWorld o zero_draws 0) = (Ok v, wd') /\
    Diag.num_paths (self wd') = 1%Z /\
    -1 <= Diag.avg_correlation (self wd') <= 1.
Proof.
  intros o.
  assert (Hrho : -1 <= Heston.rho (Diag.base o) <= 1) by (cbn; lra).
  assert (Hspot : 0 < 100) by lra.
  assert (Hmat : 0 <= 2) by lra.
  assert (Hn : (1 <= 2)%Z) by lia.
  assert (Hpaths : (0 <= Diag.num_paths o)%Z) by (cbn; lia).
  assert (Havg : -1 <= Diag.avg_correlation o <= 1) by (cbn; lra).
  split; [exact Havg |].
  destruct decaying_run_returns as (v & wd' & E).
  destruct (diagnostics_average_correlation_bounded o zero_draws 0 100 2 2 v wd'
              Hrho Hspot Hmat Hn Hpaths Havg E) as (Hnp & _ & Hb).
  exists v, wd'. split; [exact E |]. split; [exact Hnp | exact Hb].
Defined.

(** X9: a path on which the correlation is undefined is counted all the same.
    For a one-step path, and for a model with [kappa = 0] and [omega = 0]
    (every variance increment is zero), [simulate_stock] of the diagnostics
    class raises after [num_paths] has gone up by one and before
    [avg_correlation] is touched: the object is left with one more path and
    the old average. *)
Theorem diagnostics_counts_failed_path
    (o : Diag.t) (stream : nat -> R) (d : nat) (spot maturity : R) (num_steps : Z) :
  -1 <= Heston.rho (Diag.base o) <= 1 ->
  0 < spot -> 0 <= maturity -> (1 <= num_steps)%Z ->
  num_steps = 1%Z
  \/ (Heston.kappa (Diag.base o) = 0 /\ Heston.omega (Diag.base o) = 0) ->
  exists e o',
    Diag.simulate_stock spot maturity num_steps (mkWorld o stream d)
    = (Raise e, mkWorld o' stream (d + 2 * Z.to_nat num_steps)) /\
    Diag.num_paths o' = (Diag.num_paths o + 1)%Z /\
    Diag.avg_correlation o' = Diag.avg_correlation o /\
    Diag.base o' = Diag.base o.
Proof.
  intros Hrho Hspot Hmat Hn Hdeg. apply rho_in_range in Hrho.
  destruct (diag_simulate_stock_outcome spot maturity num_steps o stream d
              Hrho Hspot Hmat Hn)
    as (o' & Hb & Hnp & _ & _ & _ & _ & _ & Hraise & _).
  cbv zeta in Hraise.
  pose proof (length_increments_ft_path (Diag.base o) (maturity / IZR num_steps) stream
                (Z.to_nat num_steps) d
                (Heston.mkLocals (Heston.initial_variance (Diag.base o)) (ln spot) None))
    as Hlen.
  pose proof (weight_sums_to_one num_steps Hn) as Hq.
  destruct Hraise as [Er Ha].
  { left. destruct Hdeg as [H1 | [Hk Ho]].
    - rewrite (sample_variance_all_equal (1 / IZR num_steps)
                 (map fst (increments
                    (ft_path (Diag.base o) (maturity / IZR num_steps) stream d
                       (Z.to_nat num_steps)
                       (Heston.mkLocals (Heston.initial_variance (Diag.base o))
                          (ln spot) None))))).
      + rewrite sqrt_0. ring.
      + rewrite length_map, Hlen. exact Hq.
      + apply single_increment_all_equal. rewrite length_map, Hlen, H1. reflexivity.
    - rewrite (sample_variance_all_equal (1 / IZR num_steps)
                 (map snd (increments
                    (ft_path (Diag.base o) (maturity / IZR num_steps) stream d
                       (Z.to_nat num_steps)
                       (Heston.mkLocals (Heston.initial_variance (Diag.base o))
                          (ln spot) None))))).
      + rewrite sqrt_0. ring.
      + rewrite length_map, Hlen. exact Hq.
      + exists 0. apply ft_path_constant_variance; assumption. }
  exists ZeroDivisionError, o'. repeat split; assumption.
Qed.

Lemma diagnostics_counts_failed_path_witness :
  (-1 <= Heston.rho heston_special_case <= 1) /\
  exists e o',
    Diag.simulate_stock 100 5 10
      (mkWorld (fresh_diagnostics heston_special_case) zero_draws 0)
    = (Raise e, mkWorld o' zero_draws 20) /\
    Diag.num_paths o' = 1%Z /\
    Diag.avg_correlation o' = 0.
Proof.
  assert (Hrho : -1 <= Heston.rho heston_special_case <= 1) by (cbn; lra).
  assert (Hspot : 0 < 100) by lra.
  assert (Hmat : 0 <= 5) by lra.
  assert (Hn : (1 <= 10)%Z) by lia.
  split; [exact Hrho |].
  destruct (diagnostics_counts_failed_path (fresh_diagnostics heston_special_case)
              zero_draws 0 100 5 10 Hrho Hspot Hmat Hn)
    as (e & o' & E & Hnp & Ha & _).
  { right. split; reflexivity. }
  exists e, o'. split; [exact E |]. split; [exact Hnp | exact Ha].
Defined.

Lemma increments_telescope (ls : list Heston.locals) (l0 : Heston.locals) :
  sum_list (map fst (increments (l0 :: ls)))
  = Heston.log_asset_prev (last ls l0) - Heston.log_asset_prev l0 /\
  sum_list (map snd (increments (l0 :: ls)))
  = Heston.var_prev (last ls l0) - Heston.var_prev l0.
Proof.
  revert l0. induction ls as [| l ls IH]; intros l0.
  - cbn. split; ring.
  - change (increments (l0 :: l :: ls))
      with ((Heston.log_asset_prev l - Heston.log_asset_prev l0,
             Heston.var_prev l - Heston.var_prev l0) :: increments (l :: ls)).
    cbn [map fst snd]. unfold sum_list at 1 2. cbn [fold_right].
    fold (sum_list (map fst (increments (l :: ls)))).
    fold (sum_list (map snd (increments (l :: ls)))).
    destruct (IH l) as [E1 E2]. rewrite E1, E2.
    replace (last (l :: ls) l0) with (last ls l).
    2:{ destruct ls as [| l1 ls]; [reflexivity |].
        change (last (l :: l1 :: ls) l0) with (last (l1 :: ls) l0).
        apply last_default_irrelevant. discriminate. }
    split; ring.
Qed.

Lemma ft_path_head h dt stream d n l :
  exists rest, ft_path h dt stream d n l = l :: rest /\
               last (ft_path h dt stream d n l) l = last rest l.
Proof.
  destruct n as [| n]; cbn [ft_path].
  - exists []. split; reflexivity.
  - eexists. split; [reflexivity |].
    destruct (ft_path h dt stream (S (S d)) n (ft_step h dt (stream d) (stream (S d)) l));
      reflexivity.
Qed.

(** X10: the statistics of the diagnostics class are those of the last path
    only.  After a call of [simulate_stock] on valid inputs, returning or
    not, the five stored moments are the sums over this path's increments
    weighted by [1 / num_steps], whatever they were before the call; the two
    first moments telescope to the total log-return and the total change of
    variance over [num_steps]. *)
Theorem diagnostics_statistics_are_per_path
    (o : Diag.t) (stream : nat -> R) (d : nat) (spot maturity : R) (num_steps : Z) :
  -1 <= Heston.rho (Diag.base o) <= 1 ->
  0 < spot -> 0 <= maturity -> (1 <= num_steps)%Z ->
  let l0 := Heston.mkLocals (Heston.initial_variance (Diag.base o)) (ln spot) None in
  exists ls wp',
    trace (Z.to_nat num_steps)
      (Heston.loop_body (Scheme0 := FT.scheme) (maturity / IZR num_steps)) l0
      (mkWorld (Diag.base o) stream d) = (Ok ls, wp') /\
    let o' := self (snd (Diag.simulate_stock spot maturity num_steps (mkWorld o stream d))) in
    let q := 1 / IZR num_steps in
    Diag.log_asset_incr_first_mom o' = q * sum_list (map fst (increments ls)) /\
    Diag.log_asset_incr_second_mom o'
    = q * sum_list (map (fun x => x * x) (map fst (increments ls))) /\
    Diag.var_incr_first_mom o' = q * sum_list (map snd (increments ls)) /\
    Diag.var_incr_second_mom o'
    = q * sum_list (map (fun x => x * x) (map snd (increments ls))) /\
    Diag.cross_first_mom o' = q * sum_list (map (fun p => fst p * snd p) (increments ls)) /\
    Diag.log_asset_incr_first_mom o'
    = (Heston.log_asset_prev (last ls l0) - ln spot) / IZR num_steps /\
    Diag.var_incr_first_mom o'
    = (Heston.var_prev (last ls l0) - Heston.initial_variance (Diag.base o))
      / IZR num_steps.
Proof.
  intros Hrho Hspot Hmat Hn l0. apply rho_in_range in Hrho.
  pose proof (step_size_nonneg _ _ Hmat Hn) as Hdt.
  pose proof (IZR_pos_of_ge_1 _ Hn) as HN.
  eexists _, _. split.
  - apply (ft_trace_run (O := Heston.t)); assumption.
  - unfold Heston.fields, Heston.fields_t.
    destruct (diag_simulate_stock_outcome spot maturity num_steps o stream d
                Hrho Hspot Hmat Hn)
      as (o' & _ & _ & M1 & M2 & M3 & M4 & M5 & Hraise & Hok).
    cbv zeta in *. fold l0 in M1, M2, M3, M4, M5, Hraise, Hok.
    set (path := ft_path (Diag.base o) (maturity / IZR num_steps) stream d
                   (Z.to_nat num_steps) l0) in *.
    assert (Eself : self (snd (Diag.simulate_stock spot maturity num_steps
                                 (mkWorld o stream d))) = o').
    { destruct (Req_EM_T (sqrt (sample_variance (1 / IZR num_steps)
                                  (map fst (increments path)))
                          * sqrt (sample_variance (1 / IZR num_steps)
                                    (map snd (increments path)))) 0) as [Hz | Hnz].
      - destruct (Hraise (or_introl Hz)) as [Er _]. rewrite Er. reflexivity.
      - destruct (Z.eq_dec (Diag.num_paths o + 1) 0) as [Hp | Hp].
        + destruct (Hraise (or_intror Hp)) as [Er _]. rewrite Er. reflexivity.
        + destruct (Hok Hnz Hp) as [Er _]. rewrite Er. reflexivity. }
    rewrite Eself.
    destruct (ft_path_head (Diag.base o) (maturity / IZR num_steps) stream d
                (Z.to_nat num_steps) l0) as (rest & Hhead & Hlast).
    fold path in Hhead, Hlast.
    destruct (increments_telescope rest l0) as [T1 T2].
    rewrite <- Hhead, <- Hlast in T1, T2. cbn [l0 Heston.log_asset_prev Heston.var_prev] in T1, T2.
    repeat split; try assumption.
    + rewrite M1, T1. unfold l0. field. lra.
    + rewrite M3, T2. unfold l0. field. lra.
Qed.

Lemma diagnostics_statistics_are_per_path_witness :
  let o := Diag.mk notebook_params 7 (1 / 2) 1 2 3 4 5 in
  (-1 <= Heston.rho (Diag.base o) <= 1) /\
  exists terminal_locals,
    Diag.log_asset_incr_first_mom
      (self (snd (Diag.simulate_stock 100 5 10 (mkWorld o zero_draws 0))))
    = (Heston.log_asset_prev terminal_locals - ln 100) / 10.
Proof.
  intros o.
  assert (Hrho : -1 <= Heston.rho (Diag.base o) <= 1) by (cbn; lra).
  assert (Hspot : 0 < 100) by lra.
  assert (Hmat : 0 <= 5) by lra.
  assert (Hn : (1 <= 10)%Z) by lia.
  split; [exact Hrho |].
  destruct (diagnostics_statistics_are_per_path o zero_draws 0 100 5 10
              Hrho Hspot Hmat Hn) as (ls & wp' & _ & _ & _ & _ & _ & _ & Htel & _).
  eexists. exact Htel.
Defined.

(** X11: the edges of the diagnostics [simulate_stock].  With [num_steps = 0]
    it raises [ZeroDivisionError] at the step size, after the statistics have
    been cleared; with a negative [num_steps] and a positive [spot] the loop
    is empty, both standard deviations are zero and the correlation raises
    [ZeroDivisionError], after [num_paths] has gone up by one (where the
    plain classes raise [UnboundLocalError]).  No draw is taken. *)
Theorem diagnostics_simulate_stock_edges
    (o : Diag.t) (stream : nat -> R) (d : nat) (spot maturity : R) (num_steps : Z) :
  let cleared := Diag.mk (Diag.base o) (Diag.num_paths o) (Diag.avg_correlation o)
                   0 0 0 0 0 in
  (num_steps = 0%Z ->
   Diag.simulate_stock spot maturity num_steps (mkWorld o stream d)
   = (Raise ZeroDivisionError, mkWorld cleared stream d)) /\
  ((num_steps < 0)%Z -> 0 < spot ->
   Diag.simulate_stock spot maturity num_steps (mkWorld o stream d)
   = (Raise ZeroDivisionError,
      mkWorld (Diag.set_num_paths (Diag.num_paths o + 1) cleared) stream d)).
Proof.
  intros cleared. unfold Diag.simulate_stock. split.
  - intros ->. unfold bind at 1. rewrite diag_clear_statistics_run.
    unfold bind at 1. rewrite truediv_raise by reflexivity. reflexivity.
  - intros Hn Hspot. unfold bind at 1. rewrite diag_clear_statistics_run.
    unfold bind at 1. rewrite truediv_ok by (apply not_0_IZR; lia).
    unfold bind at 1. cbn [getattr self].
    unfold bind at 1. rewrite math_log_ok by exact Hspot.
    replace (Z.to_nat num_steps) with 0%nat by lia. cbn [for_range].
    unfold bind at 1. unfold ret at 1.
    fold cleared.
    pose proof (diag_calculate_correlation_run cleared stream d) as Hc.
    cbv zeta in Hc.
    cbn [cleared Diag.log_asset_incr_first_mom Diag.log_asset_incr_second_mom
         Diag.var_incr_first_mom Diag.var_incr_second_mom Diag.cross_first_mom
         Diag.num_paths] in Hc.
    fold cleared in Hc.
    replace (0 - 0 * 0) with 0 in Hc by ring. rewrite sqrt_0 in Hc.
    specialize (Hc (Rle_refl 0) (Rle_refl 0)).
    destruct (Req_EM_T (0 * 0) 0) as [_ | Hnz] in Hc; [| exfalso; apply Hnz; ring].
    unfold bind at 1. rewrite Hc. reflexivity.
Qed.

Lemma diagnostics_simulate_stock_edges_witness :
  let o := fresh_diagnostics notebook_params in
  Diag.simulate_stock 100 5 0 (mkWorld o zero_draws 0)
  = (Raise ZeroDivisionError, mkWorld o zero_draws 0) /\
  Diag.simulate_stock 100 5 (-1) (mkWorld o zero_draws 0)
  = (Raise ZeroDivisionError, mkWorld (Diag.set_num_paths 1 o) zero_draws 0).
Proof.
  intros o. split.
  - apply (proj1 (diagnostics_simulate_stock_edges o zero_draws 0 100 5 0)). reflexivity.
  - apply (proj2 (diagnostics_simulate_stock_edges o zero_draws 0 100 5 (-1))); [lia | lra].
Defined.

(** ** The pricer: edges, signs and totality *)

Section PricerProperties.
Context {O : Type} `{Model O}.

Lemma price_call_option_returns_only_with_paths
    spot strike maturity num_steps num_paths (w w' : world O) r :
  price_call_option spot strike maturity num_steps num_paths w = (Ok r, w') ->
  (1 <= num_paths)%Z.
Proof.
  intros E. destruct (Z_lt_le_dec num_paths 1) as [Hlt | Hge]; [| exact Hge].
  exfalso. unfold price_call_option in E.
  replace (Z.to_nat num_paths) with 0%nat in E by lia. cbn [for_range] in E.
  unfold bind at 1 in E. unfold ret at 1 in E.
  unfold bind at 1 in E. unfold math_sqrt in E.
  destruct (Rlt_dec (IZR num_paths) 0) as [Hneg | Hpos]; [discriminate |].
  unfold ret at 1 in E. unfold bind at 1 in E. unfold truediv in E.
  destruct (Req_EM_T (sqrt (IZR num_paths)) 0) as [Hz | Hnz]; [discriminate |].
  apply Hnz. assert (Hzero : num_paths = 0%Z).
  { destruct (Z.eq_dec num_paths 0) as [Hq | Hq]; [exact Hq |].
    exfalso. apply Hpos. apply IZR_lt. lia. }
  rewrite Hzero. apply sqrt_0.
Qed.

Lemma sum_list_payoffs_nonneg strike (ts : list R) :
  0 <= sum_list (map (call_payoff strike) ts).
Proof.
  induction ts as [| t ts IH]; cbn [map sum_list fold_right].
  - lra.
  - fold (sum_list (map (call_payoff strike) ts)).
    pose proof (Rmax_r (t - strike) 0) as Hp. unfold call_payoff at 1. lra.
Qed.

End PricerProperties.

(** X12: [price_call_option] needs at least one path.  With [num_paths = 0] it
    raises [ZeroDivisionError] (the division by [sqrt 0]), with a negative
    [num_paths] a domain error (the square root); in both cases the model is
    never asked for a path: no draw is taken and the model object is
    untouched. *)
Theorem price_call_option_needs_a_path
    {O : Type} `{Model O} (spot strike maturity : R) (num_steps num_paths : Z)
    (w : world O) :
  ((num_paths = 0)%Z ->
   price_call_option spot strike maturity num_steps num_paths w
   = (Raise ZeroDivisionError, w)) /\
  ((num_paths < 0)%Z ->
   price_call_option spot strike maturity num_steps num_paths w = (Raise ValueError, w)).
Proof.
  unfold price_call_option. split.
  - intros ->. change (Z.to_nat 0) with 0%nat. cbn [for_range].
    unfold bind at 1. unfold ret at 1.
    unfold bind at 1. rewrite math_sqrt_ok by lra.
    unfold bind at 1. rewrite truediv_raise by apply sqrt_0. reflexivity.
  - intros Hn. replace (Z.to_nat num_paths) with 0%nat by lia. cbn [for_range].
    unfold bind at 1. unfold ret at 1.
    unfold bind at 1. rewrite math_sqrt_raise; [reflexivity |].
    apply IZR_lt. exact Hn.
Qed.


Lemma price_call_option_needs_a_path_witness :
  let w := mkWorld notebook_bs zero_draws 0 in
  price_call_option 100 100 5 1 0 w = (Raise ZeroDivisionError, w) /\
  price_call_option 100 100 5 1 (-2) w = (Raise ValueError, w).
Proof.
  intros w. split.
  - apply (proj1 (price_call_option_needs_a_path 100 100 5 1 0 w)). reflexivity.
  - apply (proj2 (price_call_option_needs_a_path 100 100 5 1 (-2) w)). lia.
Defined.

(** X13: a price that [price_call_option] returns is never negative, and
    neither is its standard error; a price is only returned for
    [num_paths >= 1], and with a single path the standard error is zero. *)
Theorem price_call_option_nonnegative
    {O : Type} `{Model O} (spot strike maturity : R) (num_steps num_paths : Z)
    (w w' : world O) (price std_error : R) :
  price_call_option spot strike maturity num_steps num_paths w
  = (Ok (price, std_error), w') ->
  (1 <= num_paths)%Z /\ 0 <= price /\ 0 <= std_error /\
  (num_paths = 1%Z -> std_error = 0).
Proof.
  intros E.
  pose proof (price_call_option_returns_only_with_paths _ _ _ _ _ _ _ _ E) as Hn.
  split; [exact Hn |].
  rewrite price_call_option_refines in E by exact Hn.
  unfold price_call_spec in E. apply bind_ok_inv in E.
  destruct E as (ts & w1 & Ets & E). unfold ret in E. inversion E. subst w' price std_error.
  clear E. unfold simulate_paths in Ets. apply simulate_paths_length in Ets. cbn [length] in Ets.
  pose proof (IZR_pos_of_ge_1 _ Hn) as HN.
  assert (Hlen : 0 < INR (length (map (call_payoff strike) ts))).
  { rewrite length_map, Ets. apply lt_0_INR. lia. }
  split; [| split].
  - unfold np_average. apply Rmult_le_pos; [apply sum_list_payoffs_nonneg |].
    left. apply Rinv_0_lt_compat. exact Hlen.
  - unfold np_std. apply Rmult_le_pos; [apply sqrt_pos |].
    left. apply Rinv_0_lt_compat. apply sqrt_lt_R0. exact HN.
  - intros H1. subst num_paths. change (Z.to_nat 1) with 1%nat in Ets.
    destruct ts as [| t [| t' ts]]; cbn [length] in Ets; try lia.
    unfold np_std, np_average. cbn [map length sum_list fold_right INR].
    replace ((call_payoff strike t - (call_payoff strike t + 0) / 1)
             * (call_payoff strike t - (call_payoff strike t + 0) / 1) + 0) with 0
      by (field).
    replace (0 / 1) with 0 by field. rewrite sqrt_0. field.
    apply Rgt_not_eq. apply sqrt_lt_R0. lra.
Qed.

Lemma price_call_option_nonnegative_witness :
  exists price std_error w',
    price_call_option 100 100 5 1 1 (mkWorld notebook_bs zero_draws 0)
    = (Ok (price, std_error), w') /\
    0 <= price /\ std_error = 0.
Proof.
  assert (Hmat : 0 <= 5) by lra.
  assert (Hsteps : (1 <= 1)%Z) by lia.
  destruct (black_scholes_simulate_stock_ok 100 5 1 notebook_bs zero_draws 0 Hmat Hsteps)
    as [v1 E1].
  assert (E : simulate_paths 100 5 1 1 (mkWorld notebook_bs zero_draws 0)
              = (Ok [v1], mkWorld notebook_bs zero_draws (0 + Z.to_nat 1))).
  { unfold simulate_paths. cbn [for_range].
    unfold model_simulate_stock, BlackScholes_model.
    unfold bind at 1. rewrite (bind_ok _ _ _ _ _ E1). reflexivity. }
  assert (Ep : price_call_option 100 100 5 1 1 (mkWorld notebook_bs zero_draws 0)
               = (Ok (np_average (map (call_payoff 100) [v1]),
                      np_std (map (call_payoff 100) [v1]) / sqrt (IZR 1)),
                  mkWorld notebook_bs zero_draws (0 + Z.to_nat 1))).
  { rewrite price_call_option_refines by lia.
    unfold price_call_spec. rewrite (bind_ok _ _ _ _ _ E). reflexivity. }
  destruct (price_call_option_nonnegative 100 100 5 1 1 _ _ _ _ Ep) as (_ & Hp & _ & Hs).
  eexists _, _, _. split; [exact Ep |]. split; [exact Hp | apply Hs; reflexivity].
Defined.

Lemma pricer_returns {O : Type} `{Model O} (I : world O -> Prop)
    spot strike maturity num_steps num_paths (w : world O) :
  (forall w, I w ->
     exists v w', model_simulate_stock spot maturity num_steps w = (Ok v, w') /\ I w') ->
  (1 <= num_paths)%Z -> I w ->
  exists price std_error w',
    price_call_option spot strike maturity num_steps num_paths w
    = (Ok (price, std_error), w') /\ I w'.
Proof.
  intros Hsim Hn Hw.
  assert (Hloop : forall n acc w0, I w0 ->
            exists ts w1,
              for_range n
                (fun acc => s <- model_simulate_stock spot maturity num_steps ;;
                            ret (acc ++ [py_max (s - strike) 0])) acc w0
              = (Ok ts, w1) /\ I w1).
  { induction n as [| n IH]; intros acc w0 Hw0; cbn [for_range].
    - exists acc, w0. split; [reflexivity | exact Hw0].
    - destruct (Hsim w0 Hw0) as (v & w1 & E1 & Hw1).
      rewrite (bind_ok _ _ w0 (acc ++ [py_max (v - strike) 0]) w1)
        by (rewrite (bind_ok _ _ _ _ _ E1); reflexivity).
      apply IH. exact Hw1. }
  destruct (Hloop (Z.to_nat num_paths) [] w Hw) as (ts & w1 & E & Hw1).
  pose proof (IZR_pos_of_ge_1 _ Hn) as HN.
  assert (Hs : 0 < sqrt (IZR num_paths)) by (apply sqrt_lt_R0; exact HN).
  unfold price_call_option. rewrite (bind_ok _ _ _ _ _ E).
  unfold bind at 1. rewrite math_sqrt_ok by lra.
  unfold bind at 1. rewrite truediv_ok by lra.
  unfold ret. eexists _, _, _. split; [reflexivity | exact Hw1].
Qed.

Lemma absorption_simulate_stock_keeps_parameters spot maturity num_steps (w : world Abs.t) :
  Heston.rho (Abs.base (self w)) * Heston.rho (Abs.base (self w)) <= 1 ->
  0 <= Heston.initial_variance (Abs.base (self w)) ->
  0 < spot -> 0 <= maturity -> (1 <= num_steps)%Z ->
  exists v w',
    Abs.simulate_stock spot maturity num_steps w = (Ok v, w') /\
    Abs.base (self w') = Abs.base (self w).
Proof.
  intros Hrho Hv0 Hspot Hmat Hn.
  unfold Abs.simulate_stock, Heston.simulate_stock.
  pose proof (IZR_pos_of_ge_1 _ Hn) as HN.
  unfold bind at 1. rewrite truediv_ok by lra.
  unfold bind at 1. cbn [getattr].
  unfold bind at 1. rewrite math_log_ok by assumption.
  destruct (absorption_loop_ok (maturity / IZR num_steps) (Z.to_nat num_steps)
              (Heston.mkLocals (Heston.initial_variance (Heston.fields (self w))) (ln spot) None) w)
    as (l & w' & E & _ & Hsome & Hbase); try assumption.
  { apply step_size_nonneg; assumption. }
  rewrite (bind_ok _ _ _ _ _ E).
  destruct (Heston.log_asset_next l) as [la |].
  - eexists _, _. split; [reflexivity | exact Hbase].
  - exfalso. apply Hsome; [left; lia | reflexivity].
Qed.

(** X14: on valid inputs the pricer returns a price, on every stream of
    draws.  With [maturity >= 0], [num_steps >= 1] and [num_paths >= 1] the
    Black-Scholes pricer returns for every model; with also [spot > 0], a
    correlation in [-1, 1] and [V0 >= 0], so do the absorption pricer and the
    full-truncation pricer, whatever the other parameters are. *)
Theorem price_call_option_returns
    (spot strike maturity : R) (num_steps num_paths : Z)
    (bs : BlackScholes.t) (h : Heston.t) (c : Z) (stream : nat -> R) (d : nat) :
  0 <= maturity -> (1 <= num_steps)%Z -> (1 <= num_paths)%Z ->
  (exists price std_error w',
     price_call_option spot strike maturity num_steps num_paths (mkWorld bs stream d)
     = (Ok (price, std_error), w')) /\
  (0 < spot -> -1 <= Heston.rho h <= 1 -> 0 <= Heston.initial_variance h ->
   (exists price std_error w',
      price_call_option spot strike maturity num_steps num_paths
        (mkWorld (Abs.mk h c) stream d) = (Ok (price, std_error), w')) /\
   (exists price std_error w',
      price_call_option (H := Heston_Full_Truncation_model)
        spot strike maturity num_steps num_paths (mkWorld h stream d)
      = (Ok (price, std_error), w'))).
Proof.
  intros Hmat Hsteps Hpaths. split.
  - destruct (pricer_returns (fun _ => True) spot strike maturity num_steps num_paths
                (mkWorld bs stream d)) as (p & se & w' & E & _); try trivial.
    + intros [o s k] _.
      destruct (black_scholes_simulate_stock_ok spot maturity num_steps o s k Hmat Hsteps)
        as [v E].
      eexists _, _. split; [exact E | trivial].
    + exists p, se, w'. exact E.
  - intros Hspot Hrho Hv0. apply rho_in_range in Hrho. split.
    + destruct (pricer_returns
                  (fun w => Heston.rho (Abs.base (self w)) * Heston.rho (Abs.base (self w)) <= 1
                            /\ 0 <= Heston.initial_variance (Abs.base (self w)))
                  spot strike maturity num_steps num_paths
                  (mkWorld (Abs.mk h c) stream d)) as (p & se & w' & E & _);
        try assumption.
      * intros w0 [H1 H2].
        destruct (absorption_simulate_stock_keeps_parameters spot maturity num_steps w0
                    H1 H2 Hspot Hmat Hsteps) as (v & w1 & E & Hb).
        exists v, w1. split; [exact E |]. rewrite Hb. split; assumption.
      * cbn. split; assumption.
      * exists p, se, w'. exact E.
    + destruct (pricer_returns (H := Heston_Full_Truncation_model)
                  (fun w => Heston.rho (self w) * Heston.rho (self w) <= 1)
                  spot strike maturity num_steps num_paths
                  (mkWorld h stream d)) as (p & se & w' & E & _); try assumption.
      * intros [o s k] Ho. cbn [self] in Ho.
        eexists _, _. split.
        -- apply full_truncation_simulate_stock_run; assumption.
        -- exact Ho.
      * exists p, se, w'. exact E.
Qed.

Lemma price_call_option_returns_witness :
  0 <= 5 /\
  (exists price std_error w',
     price_call_option 100 100 5 10 1000
       (mkWorld (Abs.mk notebook_params 0) zero_draws 0) = (Ok (price, std_error), w')) /\
  (exists price std_error w',
     price_call_option (H := Heston_Full_Truncation_model) 100 100 5 10 1000
       (mkWorld notebook_params zero_draws 0) = (Ok (price, std_error), w')).
Proof.
  assert (Hmat : 0 <= 5) by lra.
  assert (Hsteps : (1 <= 10)%Z) by lia.
  assert (Hpaths : (1 <= 1000)%Z) by lia.
  assert (Hspot : 0 < 100) by lra.
  assert (Hrho : -1 <= Heston.rho notebook_params <= 1) by (cbn; lra).
  assert (Hv0 : 0 <= Heston.initial_variance notebook_params) by (cbn; lra).
  split; [exact Hmat |].
  exact (proj2 (price_call_option_returns 100 100 5 10 1000 notebook_bs notebook_params 0
                  zero_draws 0 Hmat Hsteps Hpaths) Hspot Hrho Hv0).
Defined.

(** ** The closed-form price *)

Lemma forward_opt_run norm_cdf forward strike maturity (w : world BlackScholes.t) :
  strike <> 0 -> 0 < forward / strike -> 0 <= maturity ->
  BlackScholes.vol (self w) * sqrt maturity <> 0 ->
  let vol := BlackScholes.vol (self w) in
  let d1 := (ln (forward / strike) + 0.5 * vol * vol * maturity) / (vol * sqrt maturity) in
  BlackScholes.forward_opt norm_cdf forward strike maturity w
  = (Ok (forward * norm_cdf d1 - strike * norm_cdf (d1 - vol * sqrt maturity)), w).
Proof.
  intros HK Hratio Hmat Hden vol d1. unfold BlackScholes.forward_opt.
  unfold bind at 1. cbn [getattr].
  unfold bind at 1. rewrite truediv_ok by exact HK.
  unfold bind at 1. rewrite math_log_ok by exact Hratio.
  unfold bind at 1. rewrite math_sqrt_ok by exact Hmat.
  unfold bind at 1. rewrite truediv_ok by exact Hden.
  unfold bind at 1. rewrite math_sqrt_ok by exact Hmat.
  reflexivity.
Qed.

(** X15: where [forward_opt] is defined.  It returns
    [F * N(d1) - K * N(d1 - vol * sqrt T)] exactly when the strike is not
    zero, forward and strike have the same sign, the maturity is positive and
    the volatility is not zero; it raises [ZeroDivisionError] for a zero
    strike, and also at expiry ([T = 0]) or for a zero volatility, and a
    domain error for a non-positive moneyness or a negative maturity. *)
Theorem forward_opt_domain
    (norm_cdf : R -> R) (forward strike maturity : R) (w : world BlackScholes.t) :
  let vol := BlackScholes.vol (self w) in
  let d1 := (ln (forward / strike) + 0.5 * vol * vol * maturity) / (vol * sqrt maturity) in
  let run := BlackScholes.forward_opt norm_cdf forward strike maturity w in
  (strike <> 0 -> 0 < forward / strike -> 0 < maturity -> vol <> 0 ->
   run = (Ok (forward * norm_cdf d1 - strike * norm_cdf (d1 - vol * sqrt maturity)), w)) /\
  (strike = 0 -> run = (Raise ZeroDivisionError, w)) /\
  (strike <> 0 -> forward / strike <= 0 -> run = (Raise ValueError, w)) /\
  (strike <> 0 -> 0 < forward / strike -> maturity < 0 -> run = (Raise ValueError, w)) /\
  (strike <> 0 -> 0 < forward / strike -> 0 <= maturity -> maturity = 0 \/ vol = 0 ->
   run = (Raise ZeroDivisionError, w)).
Proof.
  intros vol d1 run. unfold run. split; [| split; [| split; [| split]]].
  - intros HK Hratio Hmat Hvol. apply forward_opt_run; try assumption; try lra.
    apply Rmult_integral_contrapositive_currified; [exact Hvol |].
    apply Rgt_not_eq. apply sqrt_lt_R0. exact Hmat.
  - intros HK. unfold BlackScholes.forward_opt.
    unfold bind at 1. cbn [getattr].
    unfold bind at 1. rewrite truediv_raise by exact HK. reflexivity.
  - intros HK Hratio. unfold BlackScholes.forward_opt.
    unfold bind at 1. cbn [getattr].
    unfold bind at 1. rewrite truediv_ok by exact HK.
    unfold bind at 1. unfold math_log.
    destruct (Rle_dec (forward / strike) 0) as [_ | Hc]; [reflexivity | contradiction].
  - intros HK Hratio Hmat. unfold BlackScholes.forward_opt.
    unfold bind at 1. cbn [getattr].
    unfold bind at 1. rewrite truediv_ok by exact HK.
    unfold bind at 1. rewrite math_log_ok by exact Hratio.
    unfold bind at 1. rewrite math_sqrt_raise by exact Hmat. reflexivity.
  - intros HK Hratio Hmat Hzero. unfold BlackScholes.forward_opt.
    unfold bind at 1. cbn [getattr].
    unfold bind at 1. rewrite truediv_ok by exact HK.
    unfold bind at 1. rewrite math_log_ok by exact Hratio.
    unfold bind at 1. rewrite math_sqrt_ok by exact Hmat.
    unfold bind at 1. rewrite truediv_raise; [reflexivity |].
    destruct Hzero as [Hz | Hz].
    + rewrite Hz, sqrt_0. ring.
    + fold vol. rewrite Hz. ring.
Qed.

Lemma forward_opt_domain_witness :
  let w := mkWorld notebook_bs zero_draws 0 in
  (exists v, BlackScholes.forward_opt (fun x => x) 100 100 5 w = (Ok v, w)) /\
  BlackScholes.forward_opt (fun x => x) 100 0 5 w = (Raise ZeroDivisionError, w) /\
  BlackScholes.forward_opt (fun x => x) 100 (-100) 5 w = (Raise ValueError, w) /\
  BlackScholes.forward_opt (fun x => x) 100 100 (-5) w = (Raise ValueError, w) /\
  BlackScholes.forward_opt (fun x => x) 100 100 0 w = (Raise ZeroDivisionError, w).
Proof.
  intros w.
  assert (H1 : 0 < 100 / 100) by lra.
  assert (HK : 100 <> 0) by lra.
  split; [| split; [| split; [| split]]].
  - eexists.
    apply (proj1 (forward_opt_domain (fun x => x) 100 100 5 w)); try assumption; try lra.
    cbn. lra.
  - apply (proj1 (proj2 (forward_opt_domain (fun x => x) 100 0 5 w))). reflexivity.
  - apply (proj1 (proj2 (proj2 (forward_opt_domain (fun x => x) 100 (-100) 5 w)))); lra.
  - apply (proj1 (proj2 (proj2 (proj2 (forward_opt_domain (fun x => x) 100 100 (-5) w)))));
      try assumption; lra.
  - apply (proj2 (proj2 (proj2 (proj2 (forward_opt_domain (fun x => x) 100 100 0 w)))));
      try assumption; lra.
Defined.

Lemma forward_opt_cascade norm_cdf forward strike maturity (w : world BlackScholes.t) :
  let vol := BlackScholes.vol (self w) in
  let d1 := (ln (forward / strike) + 0.5 * vol * vol * maturity) / (vol * sqrt maturity) in
  BlackScholes.forward_opt norm_cdf forward strike maturity w
  = if Req_EM_T strike 0 then (Raise ZeroDivisionError, w)
    else if Rle_dec (forward / strike) 0 then (Raise ValueError, w)
    else if Rlt_dec maturity 0 then (Raise ValueError, w)
    else if Req_EM_T (vol * sqrt maturity) 0 then (Raise ZeroDivisionError, w)
    else (Ok (forward * norm_cdf d1 - strike * norm_cdf (d1 - vol * sqrt maturity)), w).
Proof.
  intros vol d1. unfold BlackScholes.forward_opt.
  unfold bind at 1. cbn [getattr].
  unfold bind at 1. unfold truediv at 1.
  destruct (Req_EM_T strike 0) as [HK | HK]; [reflexivity |]. unfold ret at 1.
  unfold bind at 1. unfold math_log.
  destruct (Rle_dec (forward / strike) 0) as [Hr | Hr]; [reflexivity |]. unfold ret at 1.
  unfold bind at 1. unfold math_sqrt at 1.
  destruct (Rlt_dec maturity 0) as [Hm | Hm]; [reflexivity |]. unfold ret at 1.
  unfold bind at 1. unfold truediv. fold vol.
  destruct (Req_EM_T (vol * sqrt maturity) 0) as [Hd | Hd]; [reflexivity |]. unfold ret at 1.
  unfold bind at 1. rewrite math_sqrt_ok by lra. reflexivity.
Qed.

(** X16: [forward_opt] is homogeneous of degree one in forward and strike.
    Scaling both by the same non-zero factor scales a returned price by that
    factor, and raises the same exception where the unscaled call raises. *)
Theorem forward_opt_homogeneous
    (norm_cdf : R -> R) (scale forward strike maturity : R) (w : world BlackScholes.t) :
  scale <> 0 ->
  BlackScholes.forward_opt norm_cdf (scale * forward) (scale * strike) maturity w
  = match BlackScholes.forward_opt norm_cdf forward strike maturity w with
    | (Ok price, w') => (Ok (scale * price), w')
    | (Raise e, w') => (Raise e, w')
    end.
Proof.
  intros Hs. rewrite !forward_opt_cascade. cbv zeta.
  destruct (Req_EM_T strike 0) as [HK | HK].
  - destruct (Req_EM_T (scale * strike) 0) as [_ | Hc]; [reflexivity |].
    exfalso. apply Hc. rewrite HK. ring.
  - destruct (Req_EM_T (scale * strike) 0) as [Hc | _].
    { exfalso. apply Rmult_integral in Hc. destruct Hc; contradiction. }
    replace (scale * forward / (scale * strike)) with (forward / strike)
      by (field; split; assumption).
    destruct (Rle_dec (forward / strike) 0); [reflexivity |].
    destruct (Rlt_dec maturity 0); [reflexivity |].
    destruct (Req_EM_T _ 0); [reflexivity |].
    do 2 f_equal. ring.
Qed.

Lemma forward_opt_homogeneous_witness :
  let w := mkWorld notebook_bs zero_draws 0 in
  2 <> 0 /\
  exists price,
    BlackScholes.forward_opt (fun x => x) 100 100 5 w = (Ok price, w) /\
    BlackScholes.forward_opt (fun x => x) (2 * 100) (2 * 100) 5 w = (Ok (2 * price), w).
Proof.
  intros w.
  assert (Hs : 2 <> 0) by lra.
  split; [exact Hs |].
  assert (E : exists price,
             BlackScholes.forward_opt (fun x => x) 100 100 5 w = (Ok price, w)).
  { eexists. apply forward_opt_run; cbn [self w notebook_bs BlackScholes.vol]; try lra.
    apply Rmult_integral_contrapositive_currified; [lra |].
    apply Rgt_not_eq. apply sqrt_lt_R0. lra. }
  destruct E as [price E]. exists price. split; [exact E |].
  rewrite (forward_opt_homogeneous (fun x => x) 2 100 100 5 w Hs). rewrite E. reflexivity.
Defined.

(** X17: at the money the closed-form price depends on the volatility and
    the maturity only through [vol * sqrt T]: for [forward = strike = s], a
    positive maturity and a non-zero volatility, [forward_opt] returns
    [s * (N(vol sqrt T / 2) - N(- vol sqrt T / 2))]. *)
Theorem forward_opt_at_the_money
    (norm_cdf : R -> R) (s maturity : R) (w : world BlackScholes.t) :
  s <> 0 -> 0 < maturity -> BlackScholes.vol (self w) <> 0 ->
  let x := BlackScholes.vol (self w) * sqrt maturity / 2 in
  BlackScholes.forward_opt norm_cdf s s maturity w
  = (Ok (s * (norm_cdf x - norm_cdf (- x))), w).
Proof.
  intros Hs Hmat Hvol x.
  assert (Hroot : 0 < sqrt maturity) by (apply sqrt_lt_R0; exact Hmat).
  assert (Hsq : sqrt maturity * sqrt maturity = maturity) by (apply sqrt_sqrt; lra).
  assert (Hratio : s / s = 1) by (field; exact Hs).
  rewrite forward_opt_run; try assumption; try lra.
  - cbv zeta. rewrite Hratio, ln_1.
    set (vol := BlackScholes.vol (self w)) in *.
    assert (Hd1 : (0 + 0.5 * vol * vol * maturity) / (vol * sqrt maturity) = x).
    { replace (0 + 0.5 * vol * vol * maturity)
        with (0.5 * vol * vol * (sqrt maturity * sqrt maturity)) by (rewrite Hsq; ring).
      unfold x. replace 0.5 with (1 / 2) by lra. field. split; lra. }
    rewrite Hd1.
    replace (x - vol * sqrt maturity) with (- x) by (unfold x; field).
    do 2 f_equal. ring.
  - apply Rmult_integral_contrapositive_currified; [exact Hvol | lra].
Qed.

Lemma forward_opt_at_the_money_witness :
  let w := mkWorld notebook_bs zero_draws 0 in
  100 <> 0 /\
  BlackScholes.forward_opt (fun x => x) 100 100 5 w
  = (Ok (100 * (2 / 10 * sqrt 5 / 2 - - (2 / 10 * sqrt 5 / 2))), w).
Proof.
  intros w.
  assert (Hs : 100 <> 0) by lra.
  assert (Hmat : 0 < 5) by lra.
  assert (Hvol : BlackScholes.vol (self w) <> 0) by (cbn; lra).
  split; [exact Hs |].
  exact (forward_opt_at_the_money (fun x => x) 100 5 w Hs Hmat Hvol).
Defined.
